(** * Haven messaging: the hybrid envelope encryption layer and the identity generator

    A shallow embedding of [lib/crypto.ts], [lib/identity.ts] and
    [lib/password.ts], and of the decryption of stored and of incoming
    messages in [context/ChatContext.tsx], followed by the properties of the
    specification that concern them and by further properties of the code.

    Conventions.  An ECMAScript string is the list of its UTF-16 code units; a
    [Uint8Array]/[ArrayBuffer] is a [list byte]; a thrown exception or a rejected
    promise is the [Throw] completion; the browser state touched by the code (the
    secure random source and the calls made to [crypto.subtle]) is threaded
    explicitly. *)

From Stdlib Require Import List NArith ZArith Lia Bool SpecFloat.
From Stdlib.Strings Require Import String Ascii Byte.
Import ListNotations.

Local Open Scope N_scope.

(* ================================================================== *)
(** * Part I: the program *)
(* ================================================================== *)

(** ** ECMAScript values used by the code *)
Module JS.

(** A string is a sequence of 16-bit code units. *)
Definition jsstring := list N.

(** String literals of the source, written as Rocq strings (all ASCII). *)
Definition lit (s : string) : jsstring :=
  map N_of_ascii (list_ascii_of_string s).

(** The algorithms that the code names in its calls to [crypto.subtle]. *)
Inductive algorithm := RSA_OAEP | AES_GCM.

(** A call into the platform that can fail, with the data it was given. *)
Inductive platform_call :=
| btoa_of (data : jsstring)
| atob_of (data : jsstring)
| importKey_of (keyData : list byte)
| encrypt_of (alg : algorithm) (data : list byte)
| decrypt_of (alg : algorithm) (data : list byte).

(** Exceptions the code can raise or let through.  A [DOMException] is raised
    by the platform, never by the code: it has the name that the standard
    fixes and a message that is the engine's own text for the failed call;
    the call stands here for that text. *)
Inductive dom_error := InvalidCharacterError | OperationError | DataError.

Inductive exn :=
| Error (message : jsstring)        (* [new Error(message)] *)
| TypeError
| SyntaxError
| DOMException (name : dom_error) (raised_by : platform_call).

(** Completion of a call: a value, or a thrown exception. *)
Inductive completion (A : Type) :=
| Return (a : A)
| Throw (e : exn).
Arguments Return {A} a.
Arguments Throw {A} e.

(** [v || w] on strings-or-undefined: the empty string is falsy. *)
Definition truthy_string (s : jsstring) : bool :=
  match s with [] => false | _ => true end.

(** An ordinary object, as [{}] and [JSON.parse] create it: its own
    enumerable properties with string keys, in the order in which
    [Object.keys] and [Object.entries] list them, the keys distinct; its
    prototype is [Object.prototype]. *)
Definition object (V : Type) := list (jsstring * V).

Definition str_eqb (a b : jsstring) : bool :=
  if list_eq_dec N.eq_dec a b then true else false.

Definition keys {V} (o : object V) : list jsstring := map fst o.

(** The properties of [Object.prototype] (ECMA-262, 20.1.3 and B.2.2.1):
    [__proto__] is an accessor, the others are functions. *)
Definition Object_prototype : list jsstring :=
  map lit
    ["constructor"; "__defineGetter__"; "__defineSetter__"; "hasOwnProperty";
     "__lookupGetter__"; "__lookupSetter__"; "isPrototypeOf";
     "propertyIsEnumerable"; "toString"; "valueOf"; "__proto__";
     "toLocaleString"]%string.

Definition proto : jsstring := lit "__proto__".

(** What a property read [o[k]] yields. *)
Inductive property (V : Type) :=
| undefined
| own (v : V)
| inherited (name : jsstring).     (* the value that [Object.prototype] holds *)
Arguments undefined {V}.
Arguments own {V} v.
Arguments inherited {V} name.

Fixpoint own_property {V} (o : object V) (k : jsstring) : option V :=
  match o with
  | [] => None
  | (k', v) :: o' => if str_eqb k' k then Some v else own_property o' k
  end.

(** [o[k]]: the own property, else the one of the prototype, else
    [undefined]. *)
Definition get {V} (o : object V) (k : jsstring) : property V :=
  match own_property o k with
  | Some v => own v
  | None => if existsb (str_eqb k) Object_prototype then inherited k else undefined
  end.

(** [String(v)] for the value of an inherited property: the prototype object
    itself for [__proto__], a built-in function for the others, printed as V8
    prints it (every engine prints the parentheses, the braces and the
    brackets of the NativeFunction syntax, other engines with line breaks). *)
Definition inherited_text (name : jsstring) : jsstring :=
  if str_eqb name proto then lit "[object Object]"
  else
    lit "function "
    ++ (if str_eqb name (lit "constructor") then lit "Object" else name)
    ++ lit "() { [native code] }".

(** An array index: the canonical decimal text of an integer below 2^32 - 1.
    Such keys come first in an object, in numeric order. *)
Fixpoint decimal (acc : N) (s : jsstring) : option N :=
  match s with
  | [] => Some acc
  | c :: s' =>
      if (48 <=? c) && (c <=? 57) then decimal (10 * acc + (c - 48)) s' else None
  end.

Definition array_index (k : jsstring) : option N :=
  match k with
  | [] => None
  | c :: rest =>
      (* a leading zero is canonical in "0" only *)
      if (c =? 48) && negb (Nat.eqb (List.length rest) 0) then None
      else
        match decimal 0 k with
        | Some n => if n <=? 4294967294 then Some n else None
        | None => None
        end
  end.

(** A new property with an array index goes after the smaller indexes. *)
Fixpoint insert_index {V} (o : object V) (n : N) (k : jsstring) (v : V) : object V :=
  match o with
  | [] => [(k, v)]
  | (k', v') :: o' =>
      match array_index k' with
      | Some n' => if n' <? n then (k', v') :: insert_index o' n k v else (k, v) :: o
      | None => (k, v) :: o
      end
  end.

(** A new own property: an array index in its place, any other key last. *)
Definition create {V} (o : object V) (k : jsstring) (v : V) : object V :=
  match array_index k with
  | Some n => insert_index o n k v
  | None => o ++ [(k, v)]
  end.

Fixpoint overwrite {V} (o : object V) (k : jsstring) (v : V) : object V :=
  match o with
  | [] => []
  | (k', v') :: o' =>
      if str_eqb k' k then (k', v) :: o' else (k', v') :: overwrite o' k v
  end.

(** [o[k] = v] for a string [v].  An own property is overwritten.  Without
    one, the key [__proto__] reaches the setter that [Object.prototype]
    holds, which ignores a value that is neither an object nor null and
    stores nothing; every other key becomes a new own property (the inherited
    functions are writable data properties and do not stand in the way). *)
Definition set (o : object jsstring) (k : jsstring) (v : jsstring) : object jsstring :=
  match own_property o k with
  | Some _ => overwrite o k v
  | None => if str_eqb k proto then o else create o k v
  end.

(** [Uint8Array] element store: the value modulo 256. *)
Definition to_uint8 (n : N) : byte :=
  match Byte.of_N (n mod 256) with
  | Some b => b
  | None => x00
  end.

End JS.
Export JS.

(** ** [window.btoa] and [window.atob] (HTML standard, forgiving-base64) *)
Module Base64.

Definition alphabet : jsstring :=
  lit "ABCDEFGHIJKLMNOPQRSTUVWXYZabcdefghijklmnopqrstuvwxyz0123456789+/".

Definition pad : N := 61. (* '=' *)

(** The character of a 6-bit value. *)
Definition char_of (i : N) : N := nth (N.to_nat i) alphabet pad.

(** The 6-bit value of a character of the alphabet. *)
Fixpoint position (c : N) (l : list N) (i : N) : option N :=
  match l with
  | [] => None
  | x :: l' => if x =? c then Some i else position c l' (i + 1)
  end.

Definition index_of (c : N) : option N := position c alphabet 0.

(** Three bytes become four characters; a final group of one or two bytes is
    padded with '='. *)
Fixpoint encode (s : list N) : jsstring :=
  match s with
  | [] => []
  | [a] => [char_of (a / 4); char_of ((a mod 4) * 16); pad; pad]
  | [a; b] =>
      [char_of (a / 4); char_of ((a mod 4) * 16 + b / 16);
       char_of ((b mod 16) * 4); pad]
  | a :: b :: c :: rest =>
      char_of (a / 4) :: char_of ((a mod 4) * 16 + b / 16)
      :: char_of ((b mod 16) * 4 + c / 64) :: char_of (c mod 64)
      :: encode rest
  end.

(** [btoa(s)]: [None] is the InvalidCharacterError raised on a code unit
    above 0xFF. *)
Definition btoa (s : jsstring) : option jsstring :=
  if forallb (fun c => c <=? 255) s then Some (encode s) else None.

Definition is_ascii_whitespace (c : N) : bool :=
  (c =? 9) || (c =? 10) || (c =? 12) || (c =? 13) || (c =? 32).

(** One '=' off the front of the reversed string, if there is one. *)
Definition drop_pad (reversed : jsstring) : jsstring :=
  match reversed with
  | c :: r => if c =? pad then r else reversed
  | [] => []
  end.

(** When the length is a multiple of four, one or two trailing '=' go. *)
Definition remove_padding (s : jsstring) : jsstring :=
  if N.of_nat (List.length s) mod 4 =? 0
  then rev (drop_pad (drop_pad (rev s)))
  else s.

Fixpoint indices (s : jsstring) : option (list N) :=
  match s with
  | [] => Some []
  | c :: s' =>
      match index_of c, indices s' with
      | Some i, Some l => Some (i :: l)
      | _, _ => None
      end
  end.

(** 24 bits at a time; of a final 12 bits the last 4 are dropped, of a final
    18 bits the last 2. *)
Fixpoint decode (l : list N) : list N :=
  match l with
  | a :: b :: c :: d :: rest =>
      (a * 4 + b / 16) :: ((b mod 16) * 16 + c / 4) :: ((c mod 4) * 64 + d)
      :: decode rest
  | [a; b; c] => [a * 4 + b / 16; (b mod 16) * 16 + c / 4]
  | [a; b] => [a * 4 + b / 16]
  | _ => []
  end.

(** [atob(s)]: [None] is the InvalidCharacterError. *)
Definition atob (s : jsstring) : option jsstring :=
  let data := remove_padding (filter (fun c => negb (is_ascii_whitespace c)) s) in
  if N.of_nat (List.length data) mod 4 =? 1 then None
  else match indices data with
       | Some l => Some (decode l)
       | None => None
       end.

(** The shape of what [encode] produces, for the proofs: the characters of a
    list of 6-bit values, then [p] characters '='. *)
Inductive encoded : list N -> list N -> nat -> Prop :=
| enc_nil : encoded [] [] 0
| enc_one a : a <= 255 -> encoded [a] [a / 4; (a mod 4) * 16] 2
| enc_two a b :
    a <= 255 -> b <= 255 ->
    encoded [a; b] [a / 4; (a mod 4) * 16 + b / 16; (b mod 16) * 4] 1
| enc_three a b c rest idx p :
    a <= 255 -> b <= 255 -> c <= 255 ->
    encoded rest idx p ->
    encoded (a :: b :: c :: rest)
      (a / 4 :: (a mod 4) * 16 + b / 16 :: (b mod 16) * 4 + c / 64 :: c mod 64 :: idx) p.

End Base64.

(** ** The helpers of [lib/crypto.ts] *)
Module Helpers.

(** The base64 text of a buffer. *)
Definition base64_of (buffer : list byte) : jsstring :=
  Base64.encode (map Byte.to_N buffer).

(** [arrayBufferToBase64]: one [String.fromCharCode] per byte, then [btoa]. *)
Definition arrayBufferToBase64 (buffer : list byte) : completion jsstring :=
  let binary := map Byte.to_N buffer in
  match Base64.btoa binary with
  | Some s => Return s
  | None => Throw (DOMException InvalidCharacterError (btoa_of binary))
  end.

(** [base64ToArrayBuffer]: [atob], then one [charCodeAt] per character stored
    into a [Uint8Array]. *)
Definition base64ToArrayBuffer (base64 : jsstring) : completion (list byte) :=
  match Base64.atob base64 with
  | Some binary_string => Return (map to_uint8 binary_string)
  | None => Throw (DOMException InvalidCharacterError (atob_of base64))
  end.

End Helpers.

(** ** [TextEncoder] and [TextDecoder] (Encoding standard, UTF-8) *)
Module Encoding.

Definition is_lead_surrogate (c : N) : bool := (0xD800 <=? c) && (c <=? 0xDBFF).

Definition is_trail_surrogate (c : N) : bool := (0xDC00 <=? c) && (c <=? 0xDFFF).

(** [String.prototype.isWellFormed]: 16-bit units, every surrogate paired. *)
Fixpoint isWellFormed (s : jsstring) : bool :=
  match s with
  | [] => true
  | c :: r =>
      if is_lead_surrogate c then
        match r with
        | d :: r' => is_trail_surrogate d && isWellFormed r'
        | [] => false
        end
      else negb (is_trail_surrogate c) && (c <? 0x10000) && isWellFormed r
  end.

(** The code point of a surrogate pair. *)
Definition supplementary (c d : N) : N :=
  0x10000 + (c - 0xD800) * 0x400 + (d - 0xDC00).

(** Conversion of a string to scalar values: a surrogate pair is one code
    point, a lone surrogate is replaced by U+FFFD. *)
Fixpoint scalar_values (s : jsstring) : list N :=
  match s with
  | [] => []
  | c :: r =>
      if is_lead_surrogate c then
        match r with
        | d :: r' =>
            if is_trail_surrogate d
            then supplementary c d :: scalar_values r'
            else 0xFFFD :: scalar_values r
        | [] => [0xFFFD]
        end
      else if is_trail_surrogate c then 0xFFFD :: scalar_values r
      else c :: scalar_values r
  end.

(** Code points that are not surrogates. *)
Definition scalar_value (cp : N) : Prop :=
  cp <= 0x10FFFF /\ ~ (0xD800 <= cp <= 0xDFFF).

Definition continuation (cp : N) (shift : N) : byte :=
  to_uint8 (N.lor 0x80 (N.land (N.shiftr cp shift) 0x3F)).

(** The UTF-8 encoder on one scalar value. *)
Definition utf8_bytes (cp : N) : list byte :=
  if cp <=? 0x7F then [to_uint8 cp]
  else if cp <=? 0x7FF then
    [to_uint8 (N.shiftr cp 6 + 0xC0); continuation cp 0]
  else if cp <=? 0xFFFF then
    [to_uint8 (N.shiftr cp 12 + 0xE0); continuation cp 6; continuation cp 0]
  else
    [to_uint8 (N.shiftr cp 18 + 0xF0); continuation cp 12; continuation cp 6;
     continuation cp 0].

(** [new TextEncoder().encode(text)] *)
Definition TextEncoder_encode (text : jsstring) : list byte :=
  flat_map utf8_bytes (scalar_values text).

(** State of the UTF-8 decoder. *)
Record decoder := {
  code_point : N;
  bytes_seen : N;
  bytes_needed : N;
  lower_boundary : N;
  upper_boundary : N
}.

Definition initial : decoder :=
  {| code_point := 0; bytes_seen := 0; bytes_needed := 0;
     lower_boundary := 0x80; upper_boundary := 0xBF |}.

(** A byte read when no continuation byte is awaited. *)
Definition lead (b : N) : decoder * list N :=
  if b <=? 0x7F then (initial, [b])
  else if (0xC2 <=? b) && (b <=? 0xDF) then
    ({| code_point := N.land b 0x1F; bytes_seen := 0; bytes_needed := 1;
        lower_boundary := 0x80; upper_boundary := 0xBF |}, [])
  else if (0xE0 <=? b) && (b <=? 0xEF) then
    ({| code_point := N.land b 0xF; bytes_seen := 0; bytes_needed := 2;
        lower_boundary := if b =? 0xE0 then 0xA0 else 0x80;
        upper_boundary := if b =? 0xED then 0x9F else 0xBF |}, [])
  else if (0xF0 <=? b) && (b <=? 0xF4) then
    ({| code_point := N.land b 0x7; bytes_seen := 0; bytes_needed := 3;
        lower_boundary := if b =? 0xF0 then 0x90 else 0x80;
        upper_boundary := if b =? 0xF4 then 0x8F else 0xBF |}, [])
  else (initial, [0xFFFD]).

(** One byte.  A byte outside the awaited range ends the sequence with U+FFFD
    and is then read again as a first byte. *)
Definition step (d : decoder) (b : N) : decoder * list N :=
  if bytes_needed d =? 0 then lead b
  else if negb ((lower_boundary d <=? b) && (b <=? upper_boundary d)) then
    let (d', out) := lead b in (d', 0xFFFD :: out)
  else
    let cp := N.lor (N.shiftl (code_point d) 6) (N.land b 0x3F) in
    if bytes_seen d + 1 =? bytes_needed d then (initial, [cp])
    else ({| code_point := cp; bytes_seen := bytes_seen d + 1;
             bytes_needed := bytes_needed d;
             lower_boundary := 0x80; upper_boundary := 0xBF |}, []).

(** The whole input; a sequence cut short by the end of input is U+FFFD. *)
Fixpoint run (d : decoder) (bs : list byte) : list N :=
  match bs with
  | [] => if bytes_needed d =? 0 then [] else [0xFFFD]
  | b :: bs' => let (d', out) := step d (Byte.to_N b) in out ++ run d' bs'
  end.

(** A leading byte order mark EF BB BF is dropped ([ignoreBOM] is false). *)
Definition strip_bom (bs : list byte) : list byte :=
  match bs with
  | a :: b :: c :: r =>
      if (Byte.to_N a =? 0xEF) && (Byte.to_N b =? 0xBB) && (Byte.to_N c =? 0xBF)
      then r else bs
  | _ => bs
  end.

Definition utf16_units (cp : N) : jsstring :=
  if cp <? 0x10000 then [cp]
  else [0xD800 + (cp - 0x10000) / 0x400; 0xDC00 + (cp - 0x10000) mod 0x400].

(** [new TextDecoder().decode(buffer)] *)
Definition TextDecoder_decode (buffer : list byte) : jsstring :=
  flat_map utf16_units (run initial (strip_bom buffer)).

End Encoding.

(** ** The browser state and the monad of the asynchronous code *)
Module Effects.

(** Calls made to [window.crypto.subtle], in the order they are issued. *)
Inductive subtle_call :=
| GenerateKey (alg : algorithm)
| ExportKey
| ImportKey
| Encrypt (alg : algorithm)
| Decrypt (alg : algorithm).

(** The secure random source is a tape of bytes read front to back. *)
Record world := {
  entropy : nat -> byte;
  subtle_log : list subtle_call
}.

(** A computation reads and updates the world and completes normally or
    abruptly; [await] on a rejected promise is the abrupt completion. *)
Definition M (A : Type) := world -> completion A * world.

Definition ret {A} (a : A) : M A := fun w => (Return a, w).

Definition throw {A} (e : exn) : M A := fun w => (Throw e, w).

Definition bind {A B} (c : M A) (k : A -> M B) : M B :=
  fun w =>
    match c w with
    | (Return a, w') => k a w'
    | (Throw e, w') => (Throw e, w')
    end.

(** [try { c } catch (e) { h e }] *)
Definition try_catch {A} (c : M A) (h : exn -> M A) : M A :=
  fun w =>
    match c w with
    | (Return a, w') => (Return a, w')
    | (Throw e, w') => h e w'
    end.

(** A synchronous call that may throw. *)
Definition lift {A} (c : completion A) : M A := fun w => (c, w).

(** The next [n] bytes of the tape, and the world once they are consumed. *)
Definition next_bytes (n : nat) (w : world) : list byte :=
  map (entropy w) (seq 0 n).

Definition consumed (n : nat) (w : world) : world :=
  {| entropy := fun i => entropy w (n + i)%nat; subtle_log := subtle_log w |}.

Definition random_bytes (n : nat) : M (list byte) :=
  fun w => (Return (next_bytes n w), consumed n w).

(** The world once a call to [crypto.subtle] is issued. *)
Definition recorded (c : subtle_call) (w : world) : world :=
  {| entropy := entropy w; subtle_log := subtle_log w ++ [c] |}.

Definition log (c : subtle_call) : M unit :=
  fun w => (Return tt, recorded c w).

End Effects.
Export Effects.

Declare Scope js_scope.
Delimit Scope js_scope with js.
Notation "x <- c ;; k" := (bind c (fun x => k))
  (at level 61, c at next level, right associativity) : js_scope.
Notation "c ;;; k" := (bind c (fun _ => k))
  (at level 61, right associativity) : js_scope.

(** ** [lib/identity.ts] *)
Module Identity.
Local Open Scope js_scope.

Definition adjectives : list jsstring := map lit [
  "silent"; "hidden"; "shadow"; "swift"; "brave"; "calm"; "dark"; "bright";
  "frost"; "storm"; "iron"; "steel"; "night"; "dawn"; "ghost"; "noble";
  "wild"; "free"; "lone"; "stark"; "bold"; "keen"; "true"; "wise";
  "deep"; "high"; "cold"; "warm"; "quick"; "slow"; "old"; "young";
  "grey"; "blue"; "red"; "black"; "white"; "gold"; "silver"; "copper"
]%string.

Definition nouns : list jsstring := map lit [
  "wolf"; "hawk"; "raven"; "fox"; "bear"; "lion"; "tiger"; "eagle";
  "serpent"; "dragon"; "phoenix"; "falcon"; "panther"; "viper"; "cobra"; "owl";
  "shark"; "whale"; "storm"; "thunder"; "lightning"; "flame"; "frost"; "shadow";
  "knight"; "ranger"; "scout"; "guard"; "sentinel"; "warden"; "seeker"; "hunter";
  "cipher"; "ghost"; "phantom"; "spectre"; "wraith"; "shade"; "spirit"; "oracle"
]%string.

(** The element of a [Uint32Array] filled with four random bytes. *)
Definition uint32_of_bytes (bs : list byte) : N :=
  fold_right (fun b acc => Byte.to_N b + 256 * acc) 0 bs.

(** [getSecureRandomInt(max)]: [randomBuffer[0] % max], for [max > 0]. *)
Definition getSecureRandomInt (max : N) : M N :=
  randomBuffer <- random_bytes 4 ;;
  ret (uint32_of_bytes randomBuffer mod max).

(** [list[i]]; reading a property of [undefined] afterwards is a TypeError. *)
Definition index (l : list jsstring) (i : N) : M jsstring :=
  match nth_error l (N.to_nat i) with
  | Some s => ret s
  | None => throw TypeError
  end.

(** [String.prototype.toUpperCase] on the ASCII range, where the words of the
    two lists live. *)
Definition toUpperCase (s : jsstring) : jsstring :=
  map (fun c => if (97 <=? c) && (c <=? 122) then c - 32 else c) s.

Definition charAt0 (s : jsstring) : jsstring :=
  match s with [] => [] | c :: _ => [c] end.

Definition slice1 (s : jsstring) : jsstring := tl s.

(** Conversion of a non-negative integer [Number] to a string: its decimal
    digits. *)
Fixpoint digits (d : Decimal.uint) : jsstring :=
  match d with
  | Decimal.Nil => []
  | Decimal.D0 d => 48 :: digits d
  | Decimal.D1 d => 49 :: digits d
  | Decimal.D2 d => 50 :: digits d
  | Decimal.D3 d => 51 :: digits d
  | Decimal.D4 d => 52 :: digits d
  | Decimal.D5 d => 53 :: digits d
  | Decimal.D6 d => 54 :: digits d
  | Decimal.D7 d => 55 :: digits d
  | Decimal.D8 d => 56 :: digits d
  | Decimal.D9 d => 57 :: digits d
  end.

Definition Number_toString (n : N) : jsstring := digits (N.to_uint n).

Definition generateUsername : M jsstring :=
  i <- getSecureRandomInt (N.of_nat (List.length adjectives)) ;;
  adjective <- index adjectives i ;;
  j <- getSecureRandomInt (N.of_nat (List.length nouns)) ;;
  noun <- index nouns j ;;
  number <- getSecureRandomInt 1000 ;;
  let capitalizedAdjective := toUpperCase (charAt0 adjective) ++ slice1 adjective in
  let capitalizedNoun := toUpperCase (charAt0 noun) ++ slice1 noun in
  ret (capitalizedAdjective ++ capitalizedNoun ++ Number_toString number).

Record validation := { valid : bool; error : option jsstring }.

Definition is_letter (c : N) : bool :=
  ((97 <=? c) && (c <=? 122)) || ((65 <=? c) && (c <=? 90)).

Definition is_digit (c : N) : bool := (48 <=? c) && (c <=? 57).

(** The class [[a-zA-Z0-9_]]. *)
Definition word_char (c : N) : bool := is_letter c || is_digit c || (c =? 95).

(** [/^[a-zA-Z][a-zA-Z0-9_]*$/.test(s)] *)
Definition username_pattern (s : jsstring) : bool :=
  match s with
  | [] => false
  | c :: rest => is_letter c && forallb word_char rest
  end.

Definition validateUsername (username : jsstring) : validation :=
  if negb (truthy_string username) then
    {| valid := false; error := Some (lit "Username is required") |}
  else if N.of_nat (List.length username) <? 3 then
    {| valid := false; error := Some (lit "Username must be at least 3 characters") |}
  else if 30 <? N.of_nat (List.length username) then
    {| valid := false; error := Some (lit "Username must be 30 characters or less") |}
  else if negb (username_pattern username) then
    {| valid := false;
       error := Some (lit "Username must start with a letter and contain only letters, numbers, and underscores") |}
  else {| valid := true; error := None |}.

End Identity.

(** ** [lib/crypto.ts] *)
Module Crypto.
Import Helpers Encoding.
Local Open Scope js_scope.

(** The primitives behind [window.crypto.subtle], for the fixed parameters of
    the code: RSA-OAEP with a 2048-bit modulus and SHA-256, and AES-GCM.
    [PublicKey] and [PrivateKey] are the [CryptoKey]s that [generateKeyPair]
    and [importKey] produce; an AES key is its raw bytes.  [None] is the
    OperationError of a failed operation. *)
Class WebCrypto := {
  PublicKey : Type;
  PrivateKey : Type;
  (** the two halves of one generated pair *)
  key_pair : PublicKey -> PrivateKey -> Prop;
  (** public key, OAEP seed, message *)
  rsa_oaep_encrypt : PublicKey -> list byte -> list byte -> option (list byte);
  rsa_oaep_decrypt : PrivateKey -> list byte -> option (list byte);
  (** key, iv, data *)
  aes_gcm_encrypt : list byte -> list byte -> list byte -> list byte;
  aes_gcm_decrypt : list byte -> list byte -> list byte -> option (list byte)
}.

Section Code.
Context {wc : WebCrypto}.

(** [subtle.generateKey({ name: "AES-GCM", length: 256 }, true, ...)] *)
Definition generateKey_AES : M (list byte) :=
  log (GenerateKey AES_GCM) ;;; random_bytes 32.

(** [crypto.getRandomValues(new Uint8Array(n))] *)
Definition getRandomValues (n : nat) : M (list byte) := random_bytes n.

(** [subtle.encrypt({ name: "AES-GCM", iv }, key, data)] *)
Definition encrypt_AES (iv key data : list byte) : M (list byte) :=
  log (Encrypt AES_GCM) ;;; ret (aes_gcm_encrypt key iv data).

(** [subtle.exportKey("raw", key)] *)
Definition exportKey_raw (key : list byte) : M (list byte) :=
  log ExportKey ;;; ret key.

(** [subtle.encrypt({ name: "RSA-OAEP" }, publicKey, data)]; the padding
    draws a fresh 32-byte seed. *)
Definition encrypt_RSA (publicKey : PublicKey) (data : list byte) : M (list byte) :=
  log (Encrypt RSA_OAEP) ;;;
  seed <- random_bytes 32 ;;
  match rsa_oaep_encrypt publicKey seed data with
  | Some c => ret c
  | None => throw (DOMException OperationError (encrypt_of RSA_OAEP data))
  end.

(** [subtle.decrypt({ name: "RSA-OAEP" }, privateKey, data)] *)
Definition decrypt_RSA (privateKey : PrivateKey) (data : list byte) : M (list byte) :=
  log (Decrypt RSA_OAEP) ;;;
  match rsa_oaep_decrypt privateKey data with
  | Some m => ret m
  | None => throw (DOMException OperationError (decrypt_of RSA_OAEP data))
  end.

(** [subtle.importKey("raw", data, { name: "AES-GCM" }, false, ["decrypt"])]:
    a DataError unless the key has 128, 192 or 256 bits. *)
Definition importKey_raw (data : list byte) : M (list byte) :=
  log ImportKey ;;;
  let n := List.length data in
  if Nat.eqb n 16 || Nat.eqb n 24 || Nat.eqb n 32 then ret data
  else throw (DOMException DataError (importKey_of data)).

(** [subtle.decrypt({ name: "AES-GCM", iv }, key, data)] *)
Definition decrypt_AES (iv key data : list byte) : M (list byte) :=
  log (Decrypt AES_GCM) ;;;
  match aes_gcm_decrypt key iv data with
  | Some m => ret m
  | None => throw (DOMException OperationError (decrypt_of AES_GCM data))
  end.

Record envelope := {
  encryptedContent : jsstring;
  encryptedKeys : object jsstring;
  iv : jsstring
}.

(** The loop [for (const [userId, publicKey] of Object.entries(...))]. *)
Fixpoint wrap_each (entries : object PublicKey) (rawSessionKey : list byte)
    (encryptedKeys : object jsstring) : M (object jsstring) :=
  match entries with
  | [] => ret encryptedKeys
  | (userId, publicKey) :: rest =>
      encryptedKeyBuffer <- encrypt_RSA publicKey rawSessionKey ;;
      wrapped <- lift (arrayBufferToBase64 encryptedKeyBuffer) ;;
      wrap_each rest rawSessionKey (set encryptedKeys userId wrapped)
  end.

(** The session key and the nonce that a call of [encryptMessage] started in
    world [w] draws from the random source. *)
Definition session_key_of (w : world) : list byte := next_bytes 32 w.

Definition nonce_of (w : world) : list byte := next_bytes 12 (consumed 32 w).

(** The world in which [encryptMessage] starts wrapping: key generated, nonce
    drawn, content encrypted, key exported. *)
Definition wrapping_world (w : world) : world :=
  recorded ExportKey
    (recorded (Encrypt AES_GCM)
       (consumed 12 (consumed 32 (recorded (GenerateKey AES_GCM) w)))).

Definition encryptMessage (text : jsstring) (recipientPublicKeys : object PublicKey)
    : M envelope :=
  let encodedText := TextEncoder_encode text in
  sessionKey <- generateKey_AES ;;
  iv <- getRandomValues 12 ;;
  encryptedContentBuffer <- encrypt_AES iv sessionKey encodedText ;;
  rawSessionKey <- exportKey_raw sessionKey ;;
  encryptedKeys <- wrap_each recipientPublicKeys rawSessionKey [] ;;
  content <- lift (arrayBufferToBase64 encryptedContentBuffer) ;;
  iv64 <- lift (arrayBufferToBase64 iv) ;;
  ret {| encryptedContent := content; encryptedKeys := encryptedKeys; iv := iv64 |}.

(** [Record<string, string> | string] *)
Inductive keys_field :=
| Legacy (wrapped : jsstring)
| KeyMap (wrapped : object jsstring).

Definition no_key_error (userId : jsstring) : exn :=
  Error (lit "No encrypted key found for user " ++ userId).

(** The first block of [decryptMessage]: which wrapped key to open.  The
    value goes to [atob] only, which takes the text of what it is given: an
    inherited value, which is truthy, is passed on as its text. *)
Definition encryptedKeyStr (encryptedKeys : keys_field) (userId : jsstring)
    : completion jsstring :=
  match encryptedKeys with
  | Legacy s => Return s
  | KeyMap m =>
      match get m userId with
      | own s => if truthy_string s then Return s else Throw (no_key_error userId)
      | inherited name => Return (inherited_text name)
      | undefined => Throw (no_key_error userId)
      end
  end.

Definition decryptMessage (encryptedContent : jsstring) (encryptedKeys : keys_field)
    (iv : jsstring) (privateKey : PrivateKey) (userId : jsstring) : M jsstring :=
  keyStr <- lift (encryptedKeyStr encryptedKeys userId) ;;
  wrapped <- lift (base64ToArrayBuffer keyStr) ;;
  rawSessionKey <- decrypt_RSA privateKey wrapped ;;
  sessionKey <- importKey_raw rawSessionKey ;;
  ivBytes <- lift (base64ToArrayBuffer iv) ;;
  contentBytes <- lift (base64ToArrayBuffer encryptedContent) ;;
  decryptedBuffer <- decrypt_AES ivBytes sessionKey contentBytes ;;
  ret (TextDecoder_decode decryptedBuffer).

End Code.

(** What the Web Crypto API guarantees of the primitives: a valid key
    encrypts, and the matching key decrypts to what was encrypted. *)
Class Lawful (wc : WebCrypto) : Prop := {
  (** a 2048-bit key with SHA-256 takes messages of up to 190 bytes *)
  rsa_encrypts : forall pk seed m,
    List.length seed = 32%nat -> (List.length m <= 190)%nat ->
    rsa_oaep_encrypt pk seed m <> None;
  (** the ciphertext has the length of the modulus, it is not empty *)
  rsa_nonempty : forall pk seed m c,
    rsa_oaep_encrypt pk seed m = Some c -> c <> [];
  rsa_decrypts : forall pk sk seed m c,
    key_pair pk sk -> rsa_oaep_encrypt pk seed m = Some c ->
    rsa_oaep_decrypt sk c = Some m;
  aes_decrypts : forall key iv data,
    List.length key = 32%nat ->
    aes_gcm_decrypt key iv (aes_gcm_encrypt key iv data) = Some data
}.

(** AES-GCM opens what it sealed with a key of any of the three sizes that
    [importKey] accepts. *)
Class LawfulKeySizes (wc : WebCrypto) : Prop := {
  aes_decrypts_any : forall key iv data,
    List.length key = 16%nat \/ List.length key = 24%nat \/ List.length key = 32%nat ->
    aes_gcm_decrypt key iv (aes_gcm_encrypt key iv data) = Some data
}.

End Crypto.

(** ** The batch decryption of [context/ChatContext.tsx] *)
Module Chat.
Import Crypto.
Local Open Scope js_scope.

(** What [JSON.parse] returns; a number is the double it denotes. *)
#[warnings="-register-all"]
Inductive json :=
| JNull
| JBoolean (b : bool)
| JNumber (value : spec_float)
| JString (s : jsstring)
| JArray (items : list json)
| JObject (properties : object json).

(** [ToBoolean] of what a property read of the parsed content yields:
    [undefined], [null], [false], zero, NaN and the empty string are falsy,
    every object is truthy, an inherited function too. *)
Definition truthy (v : property json) : bool :=
  match v with
  | undefined => false
  | inherited _ => true
  | own JNull => false
  | own (JBoolean b) => b
  | own (JNumber (S754_zero _)) => false
  | own (JNumber S754_nan) => false
  | own (JNumber _) => true
  | own (JString s) => truthy_string s
  | own (JArray _) => true
  | own (JObject _) => true
  end.

Inductive ContentType := Text | Image | File.

Inductive Status := Sent | Delivered | Read.

(** [types/index.ts], [Message] *)
Record Message := {
  id : jsstring;
  conversation_id : jsstring;
  sender_id : jsstring;
  content : jsstring;
  content_type : ContentType;
  status : Status;
  reply_to_id : option jsstring;
  expires_at : option jsstring;
  created_at : jsstring;
  is_mine : option bool;
  decryptedContent : option jsstring
}.

(** [{ ...msg, decryptedContent: t, is_mine: mine }] *)
Definition with_decrypted (msg : Message) (t : jsstring) (mine : bool) : Message :=
  {| id := id msg;
     conversation_id := conversation_id msg;
     sender_id := sender_id msg;
     content := content msg;
     content_type := content_type msg;
     status := status msg;
     reply_to_id := reply_to_id msg;
     expires_at := expires_at msg;
     created_at := created_at msg;
     is_mine := Some mine;
     decryptedContent := Some t |}.

(** The placeholder: U+26A0 U+FE0F and the words. *)
Definition decryption_failed : jsstring :=
  [0x26A0; 0xFE0F] ++ lit " Decryption Failed".

(** [msg.sender_id === user?.id] *)
Definition mine (msg : Message) (user : option jsstring) : bool :=
  match user with
  | Some uid => str_eqb (sender_id msg) uid
  | None => false
  end.

(** [user?.id || ""] *)
Definition user_id (user : option jsstring) : jsstring :=
  match user with
  | Some uid => uid
  | None => []
  end.

Definition as_string (v : property json) : option jsstring :=
  match v with
  | own (JString s) => Some s
  | _ => None
  end.

Fixpoint as_string_record (o : object json) : option (object jsstring) :=
  match o with
  | [] => Some []
  | (k, JString s) :: o' =>
      match as_string_record o' with
      | Some m => Some ((k, s) :: m)
      | None => None
      end
  | _ => None
  end.

(** [parsedContent.encryptedKeys || parsedContent.encryptedKey] at the type
    [Record<string, string> | string]. *)
Definition keys_argument (o : object json) : option keys_field :=
  let chosen :=
    if truthy (get o (lit "encryptedKeys")) then get o (lit "encryptedKeys")
    else get o (lit "encryptedKey") in
  match chosen with
  | own (JString s) => Some (Legacy s)
  | own (JObject m) =>
      match as_string_record m with
      | Some r => Some (KeyMap r)
      | None => None
      end
  | _ => None
  end.

(** The three arguments taken from the parsed content, when they have the
    types that [decryptMessage] declares. *)
Definition arguments (parsedContent : json) : option (jsstring * keys_field * jsstring) :=
  match parsedContent with
  | JObject o =>
      match as_string (get o (lit "encryptedContent")),
            keys_argument o,
            as_string (get o (lit "iv")) with
      | Some c, Some k, Some i => Some (c, k, i)
      | _, _, _ => None
      end
  | _ => None
  end.

(** What [JSON.parse] makes of the text that [JSON.stringify] gives for an
    envelope, as [sendMessage] stores it. *)
Definition stored_form (env : envelope) : json :=
  JObject
    [(lit "encryptedContent", JString (encryptedContent env));
     (lit "encryptedKeys",
      JObject (map (fun kv => (fst kv, JString (snd kv))) (encryptedKeys env)));
     (lit "iv", JString (iv env))].

Section Batch.
Context {wc : WebCrypto}.

(** [JSON.parse]; [None] is its SyntaxError. *)
Variable JSON_parse : jsstring -> option json.

(** The completion of the call when the parsed content does not have the
    declared types (JavaScript then coerces or throws a TypeError): left
    open, the batch behaves the same whatever it is. *)
Variable decryptMessage_untyped : json -> PrivateKey -> jsstring -> completion jsstring.

(** The body of the [try]: parse, then decrypt. *)
Definition decryptedText (privateKey : PrivateKey) (user : option jsstring)
    (msg : Message) : M jsstring :=
  parsedContent <-
    lift (match JSON_parse (content msg) with
          | Some v => Return v
          | None => Throw SyntaxError
          end) ;;
  match arguments parsedContent with
  | Some (c, k, i) => decryptMessage c k i privateKey (user_id user)
  | None => lift (decryptMessage_untyped parsedContent privateKey (user_id user))
  end.

(** The callback of [data.map]: [try { ... } catch (e) { ... }]. *)
Definition decryptStored (privateKey : PrivateKey) (user : option jsstring)
    (msg : Message) : M Message :=
  try_catch
    (t <- decryptedText privateKey user msg ;;
     ret (with_decrypted msg t (mine msg user)))
    (fun _ => ret (with_decrypted msg decryption_failed (mine msg user))).

(** [Promise.all]: the values in order, or the first rejection. *)
Fixpoint Promise_all {A} (promises : list (M A)) : M (list A) :=
  match promises with
  | [] => ret []
  | p :: rest =>
      a <- p ;;
      l <- Promise_all rest ;;
      ret (a :: l)
  end.

(** [await Promise.all(data.map(async (msg) => ...))] in [fetchMessages]. *)
Definition decryptedMessages (privateKey : PrivateKey) (user : option jsstring)
    (data : list Message) : M (list Message) :=
  Promise_all (map (decryptStored privateKey user) data).

End Batch.

End Chat.

(** ** AES (FIPS 197), on bytes as numbers below 256 *)
Module AES.

(** Multiplication by x in GF(2^8), modulo x^8 + x^4 + x^3 + x + 1. *)
Definition xtime (a : N) : N :=
  let b := 2 * a in
  if 256 <=? b then N.lxor b 0x11B else b.

Fixpoint multiply (bits : nat) (a b : N) : N :=
  match bits with
  | O => 0
  | S bits' => N.lxor (if N.odd b then a else 0) (multiply bits' (xtime a) (N.div2 b))
  end.

Definition mul (a b : N) : N := multiply 8 a b.

(** The multiplicative inverse, 0 for 0: the 254th power. *)
Definition inverse (a : N) : N :=
  let a2 := mul a a in
  let a4 := mul a2 a2 in
  let a8 := mul a4 a4 in
  let a16 := mul a8 a8 in
  let a32 := mul a16 a16 in
  let a64 := mul a32 a32 in
  let a128 := mul a64 a64 in
  mul a128 (mul a64 (mul a32 (mul a16 (mul a8 (mul a4 a2))))).

Definition rotl8 (a k : N) : N :=
  (N.lor (N.shiftl a k) (N.shiftr a (8 - k))) mod 256.

(** The S-box: the inverse followed by the affine map. *)
Definition affine (b : N) : N :=
  N.lxor (N.lxor (N.lxor (N.lxor (N.lxor b (rotl8 b 1)) (rotl8 b 2)) (rotl8 b 3))
            (rotl8 b 4)) 0x63.

Definition sbox : list N :=
  Eval vm_compute in map (fun i => affine (inverse (N.of_nat i))) (seq 0 256).

Definition SubByte (a : N) : N := nth (N.to_nat a) sbox 0.

Definition xor_bytes (a b : list N) : list N :=
  map (fun p => N.lxor (fst p) (snd p)) (combine a b).

Definition SubWord (w : list N) : list N := map SubByte w.

Definition RotWord (w : list N) : list N :=
  match w with
  | a :: rest => rest ++ [a]
  | [] => []
  end.

(** Consecutive pieces of [size] elements; the last may be shorter. *)
Fixpoint pieces_loop {A} (fuel size : nat) (l : list A) : list (list A) :=
  match fuel, l with
  | S fuel', _ :: _ => firstn size l :: pieces_loop fuel' size (skipn size l)
  | _, _ => []
  end.

Definition pieces {A} (size : nat) (l : list A) : list (list A) :=
  pieces_loop (List.length l) size l.

(** Key expansion: word [i] from words [i - 1] and [i - Nk]. *)
Fixpoint expand (count Nk i : nat) (rcon : N) (w : list (list N)) : list (list N) :=
  match count with
  | O => w
  | S count' =>
      let temp := nth (i - 1)%nat w [] in
      let first := Nat.eqb (Nat.modulo i Nk) 0 in
      let temp' :=
        if first then xor_bytes (SubWord (RotWord temp)) [rcon; 0; 0; 0]
        else if Nat.ltb 6 Nk && Nat.eqb (Nat.modulo i Nk) 4 then SubWord temp
        else temp in
      expand count' Nk (S i) (if first then xtime rcon else rcon)
        (w ++ [xor_bytes (nth (i - Nk)%nat w []) temp'])
  end.

(** The round keys of a key of Nk words: Nk + 7 of them. *)
Definition KeyExpansion (key : list N) : list (list N) :=
  let Nk := Nat.div (List.length key) 4 in
  let words := expand (4 * (Nk + 7) - Nk)%nat Nk Nk 1 (pieces 4 key) in
  map (@List.concat N) (pieces 4 words).

Definition SubBytes (s : list N) : list N := map SubByte s.

(** The state is stored column by column: byte [4 c + r] is row r, column c. *)
Definition ShiftRows (s : list N) : list N :=
  map (fun i => nth (4 * Nat.modulo (Nat.div i 4 + Nat.modulo i 4) 4 + Nat.modulo i 4)%nat s 0)
    (seq 0 16).

Definition mix_column (c : list N) : list N :=
  match c with
  | [a0; a1; a2; a3] =>
      [N.lxor (N.lxor (mul 2 a0) (mul 3 a1)) (N.lxor a2 a3);
       N.lxor (N.lxor a0 (mul 2 a1)) (N.lxor (mul 3 a2) a3);
       N.lxor (N.lxor a0 a1) (N.lxor (mul 2 a2) (mul 3 a3));
       N.lxor (N.lxor (mul 3 a0) a1) (N.lxor a2 (mul 2 a3))]
  | _ => c
  end.

Definition MixColumns (s : list N) : list N :=
  List.concat (map mix_column (pieces 4 s)).

Fixpoint rounds (s : list N) (keys : list (list N)) : list N :=
  match keys with
  | [] => s
  | [last] => xor_bytes (ShiftRows (SubBytes s)) last
  | k :: rest => rounds (xor_bytes (MixColumns (ShiftRows (SubBytes s))) k) rest
  end.

Definition Cipher (key block : list N) : list N :=
  match KeyExpansion key with
  | k0 :: rest => rounds (xor_bytes block k0) rest
  | [] => block
  end.

End AES.

(** ** Galois/Counter Mode (NIST SP 800-38D) with a 128-bit tag and no
    additional data, as [crypto.subtle] runs it for [{ name: "AES-GCM", iv }] *)
Module GCM.

Definition number (bs : list N) : N := fold_left (fun acc b => 256 * acc + b) bs 0.

Fixpoint bytes (n : nat) (x : N) : list N :=
  match n with
  | O => []
  | S n' => bytes n' (x / 256) ++ [x mod 256]
  end.

Definition R : N := N.shiftl 0xE1 120.

(** The product of two blocks; bit 0 of a block is its leftmost bit. *)
Fixpoint product (bits : nat) (x z v : N) : N :=
  match bits with
  | O => z
  | S bits' =>
      product bits' x
        (if N.testbit x (N.of_nat bits') then N.lxor z v else z)
        (if N.odd v then N.lxor (N.shiftr v 1) R else N.shiftr v 1)
  end.

Definition mul (x y : N) : N := product 128 x 0 y.

Definition pad (l : list N) : list N :=
  l ++ repeat 0 (Nat.modulo (16 - Nat.modulo (List.length l) 16) 16).

Definition GHASH (H : N) (data : list N) : N :=
  fold_left (fun y block => mul (N.lxor y (number block)) H) (AES.pieces 16 data) 0.

Definition inc32 (block : list N) : list N :=
  firstn 12 block ++ bytes 4 ((number (skipn 12 block) + 1) mod 2 ^ 32).

Fixpoint GCTR_loop (key counter : list N) (blocks : list (list N)) : list N :=
  match blocks with
  | [] => []
  | block :: rest =>
      AES.xor_bytes block (AES.Cipher key counter) ++ GCTR_loop key (inc32 counter) rest
  end.

Definition GCTR (key counter data : list N) : list N :=
  GCTR_loop key counter (AES.pieces 16 data).

Definition hash_key (key : list N) : N := number (AES.Cipher key (repeat 0 16%nat)).

Definition J0 (key iv : list N) : list N :=
  if Nat.eqb (List.length iv) 12 then iv ++ [0; 0; 0; 1]
  else bytes 16 (GHASH (hash_key key)
                   (pad iv ++ repeat 0 8%nat ++ bytes 8 (8 * N.of_nat (List.length iv)))).

Definition tag (key iv ciphertext : list N) : list N :=
  let S := GHASH (hash_key key)
             (pad ciphertext ++ bytes 8 0 ++ bytes 8 (8 * N.of_nat (List.length ciphertext))) in
  GCTR key (J0 key iv) (bytes 16 S).

Definition encrypt (key iv plaintext : list N) : list N :=
  let C := GCTR key (inc32 (J0 key iv)) plaintext in
  C ++ tag key iv C.

Definition decrypt (key iv data : list N) : option (list N) :=
  let n := List.length data in
  if Nat.ltb n 16 then None
  else
    let C := firstn (n - 16) data in
    let T := skipn (n - 16) data in
    if list_eq_dec N.eq_dec T (tag key iv C) then Some (GCTR key (inc32 (J0 key iv)) C)
    else None.

End GCM.

(** ** A small instance of the primitives, to run the code on examples *)
Module Toy.
Import Crypto.

Fixpoint bytes_eqb (a b : list byte) : bool :=
  match a, b with
  | [], [] => true
  | x :: a', y :: b' => Byte.eqb x y && bytes_eqb a' b'
  | _, _ => false
  end.

(** A key pair is one byte twice; wrapping prefixes the key byte; the cipher
    prefixes key and nonce.  The laws hold, the secrecy of course does not. *)
#[global] Instance toy : WebCrypto := {|
  PublicKey := byte;
  PrivateKey := byte;
  key_pair := fun pk sk => pk = sk;
  rsa_oaep_encrypt := fun pk seed m =>
    if Nat.leb (List.length m) 190 then Some (pk :: m) else None;
  rsa_oaep_decrypt := fun sk c =>
    match c with
    | b :: m => if Byte.eqb b sk then Some m else None
    | [] => None
    end;
  aes_gcm_encrypt := fun key iv data => key ++ iv ++ data;
  aes_gcm_decrypt := fun key iv c =>
    let n := (List.length key + List.length iv)%nat in
    if bytes_eqb (firstn n c) (key ++ iv) then Some (skipn n c) else None
|}.

(** The toy key wrapping beside the cipher that the platform runs, AES-GCM
    itself. *)
Definition with_aes_gcm : WebCrypto := {|
  PublicKey := byte;
  PrivateKey := byte;
  key_pair := fun pk sk => pk = sk;
  rsa_oaep_encrypt := fun pk seed m =>
    if Nat.leb (List.length m) 190 then Some (pk :: m) else None;
  rsa_oaep_decrypt := fun sk c =>
    match c with
    | b :: m => if Byte.eqb b sk then Some m else None
    | [] => None
    end;
  aes_gcm_encrypt := fun key iv data =>
    map to_uint8
      (GCM.encrypt (map Byte.to_N key) (map Byte.to_N iv) (map Byte.to_N data));
  aes_gcm_decrypt := fun key iv data =>
    option_map (map to_uint8)
      (GCM.decrypt (map Byte.to_N key) (map Byte.to_N iv) (map Byte.to_N data))
|}.

(** Bytes written in hexadecimal. *)
Definition hex_digit (c : ascii) : N :=
  let n := N_of_ascii c in
  if (48 <=? n) && (n <=? 57) then n - 48 else n - 87.

Fixpoint hex_bytes (s : list ascii) : list byte :=
  match s with
  | a :: b :: rest => to_uint8 (16 * hex_digit a + hex_digit b) :: hex_bytes rest
  | _ => []
  end.

Definition hex (s : string) : list byte := hex_bytes (list_ascii_of_string s).

(** A world whose random source yields the given bytes, then zeros. *)
Definition tape (bytes : list byte) : world :=
  {| entropy := fun i => nth i bytes x00; subtle_log := [] |}.

(** The text of a base64 field once the last byte it stands for is changed. *)
Definition tampered (field : jsstring) : jsstring :=
  match Helpers.base64ToArrayBuffer field with
  | Return bytes =>
      Helpers.base64_of
        (removelast bytes ++ [to_uint8 (N.lxor (Byte.to_N (last bytes x00)) 1)])
  | Throw _ => field
  end.

(** A world whose random tape counts 0, 1, 2, ... *)
Definition counting : world :=
  {| entropy := fun i => to_uint8 (N.of_nat i); subtle_log := [] |}.

Definition alice : jsstring := lit "alice".
Definition bob : jsstring := lit "bob".
Definition carol : jsstring := lit "carol".

Definition recipients : object byte := [(alice, x0a); (bob, x0b)].

(** The parsed form of the envelope of "hello" for alice and bob, and a
    [JSON.parse] that knows this one text and rejects every other. *)
Definition hello_json : Chat.json :=
  match fst (encryptMessage (lit "hello") recipients counting) with
  | Return env => Chat.stored_form env
  | Throw _ => Chat.JNull
  end.

Definition JSON_parse (s : jsstring) : option Chat.json :=
  if str_eqb s (lit "<hello>") then Some hello_json else None.

Definition message (sender content : jsstring) : Chat.Message :=
  {| Chat.id := lit "m";
     Chat.conversation_id := lit "c";
     Chat.sender_id := sender;
     Chat.content := content;
     Chat.content_type := Chat.Text;
     Chat.status := Chat.Sent;
     Chat.reply_to_id := None;
     Chat.expires_at := None;
     Chat.created_at := lit "2024-01-01";
     Chat.is_mine := None;
     Chat.decryptedContent := None |}.

End Toy.

(** ** [lib/crypto.ts], the files: [encryptFile] and [decryptFile] *)
Module Files.
Import Crypto Helpers.
Local Open Scope js_scope.

Section Code.
Context {wc : WebCrypto}.

(** What [encryptFile] resolves to; a [Blob] is its bytes. *)
Record encrypted_file := {
  encryptedBlob : list byte;
  key : jsstring;
  iv : jsstring
}.

Definition encryptFile (file : list byte) : M encrypted_file :=
  let fileBuffer := file in
  sessionKey <- generateKey_AES ;;
  iv <- getRandomValues 12 ;;
  encryptedBuffer <- encrypt_AES iv sessionKey fileBuffer ;;
  rawSessionKey <- exportKey_raw sessionKey ;;
  key64 <- lift (arrayBufferToBase64 rawSessionKey) ;;
  iv64 <- lift (arrayBufferToBase64 iv) ;;
  ret {| encryptedBlob := encryptedBuffer; key := key64; iv := iv64 |}.

Definition decryptFile (encryptedBlob : list byte) (keyStr ivStr : jsstring)
    : M (list byte) :=
  let encryptedBuffer := encryptedBlob in
  keyBytes <- lift (base64ToArrayBuffer keyStr) ;;
  sessionKey <- importKey_raw keyBytes ;;
  ivBytes <- lift (base64ToArrayBuffer ivStr) ;;
  decryptedBuffer <- decrypt_AES ivBytes sessionKey encryptedBuffer ;;
  ret decryptedBuffer.

End Code.

End Files.

(** ** [lib/identity.ts], the rest: suggestions, recovery key, pseudo-email *)
Module Account.
Import Identity.
Local Open Scope js_scope.

(** [seen.has(x)] on a [Set<string>], kept as the list of its elements. *)
Definition has (seen : list jsstring) (x : jsstring) : bool :=
  existsb (str_eqb x) seen.

(** The loop of [generateUsernameSuggestions].  It runs as long as the array is
    shorter than [count]; [fuel] bounds the number of iterations followed, and
    [None] says that the loop was still running when the fuel ran out. *)
Fixpoint suggestions_loop (fuel : nat) (count : Z)
    (suggestions seen : list jsstring) : M (option (list jsstring)) :=
  if (Z.of_nat (List.length suggestions) <? count)%Z then
    match fuel with
    | O => ret None
    | S fuel' =>
        username <- generateUsername ;;
        if negb (has seen username)
        then suggestions_loop fuel' count (suggestions ++ [username]) (username :: seen)
        else suggestions_loop fuel' count suggestions seen
    end
  else ret (Some suggestions).

(** [generateUsernameSuggestions(count)], for a [count] that is an integer
    (the callers pass 4 and the default is 5). *)
Definition generateUsernameSuggestions (fuel : nat) (count : Z)
    : M (option (list jsstring)) :=
  suggestions_loop fuel count [] [].

(** Every username that [generateUsername] can build. *)
Definition username_space : list jsstring :=
  flat_map (fun adjective =>
    flat_map (fun noun =>
      map (fun number =>
             (toUpperCase (charAt0 adjective) ++ slice1 adjective)
             ++ (toUpperCase (charAt0 noun) ++ slice1 noun)
             ++ Number_toString (N.of_nat number))
          (seq 0 1000))
      nouns)
    adjectives.

Definition chars : jsstring := lit "ABCDEFGHJKLMNPQRSTUVWXYZ23456789".

(** [s[i]] in a string concatenation: a one-character string, or the text of
    [undefined]. *)
Definition char_at (s : jsstring) (i : N) : jsstring :=
  match nth_error s (N.to_nat i) with
  | Some c => [c]
  | None => lit "undefined"
  end.

(** The inner loop: [charsPerSegment] characters appended to [segment]. *)
Fixpoint segment_loop (n : nat) (segment : jsstring) : M jsstring :=
  match n with
  | O => ret segment
  | S n' =>
      i <- getSecureRandomInt (N.of_nat (List.length chars)) ;;
      segment_loop n' (segment ++ char_at chars i)
  end.

(** The outer loop: [segments] segments pushed onto [parts]. *)
Fixpoint parts_loop (n : nat) (parts : list jsstring) : M (list jsstring) :=
  match n with
  | O => ret parts
  | S n' =>
      segment <- segment_loop 4 [] ;;
      parts_loop n' (parts ++ [segment])
  end.

(** [parts.join(sep)] *)
Fixpoint join (sep : jsstring) (parts : list jsstring) : jsstring :=
  match parts with
  | [] => []
  | [p] => p
  | p :: rest => p ++ sep ++ join sep rest
  end.

Definition generateRecoveryKey : M jsstring :=
  parts <- parts_loop 5 [] ;;
  ret (join (lit "-") parts).

(** [String.prototype.toLowerCase], as it acts on ASCII text: the 26 capital
    letters are mapped, every other ASCII character is kept.  Code units
    above 127 are kept too, which is not the lower case of the cased letters
    among them; the properties below take usernames that pass
    [validateUsername], which are ASCII. *)
Definition toLowerCase (s : jsstring) : jsstring :=
  map (fun c => if (65 <=? c) && (c <=? 90) then c + 32 else c) s.

Definition haven : jsstring := lit "@haven.anonymous".

Definition usernameToPseudoEmail (username : jsstring) : jsstring :=
  toLowerCase username ++ haven.

(** [s.startsWith(p)] and [s.endsWith(p)] *)
Fixpoint startsWith (s p : jsstring) : bool :=
  match p, s with
  | [], _ => true
  | c :: p', d :: s' => (c =? d) && startsWith s' p'
  | _ :: _, [] => false
  end.

Definition endsWith (s p : jsstring) : bool := startsWith (rev s) (rev p).

(** [s.replace(p, r)] for a string pattern [p] and a replacement without
    dollar sign (the code replaces by the empty string): the first
    occurrence only. *)
Fixpoint replace (s p r : jsstring) : jsstring :=
  if startsWith s p then r ++ skipn (List.length p) s
  else match s with
       | [] => []
       | c :: s' => c :: replace s' p r
       end.

Definition pseudoEmailToUsername (email : jsstring) : jsstring :=
  if endsWith email haven then replace email haven [] else email.

Definition isHavenPseudoEmail (email : jsstring) : bool := endsWith email haven.

End Account.

(** ** [lib/password.ts] *)
Module Password.
Import Account.

Record PasswordRequirement := { id : jsstring; label : jsstring; met : bool }.

(** [/[...]/.test(s)] for a character class: some code unit is in the class. *)
Definition test (class : N -> bool) (s : jsstring) : bool := existsb class s.

Definition a_z (c : N) : bool := (97 <=? c) && (c <=? 122).

Definition A_Z (c : N) : bool := (65 <=? c) && (c <=? 90).

(** [\d] *)
Definition d (c : N) : bool := (48 <=? c) && (c <=? 57).

(** The class of the fifth requirement; 34 is the double quote. *)
Definition special_class : jsstring :=
  lit "!@#$%^&*()_+-=[]{};':" ++ [34] ++ lit "\|,.<>/?".

Definition special (c : N) : bool := existsb (N.eqb c) special_class.

Definition checkPasswordRequirements (password : jsstring) : list PasswordRequirement :=
  [ {| id := lit "length";
       label := lit "At least 12 characters";
       met := 12 <=? N.of_nat (List.length password) |};
    {| id := lit "lowercase";
       label := lit "One lowercase letter";
       met := test a_z password |};
    {| id := lit "uppercase";
       label := lit "One uppercase letter";
       met := test A_Z password |};
    {| id := lit "number";
       label := lit "One number";
       met := test d password |};
    {| id := lit "special";
       label := lit "One special character";
       met := test special password |} ].

Definition metCount (requirements : list PasswordRequirement) : N :=
  N.of_nat (List.length (filter met requirements)).

(** Matching without the flag [u] and with the flag [i]: a pattern letter
    matches the two ASCII letters of its case pair and nothing else. *)
Definition upper (c : N) : N := if a_z c then c - 32 else c.

Fixpoint starts_with_ignoring_case (s p : jsstring) : bool :=
  match p, s with
  | [], _ => true
  | c :: p', x :: s' => (upper c =? upper x) && starts_with_ignoring_case s' p'
  | _ :: _, [] => false
  end.

(** [.] matches every code unit but the line terminators. *)
Definition dot (c : N) : bool :=
  negb ((c =? 10) || (c =? 13) || (c =? 0x2028) || (c =? 0x2029)).

(** [/(.)\1{2,}/]: some code unit three times in a row. *)
Fixpoint repeated (s : jsstring) : bool :=
  match s with
  | a :: ((b :: c :: _) as rest) => (dot a && (a =? b) && (a =? c)) || repeated rest
  | _ => false
  end.

Definition commonPatterns : list (jsstring -> bool) :=
  [ (fun s => startsWith s (lit "123456"));
    (fun s => starts_with_ignoring_case s (lit "password"));
    (fun s => starts_with_ignoring_case s (lit "qwerty"));
    (fun s => starts_with_ignoring_case s (lit "abc123"));
    repeated ].

Inductive Label := weak | fair | good | strong | excellent.

Record PasswordStrength := {
  score : N;
  strength_label : Label;
  color : jsstring;
  feedback : list jsstring
}.

Definition strengthMap (score : N) : Label * jsstring :=
  if score =? 0 then (weak, lit "bg-error")
  else if score =? 1 then (fair, lit "bg-warning")
  else if score =? 2 then (good, lit "bg-info")
  else if score =? 3 then (strong, lit "bg-success")
  else (excellent, lit "bg-success").

Definition calculatePasswordStrength (password : jsstring) : PasswordStrength :=
  let requirements := checkPasswordRequirements password in
  let metCount := metCount requirements in
  let length := N.of_nat (List.length password) in
  let feedback :=
    map (fun req => lit "Add " ++ toLowerCase (label req))
      (filter (fun req => negb (met req)) requirements) in
  let feedback :=
    if length <? 8 then lit "Password is too short" :: feedback else feedback in
  let feedback :=
    if existsb (fun pattern => pattern password) commonPatterns
    then feedback ++ [lit "Avoid common patterns"] else feedback in
  let score := 0 in
  let score := if 8 <=? length then score + 1 else score in
  let score := if 12 <=? length then score + 1 else score in
  let score := if 3 <=? metCount then score + 1 else score in
  let score := if 5 <=? metCount then score + 1 else score in
  let score := if (16 <=? length) && (metCount =? 5) then score + 1 else score in
  let score := N.min score 4 in
  {| score := score;
     strength_label := fst (strengthMap score);
     color := snd (strengthMap score);
     feedback := firstn 3 feedback |}.

Definition validatePassword (password : jsstring) : Identity.validation :=
  if negb (truthy_string password) then
    {| Identity.valid := false; Identity.error := Some (lit "Password is required") |}
  else if N.of_nat (List.length password) <? 8 then
    {| Identity.valid := false;
       Identity.error := Some (lit "Password must be at least 8 characters") |}
  else if metCount (checkPasswordRequirements password) <? 3 then
    {| Identity.valid := false;
       Identity.error := Some (lit "Password must meet at least 3 requirements") |}
  else {| Identity.valid := true; Identity.error := None |}.

End Password.

(** ** The subscription to new messages of [context/ChatContext.tsx] *)
Module Realtime.
Import Crypto Chat.
Local Open Scope js_scope.

Section Handler.
Context {wc : WebCrypto}.
Variable JSON_parse : jsstring -> option json.
Variable decryptMessage_untyped : json -> PrivateKey -> jsstring -> completion jsstring.

(** [user.id], a TypeError when there is no user. *)
Definition user_id (user : option jsstring) : completion jsstring :=
  match user with
  | Some uid => Return uid
  | None => Throw TypeError
  end.

(** The body of the [try] of the handler: parse, then decrypt with [user.id]
    as the last argument.  As in the batch, the call on a parsed content that
    does not have the declared types is left open; without a user no call is
    made at all. *)
Definition decryptedText (privateKey : PrivateKey) (user : option jsstring)
    (newMsg : Message) : M jsstring :=
  parsedContent <-
    lift (match JSON_parse (content newMsg) with
          | Some v => Return v
          | None => Throw SyntaxError
          end) ;;
  uid <- lift (user_id user) ;;
  match arguments parsedContent with
  | Some (c, k, i) => decryptMessage c k i privateKey uid
  | None => lift (decryptMessage_untyped parsedContent privateKey uid)
  end.

(** The handler of the INSERT events, applied to the messages shown:
    [setMessages(prev => [...prev, { ...newMsg, ... }])] in both branches. *)
Definition onInsert (privateKey : PrivateKey) (user : option jsstring)
    (prev : list Message) (newMsg : Message) : M (list Message) :=
  try_catch
    (t <- decryptedText privateKey user newMsg ;;
     ret (prev ++ [with_decrypted newMsg t (mine newMsg user)]))
    (fun _ => ret (prev ++ [with_decrypted newMsg decryption_failed (mine newMsg user)])).

End Handler.

End Realtime.

(* ================================================================== *)
(** * Part II: properties *)
(* ================================================================== *)

(** Linear arithmetic with division and remainder by constants. *)
Ltac Zify.zify_post_hook ::= Z.to_euclidean_division_equations.

(** ** Base64 *)

Lemma below_64 (f : N -> bool) :
  forallb f (map N.of_nat (seq 0 64)) = true -> forall i, i < 64 -> f i = true.
Proof.
  intros Hall i Hi. rewrite forallb_forall in Hall. apply Hall.
  apply in_map_iff. exists (N.to_nat i). split; [lia|]. apply in_seq. lia.
Qed.

Section Base64Roundtrip.
Import Base64.

Lemma char_of_index_of i : i < 64 -> index_of (char_of i) = Some i.
Proof.
  intros Hi.
  pose proof (below_64
    (fun i => match index_of (char_of i) with Some j => j =? i | None => false end)
    eq_refl i Hi) as H.
  cbv beta in H.
  destruct (index_of (char_of i)) as [j|]; [|discriminate H].
  f_equal. now apply N.eqb_eq.
Qed.

Lemma char_of_plain i :
  i < 64 -> is_ascii_whitespace (char_of i) = false /\ char_of i <> pad.
Proof.
  intros Hi.
  pose proof (below_64
    (fun i => negb (is_ascii_whitespace (char_of i)) && negb (char_of i =? pad))
    eq_refl i Hi) as H.
  apply andb_true_iff in H. destruct H as [Hw Hp].
  apply negb_true_iff in Hw. apply negb_true_iff in Hp.
  split; [assumption | now apply N.eqb_neq].
Qed.

Lemma indices_chars idx :
  Forall (fun i => i < 64) idx -> indices (map char_of idx) = Some idx.
Proof.
  induction 1 as [|i idx Hi _ IH]; simpl; [reflexivity|].
  now rewrite (char_of_index_of i Hi), IH.
Qed.

Lemma list_ind3 {A} (P : list A -> Prop) :
  P [] -> (forall a, P [a]) -> (forall a b, P [a; b]) ->
  (forall a b c l, P l -> P (a :: b :: c :: l)) ->
  forall l, P l.
Proof.
  intros H0 H1 H2 H3.
  fix IH 1.
  intros [|a [|b [|c l]]]; [exact H0 | apply H1 | apply H2 | apply H3, IH].
Qed.

Lemma encoded_total s : Forall (fun c => c <= 255) s -> exists idx p, encoded s idx p.
Proof.
  induction s as [|a|a b|a b c l IH] using list_ind3; intros H.
  - do 2 eexists; constructor.
  - inversion_clear H. do 2 eexists; constructor; assumption.
  - inversion_clear H as [|? ? Ha H']. inversion_clear H'.
    do 2 eexists; constructor; assumption.
  - inversion_clear H as [|? ? Ha H']. inversion_clear H' as [|? ? Hb H''].
    inversion_clear H'' as [|? ? Hc Hl].
    destruct (IH Hl) as (idx & p & He).
    do 2 eexists; constructor; eassumption.
Qed.

Lemma encoded_spec s idx p :
  encoded s idx p ->
  encode s = map char_of idx ++ repeat pad p
  /\ Forall (fun i => i < 64) idx
  /\ decode idx = s
  /\ (p <= 2)%nat
  /\ N.of_nat (List.length idx + p) mod 4 = 0.
Proof.
  induction 1 as [|a Ha|a b Ha Hb|a b c rest idx p Ha Hb Hc He IH].
  - repeat split; simpl; auto.
  - repeat split; simpl; auto.
    + repeat constructor; lia.
    + f_equal. lia.
  - repeat split; simpl; auto.
    + repeat constructor; lia.
    + f_equal; [lia|]. f_equal. lia.
  - destruct IH as (E & F & D & P2 & M).
    repeat split; auto.
    + simpl encode. rewrite E. reflexivity.
    + repeat constructor; try lia. exact F.
    + simpl decode. rewrite D. f_equal; [lia|]. f_equal; [lia|]. f_equal. lia.
    + simpl List.length. lia.
Qed.

Lemma filter_plain idx p :
  Forall (fun i => i < 64) idx ->
  filter (fun c => negb (is_ascii_whitespace c)) (map char_of idx ++ repeat pad p)
  = map char_of idx ++ repeat pad p.
Proof.
  intros F. apply forallb_filter_id. rewrite forallb_app. apply andb_true_iff. split.
  - apply forallb_forall. intros c Hc. apply in_map_iff in Hc.
    destruct Hc as (i & <- & Hi). rewrite Forall_forall in F.
    now rewrite (proj1 (char_of_plain i (F i Hi))).
  - apply forallb_forall. intros c Hc. apply repeat_spec in Hc. now subst c.
Qed.

Lemma remove_padding_encoded idx p :
  Forall (fun i => i < 64) idx -> (p <= 2)%nat ->
  N.of_nat (List.length idx + p) mod 4 = 0 ->
  remove_padding (map char_of idx ++ repeat pad p) = map char_of idx.
Proof.
  intros F P2 M. unfold remove_padding.
  rewrite length_app, length_map, repeat_length.
  replace (N.of_nat (List.length idx + p) mod 4 =? 0) with true
    by (symmetry; apply N.eqb_eq; lia).
  rewrite rev_app_distr.
  assert (Hkeep : drop_pad (rev (map char_of idx)) = rev (map char_of idx)).
  { destruct (rev (map char_of idx)) as [|x r] eqn:E; [reflexivity|]. simpl.
    destruct (N.eqb_spec x pad) as [->|Hx]; [|reflexivity].
    assert (In pad (map char_of idx)) as Hin by (apply in_rev; rewrite E; now left).
    apply in_map_iff in Hin. destruct Hin as (i & Hi & Hin).
    rewrite Forall_forall in F. now destruct (proj2 (char_of_plain i (F i Hin))). }
  destruct p as [|[|[|p]]]; simpl; try lia;
    rewrite ?N.eqb_refl, ?Hkeep, ?Hkeep; apply rev_involutive.
Qed.

(** [atob] undoes [btoa] on every binary string. *)
Lemma atob_encode s :
  Forall (fun c => c <= 255) s -> atob (encode s) = Some s.
Proof.
  intros Hs. destruct (encoded_total s Hs) as (idx & p & He).
  destruct (encoded_spec _ _ _ He) as (E & F & D & P2 & M).
  unfold atob. rewrite E, (filter_plain idx p F), (remove_padding_encoded idx p F P2 M).
  rewrite length_map.
  replace (N.of_nat (List.length idx) mod 4 =? 1) with false
    by (symmetry; apply N.eqb_neq; lia).
  now rewrite (indices_chars idx F), D.
Qed.

Lemma to_uint8_to_N b : to_uint8 (Byte.to_N b) = b.
Proof.
  unfold to_uint8. pose proof (Byte.to_N_bounded b).
  rewrite N.mod_small by lia. now rewrite Byte.of_to_N.
Qed.

Lemma bytes_binary (b : list byte) : Forall (fun c => c <= 255) (map Byte.to_N b).
Proof.
  apply Forall_forall. intros c Hc. apply in_map_iff in Hc.
  destruct Hc as (x & <- & _). apply Byte.to_N_bounded.
Qed.

Lemma btoa_bytes (b : list byte) :
  btoa (map Byte.to_N b) = Some (encode (map Byte.to_N b)).
Proof.
  unfold btoa.
  replace (forallb (fun c => c <=? 255) (map Byte.to_N b)) with true; [reflexivity|].
  symmetry. apply forallb_forall. intros c Hc.
  pose proof (bytes_binary b) as H. rewrite Forall_forall in H.
  apply N.leb_le. now apply H.
Qed.

Example btoa_hello : btoa (lit "hello") = Some (lit "aGVsbG8=").
Proof. reflexivity. Qed.

Example atob_skips_whitespace : atob (lit "aGVs bG8") = Some (lit "hello").
Proof. reflexivity. Qed.

Example atob_rejects_length : atob (lit "aGVsb") = None.
Proof. reflexivity. Qed.

End Base64Roundtrip.

(** ** The helpers: [arrayBufferToBase64] and [base64ToArrayBuffer] *)
Section HelperFacts.
Import Helpers.

Lemma arrayBufferToBase64_returns b :
  arrayBufferToBase64 b = Return (base64_of b).
Proof. unfold arrayBufferToBase64, base64_of. now rewrite btoa_bytes. Qed.

Lemma base64ToArrayBuffer_encode b :
  base64ToArrayBuffer (base64_of b) = Return b.
Proof.
  unfold base64ToArrayBuffer, base64_of. rewrite (atob_encode _ (bytes_binary b)).
  f_equal. rewrite map_map. rewrite <- (map_id b) at 2.
  apply map_ext. exact to_uint8_to_N.
Qed.

Lemma encode_injective a b :
  base64_of a = base64_of b -> a = b.
Proof.
  intros H. apply (f_equal base64ToArrayBuffer) in H.
  rewrite !base64ToArrayBuffer_encode in H. now injection H.
Qed.

Lemma encode_nonempty b : b <> [] -> base64_of b <> [].
Proof.
  intros Hb H. apply Hb. apply encode_injective. now rewrite H.
Qed.

End HelperFacts.

(** ** C9: the base64 helpers form a round trip *)

(** C9.  For every byte buffer [b], [arrayBufferToBase64 b] returns a string
    (it never throws), and [base64ToArrayBuffer] applied to that string returns
    a buffer equal to [b] byte for byte. *)
Theorem base64_round_trip (b : list byte) :
  exists s,
    Helpers.arrayBufferToBase64 b = Return s
    /\ Helpers.base64ToArrayBuffer s = Return b.
Proof.
  exists (Helpers.base64_of b). split.
  - apply arrayBufferToBase64_returns.
  - apply base64ToArrayBuffer_encode.
Qed.

(** ** C10: generated usernames pass validation *)
Section IdentityFacts.
Import Identity.

Let capitalized (s : jsstring) : jsstring := toUpperCase (charAt0 s) ++ slice1 s.

Lemma pattern_word s : username_pattern s = true -> forallb word_char s = true.
Proof.
  destruct s as [|c rest]; [discriminate|]. simpl.
  intros H. apply andb_true_iff in H. destruct H as [Hc Hr].
  apply andb_true_iff. split; [unfold word_char; now rewrite Hc | exact Hr].
Qed.

Lemma pattern_app s t :
  username_pattern s = true -> forallb word_char t = true ->
  username_pattern (s ++ t) = true.
Proof.
  destruct s as [|c rest]; [discriminate|]. simpl.
  intros H Ht. apply andb_true_iff in H. destruct H as [Hc Hr].
  apply andb_true_iff. split; [exact Hc|].
  rewrite forallb_app. apply andb_true_iff. split; [exact Hr | exact Ht].
Qed.

Lemma digits_word d : forallb word_char (digits d) = true.
Proof. induction d; simpl; auto. Qed.

Lemma number_length n :
  n < 1000 -> (1 <= List.length (Number_toString n) <= 3)%nat.
Proof.
  intros Hn.
  assert (forallb (fun k => let l := List.length (Number_toString (N.of_nat k)) in
                            Nat.leb 1 l && Nat.leb l 3) (seq 0 1000) = true) as Hall
    by (vm_compute; reflexivity).
  rewrite forallb_forall in Hall. specialize (Hall (N.to_nat n)).
  rewrite N2Nat.id in Hall. cbv zeta in Hall.
  assert (In (N.to_nat n) (seq 0 1000)) as Hin by (apply in_seq; lia).
  apply Hall, andb_true_iff in Hin. destruct Hin as [H1 H2].
  apply Nat.leb_le in H1, H2. lia.
Qed.

Lemma words_capitalized (l : list jsstring) (hi : nat) :
  forallb (fun s => username_pattern (capitalized s)
                    && Nat.leb 3 (List.length (capitalized s))
                    && Nat.leb (List.length (capitalized s)) hi) l = true ->
  forall s, In s l ->
    username_pattern (capitalized s) = true
    /\ (3 <= List.length (capitalized s) <= hi)%nat.
Proof.
  intros Hall s Hs. rewrite forallb_forall in Hall. specialize (Hall s Hs).
  apply andb_true_iff in Hall. destruct Hall as [Hall H3].
  apply andb_true_iff in Hall. destruct Hall as [H1 H2].
  apply Nat.leb_le in H2, H3. auto.
Qed.

Lemma index_in_range (l : list jsstring) (i : N) (w : world) :
  i < N.of_nat (List.length l) ->
  exists s, In s l /\ index l i w = (Return s, w).
Proof.
  intros Hi. unfold index.
  destruct (nth_error l (N.to_nat i)) as [s|] eqn:E.
  - exists s. split; [eapply nth_error_In; eassumption | reflexivity].
  - apply nth_error_None in E. lia.
Qed.

Lemma getSecureRandomInt_below (max : N) (w : world) :
  0 < max ->
  exists r w', getSecureRandomInt max w = (Return r, w') /\ r < max.
Proof.
  intros Hmax. unfold getSecureRandomInt, bind, random_bytes, ret.
  do 2 eexists. split; [reflexivity|]. apply N.mod_lt. lia.
Qed.

(** Every choice of adjective, noun and number gives a valid username. *)
Lemma chosen_username_is_valid adjective noun number :
  In adjective adjectives -> In noun nouns -> number < 1000 ->
  validateUsername (capitalized adjective ++ capitalized noun ++ Number_toString number)
  = {| valid := true; error := None |}.
Proof.
  intros Hadj Hnoun Hnum.
  destruct (words_capitalized adjectives 6 eq_refl adjective Hadj) as [Pa La].
  destruct (words_capitalized nouns 9 eq_refl noun Hnoun) as [Pn Ln].
  pose proof (number_length number Hnum) as Ld.
  set (u := capitalized adjective ++ capitalized noun ++ Number_toString number).
  assert (Hlen : (7 <= List.length u <= 18)%nat)
    by (unfold u; rewrite !length_app; lia).
  assert (Hpat : username_pattern u = true).
  { apply pattern_app; [exact Pa|]. rewrite forallb_app.
    rewrite (pattern_word _ Pn). apply digits_word. }
  unfold validateUsername.
  destruct u as [|c u']; [simpl in Hlen; lia|].
  cbn [truthy_string negb].
  replace (N.of_nat (List.length (c :: u')) <? 3) with false
    by (symmetry; apply N.ltb_ge; lia).
  replace (30 <? N.of_nat (List.length (c :: u'))) with false
    by (symmetry; apply N.ltb_ge; lia).
  now rewrite Hpat.
Qed.

(** C10.  Whatever the random source yields, [generateUsername()] returns a
    string: a capitalised adjective of the list, a capitalised noun of the
    list and the digits of a number below 1000; and [validateUsername]
    answers [{ valid: true }] on it. *)
Theorem generated_username_is_valid (w : world) :
  exists u w',
    generateUsername w = (Return u, w')
    /\ validateUsername u = {| valid := true; error := None |}
    /\ exists adjective noun number,
         In adjective adjectives /\ In noun nouns /\ number < 1000
         /\ u = (toUpperCase (charAt0 adjective) ++ slice1 adjective)
                ++ (toUpperCase (charAt0 noun) ++ slice1 noun)
                ++ Number_toString number.
Proof.
  unfold generateUsername.
  destruct (getSecureRandomInt_below (N.of_nat (List.length adjectives)) w)
    as (i & w1 & E1 & Hi); [vm_compute; reflexivity|].
  destruct (index_in_range adjectives i w1 Hi) as (adjective & Hadj & E2).
  destruct (getSecureRandomInt_below (N.of_nat (List.length nouns)) w1)
    as (j & w2 & E3 & Hj); [vm_compute; reflexivity|].
  destruct (index_in_range nouns j w2 Hj) as (noun & Hnoun & E4).
  destruct (getSecureRandomInt_below 1000 w2) as (number & w3 & E5 & Hnum);
    [reflexivity|].
  unfold bind at 1. rewrite E1. unfold bind at 1. rewrite E2.
  unfold bind at 1. rewrite E3. unfold bind at 1. rewrite E4.
  unfold bind at 1. rewrite E5. unfold ret.
  do 2 eexists. split; [reflexivity|]. split.
  - exact (chosen_username_is_valid adjective noun number Hadj Hnoun Hnum).
  - now exists adjective, noun, number.
Qed.

Example username_on_counting_tape :
  fst (generateUsername Toy.counting) = Return (lit "WildPanther48").
Proof. vm_compute. reflexivity. Qed.

Example username_with_space_rejected :
  valid (validateUsername (lit "Wild Panther")) = false.
Proof. reflexivity. Qed.

End IdentityFacts.

(** ** UTF-8: decoding undoes encoding on well-formed strings *)
Section EncodingFacts.
Import Encoding.

Lemma to_N_to_uint8 n : n < 256 -> Byte.to_N (to_uint8 n) = n.
Proof.
  intros Hn. unfold to_uint8. rewrite N.mod_small by exact Hn.
  destruct (Byte.of_N n) as [b|] eqn:E.
  - now apply Byte.to_of_N.
  - apply Byte.of_N_None_iff in E. lia.
Qed.

Lemma lor_shiftl c x n : x < 2 ^ n -> N.lor (N.shiftl c n) x = c * 2 ^ n + x.
Proof.
  intros Hx.
  assert (N.land (N.shiftl c n) x = 0) as Hland.
  { apply N.bits_inj. intros i. rewrite N.land_spec, N.bits_0.
    destruct (N.lt_ge_cases i n) as [Hi|Hi].
    - now rewrite N.shiftl_spec_low.
    - rewrite <- (N.mod_small x (2 ^ n)) by exact Hx.
      rewrite N.mod_pow2_bits_high by exact Hi. apply andb_false_r. }
  rewrite <- N.lxor_lor, <- N.add_nocarry_lxor by exact Hland.
  now rewrite N.shiftl_mul_pow2.
Qed.

Lemma land_low a n : N.land a (N.ones n) = a mod 2 ^ n.
Proof. apply N.land_ones. Qed.

Lemma continuation_value cp sh :
  Byte.to_N (continuation cp sh) = 0x80 + (cp / 2 ^ sh) mod 64.
Proof.
  unfold continuation. rewrite N.shiftr_div_pow2.
  change 0x3F with (N.ones 6). rewrite land_low.
  change 0x80 with (N.shiftl 2 6) at 1. rewrite lor_shiftl by (apply N.mod_lt; discriminate).
  change (2 ^ 6) with 64. rewrite to_N_to_uint8; lia.
Qed.

(** The decoder on a first byte and on continuation bytes, in arithmetic. *)
Lemma step_ascii b : b <= 0x7F -> step initial b = (initial, [b]).
Proof.
  intros H. unfold step, lead. simpl bytes_needed. simpl (0 =? 0).
  cbv iota. now replace (b <=? 0x7F) with true by (symmetry; apply N.leb_le; lia).
Qed.

Lemma step_lead2 b :
  0xC2 <= b <= 0xDF ->
  step initial b =
    ({| code_point := b mod 32; bytes_seen := 0; bytes_needed := 1;
        lower_boundary := 0x80; upper_boundary := 0xBF |}, []).
Proof.
  intros H. unfold step, lead. simpl bytes_needed. simpl (0 =? 0). cbv iota.
  replace (b <=? 0x7F) with false by (symmetry; apply N.leb_gt; lia).
  replace (0xC2 <=? b) with true by (symmetry; apply N.leb_le; lia).
  replace (b <=? 0xDF) with true by (symmetry; apply N.leb_le; lia).
  simpl andb. cbv iota. change 0x1F with (N.ones 5). now rewrite land_low.
Qed.

Lemma step_lead3 b :
  0xE0 <= b <= 0xEF ->
  step initial b =
    ({| code_point := b mod 16; bytes_seen := 0; bytes_needed := 2;
        lower_boundary := if b =? 0xE0 then 0xA0 else 0x80;
        upper_boundary := if b =? 0xED then 0x9F else 0xBF |}, []).
Proof.
  intros H. unfold step, lead. simpl bytes_needed. simpl (0 =? 0). cbv iota.
  replace (b <=? 0x7F) with false by (symmetry; apply N.leb_gt; lia).
  replace (b <=? 0xDF) with false by (symmetry; apply N.leb_gt; lia).
  rewrite andb_false_r.
  replace (0xE0 <=? b) with true by (symmetry; apply N.leb_le; lia).
  replace (b <=? 0xEF) with true by (symmetry; apply N.leb_le; lia).
  simpl andb. cbv iota. change 0xF with (N.ones 4). now rewrite land_low.
Qed.

Lemma step_lead4 b :
  0xF0 <= b <= 0xF4 ->
  step initial b =
    ({| code_point := b mod 8; bytes_seen := 0; bytes_needed := 3;
        lower_boundary := if b =? 0xF0 then 0x90 else 0x80;
        upper_boundary := if b =? 0xF4 then 0x8F else 0xBF |}, []).
Proof.
  intros H. unfold step, lead. simpl bytes_needed. simpl (0 =? 0). cbv iota.
  replace (b <=? 0x7F) with false by (symmetry; apply N.leb_gt; lia).
  replace (b <=? 0xDF) with false by (symmetry; apply N.leb_gt; lia).
  replace (b <=? 0xEF) with false by (symmetry; apply N.leb_gt; lia).
  rewrite !andb_false_r.
  replace (0xF0 <=? b) with true by (symmetry; apply N.leb_le; lia).
  replace (b <=? 0xF4) with true by (symmetry; apply N.leb_le; lia).
  simpl andb. cbv iota. change 0x7 with (N.ones 3). now rewrite land_low.
Qed.

Lemma step_continue d b :
  bytes_needed d <> 0 -> lower_boundary d <= b <= upper_boundary d ->
  step d b =
    if bytes_seen d + 1 =? bytes_needed d
    then (initial, [code_point d * 64 + b mod 64])
    else ({| code_point := code_point d * 64 + b mod 64;
             bytes_seen := bytes_seen d + 1; bytes_needed := bytes_needed d;
             lower_boundary := 0x80; upper_boundary := 0xBF |}, []).
Proof.
  intros Hn Hb. unfold step.
  replace (bytes_needed d =? 0) with false by (symmetry; now apply N.eqb_neq).
  replace (lower_boundary d <=? b) with true by (symmetry; apply N.leb_le; lia).
  replace (b <=? upper_boundary d) with true by (symmetry; apply N.leb_le; lia).
  simpl negb. cbv iota.
  change 0x3F with (N.ones 6). rewrite land_low.
  rewrite lor_shiftl by (apply N.mod_lt; discriminate).
  reflexivity.
Qed.

Ltac decode_byte :=
  cbn [run app];
  rewrite ?continuation_value, ?N.shiftr_div_pow2;
  change (2 ^ 0) with 1; change (2 ^ 6) with 64;
  change (2 ^ 12) with 4096; change (2 ^ 18) with 262144;
  rewrite ?N.div_1_r.

Lemma run_scalar cp rest :
  scalar_value cp -> run initial (utf8_bytes cp ++ rest) = cp :: run initial rest.
Proof.
  intros [Hmax Hsur]. unfold utf8_bytes.
  destruct (N.leb_spec cp 0x7F) as [H1|H1].
  { decode_byte. rewrite to_N_to_uint8 by lia. now rewrite step_ascii. }
  destruct (N.leb_spec cp 0x7FF) as [H2|H2].
  { decode_byte. rewrite to_N_to_uint8 by lia.
    rewrite step_lead2 by lia. cbn [app].
    decode_byte. rewrite step_continue by (cbn [bytes_needed lower_boundary upper_boundary]; lia).
    cbn [bytes_seen bytes_needed code_point]. change (0 + 1 =? 1) with true.
    cbv iota. cbn [app]. f_equal. lia. }
  destruct (N.leb_spec cp 0xFFFF) as [H3|H3].
  { decode_byte. rewrite to_N_to_uint8 by lia.
    rewrite step_lead3 by lia. cbn [app].
    decode_byte. rewrite step_continue.
    2: cbn [bytes_needed]; lia.
    2: { cbn [lower_boundary upper_boundary].
         destruct (N.eqb_spec (cp / 4096 + 224) 224);
         destruct (N.eqb_spec (cp / 4096 + 224) 237); lia. }
    cbn [bytes_seen bytes_needed code_point]. change (0 + 1 =? 2) with false.
    cbv iota. cbn [app].
    decode_byte. rewrite step_continue by (cbn [bytes_needed lower_boundary upper_boundary]; lia).
    cbn [bytes_seen bytes_needed code_point]. change (0 + 1 + 1 =? 2) with true.
    cbv iota. cbn [app]. f_equal. lia. }
  decode_byte. rewrite to_N_to_uint8 by lia.
  rewrite step_lead4 by lia. cbn [app].
  decode_byte. rewrite step_continue.
  2: cbn [bytes_needed]; lia.
  2: { cbn [lower_boundary upper_boundary].
       destruct (N.eqb_spec (cp / 262144 + 240) 240);
       destruct (N.eqb_spec (cp / 262144 + 240) 244); lia. }
  cbn [bytes_seen bytes_needed code_point]. change (0 + 1 =? 3) with false.
  cbv iota. cbn [app].
  decode_byte. rewrite step_continue by (cbn [bytes_needed lower_boundary upper_boundary]; lia).
  cbn [bytes_seen bytes_needed code_point]. change (0 + 1 + 1 =? 3) with false.
  cbv iota. cbn [app].
  decode_byte. rewrite step_continue by (cbn [bytes_needed lower_boundary upper_boundary]; lia).
  cbn [bytes_seen bytes_needed code_point]. change (0 + 1 + 1 + 1 =? 3) with true.
  cbv iota. cbn [app]. f_equal. lia.
Qed.

Lemma run_scalars l :
  Forall scalar_value l -> run initial (flat_map utf8_bytes l) = l.
Proof.
  induction 1 as [|cp l Hcp _ IH]; [reflexivity|].
  cbn [flat_map]. now rewrite run_scalar, IH.
Qed.

Lemma supplementary_range c d :
  is_lead_surrogate c = true -> is_trail_surrogate d = true ->
  0x10000 <= supplementary c d <= 0x10FFFF
  /\ utf16_units (supplementary c d) = [c; d].
Proof.
  unfold is_lead_surrogate, is_trail_surrogate, supplementary, utf16_units.
  intros Hlead Htrail. apply andb_true_iff in Hlead, Htrail.
  destruct Hlead as [L1 L2]. destruct Htrail as [T1 T2].
  apply N.leb_le in L1, L2, T1, T2.
  split; [lia|].
  replace (_ <? 0x10000) with false by (symmetry; apply N.ltb_ge; lia).
  f_equal; [lia|]. f_equal. lia.
Qed.

Lemma basic_scalar c :
  is_lead_surrogate c = false -> is_trail_surrogate c = false ->
  (c <? 0x10000) = true ->
  scalar_value c /\ utf16_units c = [c].
Proof.
  unfold is_lead_surrogate, is_trail_surrogate, scalar_value, utf16_units.
  intros Hlead Htrail Hc. rewrite Hc. split; [|reflexivity].
  apply andb_false_iff in Hlead, Htrail. apply N.ltb_lt in Hc.
  rewrite !N.leb_gt in Hlead, Htrail. lia.
Qed.

Local Opaque supplementary utf16_units.

Lemma well_formed_scalars s :
  isWellFormed s = true ->
  Forall scalar_value (scalar_values s)
  /\ flat_map utf16_units (scalar_values s) = s.
Proof.
  remember (List.length s) as n eqn:Hn.
  assert (Hle : (List.length s <= n)%nat) by lia. clear Hn.
  revert s Hle. induction n as [|n IH]; intros [|c r] Hle Hwf;
    try (split; [constructor | reflexivity]); [simpl in Hle; lia|].
  simpl in Hle. cbn [isWellFormed scalar_values] in *.
  destruct (is_lead_surrogate c) eqn:Hlead.
  - destruct r as [|d r']; [discriminate|].
    apply andb_true_iff in Hwf. destruct Hwf as [Htrail Hwf]. rewrite Htrail.
    destruct (IH r') as [Hs He]; [simpl in Hle; lia | exact Hwf |].
    destruct (supplementary_range c d Hlead Htrail) as [Hrange Hunits].
    split.
    + constructor; [|exact Hs]. unfold scalar_value. lia.
    + cbn [flat_map]. now rewrite He, Hunits.
  - apply andb_true_iff in Hwf. destruct Hwf as [Hwf Hr].
    apply andb_true_iff in Hwf. destruct Hwf as [Htrail Hc].
    apply negb_true_iff in Htrail. rewrite Htrail.
    destruct (IH r) as [Hs He]; [lia | exact Hr |].
    destruct (basic_scalar c Hlead Htrail Hc) as [Hscalar Hunits].
    split.
    + constructor; [exact Hscalar | exact Hs].
    + cbn [flat_map]. now rewrite He, Hunits.
Qed.

Lemma strip_bom_first a t : Byte.to_N a <> 0xEF -> strip_bom (a :: t) = a :: t.
Proof.
  intros Ha. destruct t as [|b [|c r]]; try reflexivity. unfold strip_bom.
  now replace (Byte.to_N a =? 0xEF) with false by (symmetry; now apply N.eqb_neq).
Qed.

Lemma strip_bom_three a b c t :
  ~ (Byte.to_N a = 0xEF /\ Byte.to_N b = 0xBB /\ Byte.to_N c = 0xBF) ->
  strip_bom (a :: b :: c :: t) = a :: b :: c :: t.
Proof.
  intros H. unfold strip_bom.
  destruct (N.eqb_spec (Byte.to_N a) 0xEF); [|reflexivity].
  destruct (N.eqb_spec (Byte.to_N b) 0xBB); [|reflexivity].
  destruct (N.eqb_spec (Byte.to_N c) 0xBF); [|reflexivity].
  now destruct H.
Qed.

Lemma strip_bom_scalar cp t :
  scalar_value cp -> cp <> 0xFEFF ->
  strip_bom (utf8_bytes cp ++ t) = utf8_bytes cp ++ t.
Proof.
  intros [Hmax Hsur] Hbom. unfold utf8_bytes.
  destruct (N.leb_spec cp 0x7F) as [H1|H1].
  { cbn [app]. apply strip_bom_first. rewrite to_N_to_uint8; lia. }
  destruct (N.leb_spec cp 0x7FF) as [H2|H2].
  { cbn [app]. apply strip_bom_first. rewrite N.shiftr_div_pow2.
    change (2 ^ 6) with 64. rewrite to_N_to_uint8; lia. }
  destruct (N.leb_spec cp 0xFFFF) as [H3|H3].
  { cbn [app]. apply strip_bom_three.
    rewrite !continuation_value, N.shiftr_div_pow2.
    change (2 ^ 0) with 1. change (2 ^ 6) with 64. change (2 ^ 12) with 4096.
    rewrite N.div_1_r, to_N_to_uint8 by lia. lia. }
  cbn [app]. apply strip_bom_first. rewrite N.shiftr_div_pow2.
  change (2 ^ 18) with 262144. rewrite to_N_to_uint8; lia.
Qed.

Lemma first_scalar c r :
  isWellFormed (c :: r) = true -> c <> 0xFEFF ->
  exists cp rest,
    scalar_values (c :: r) = cp :: rest /\ scalar_value cp /\ cp <> 0xFEFF.
Proof.
  intros Hwf Hc. destruct (well_formed_scalars _ Hwf) as [Hs _].
  cbn [scalar_values isWellFormed] in Hs, Hwf |- *.
  destruct (is_lead_surrogate c) eqn:Hlead.
  - destruct r as [|d r']; [discriminate|].
    apply andb_true_iff in Hwf. destruct Hwf as [Htrail _].
    rewrite Htrail in Hs |- *.
    do 2 eexists. split; [reflexivity|]. split; [exact (Forall_inv Hs)|].
    destruct (supplementary_range c d Hlead Htrail) as [Hrange _]. lia.
  - apply andb_true_iff in Hwf. destruct Hwf as [Hwf _].
    apply andb_true_iff in Hwf. destruct Hwf as [Htrail _].
    apply negb_true_iff in Htrail. rewrite Htrail in Hs |- *.
    do 2 eexists. split; [reflexivity|]. split; [exact (Forall_inv Hs) | exact Hc].
Qed.

(** A well-formed text that does not begin with U+FEFF survives encoding and
    decoding unchanged. *)
Lemma decode_encode (text : jsstring) :
  isWellFormed text = true -> hd_error text <> Some 0xFEFF ->
  TextDecoder_decode (TextEncoder_encode text) = text.
Proof.
  intros Hwf Hbom. destruct (well_formed_scalars _ Hwf) as [Hs He].
  unfold TextDecoder_decode, TextEncoder_encode.
  assert (strip_bom (flat_map utf8_bytes (scalar_values text))
          = flat_map utf8_bytes (scalar_values text)) as ->.
  { destruct text as [|c r]; [reflexivity|].
    destruct (first_scalar c r Hwf) as (cp & rest & E & Hcp & Hne).
    { intros ->. now apply Hbom. }
    rewrite E. cbn [flat_map]. now apply strip_bom_scalar. }
  now rewrite run_scalars, He.
Qed.

Example encode_euro_and_emoji :
  map Byte.to_N (TextEncoder_encode [0x20AC; 0xD83D; 0xDE00])
  = [0xE2; 0x82; 0xAC; 0xF0; 0x9F; 0x98; 0x80].
Proof. reflexivity. Qed.

Example lone_surrogate_is_replaced :
  TextDecoder_decode (TextEncoder_encode [0xD800]) = [0xFFFD].
Proof. reflexivity. Qed.

Example leading_bom_is_dropped :
  TextDecoder_decode (TextEncoder_encode (0xFEFF :: lit "A")) = lit "A".
Proof. reflexivity. Qed.

End EncodingFacts.

(** ** The object model *)
Section ObjectFacts.
Context {V : Type}.

Lemma str_eqb_eq a b : str_eqb a b = true <-> a = b.
Proof. unfold str_eqb. destruct (list_eq_dec N.eq_dec a b); split; congruence. Qed.

Lemma str_eqb_refl a : str_eqb a a = true.
Proof. now apply str_eqb_eq. Qed.

Lemma str_eqb_neq a b : a <> b -> str_eqb a b = false.
Proof. unfold str_eqb. destruct (list_eq_dec N.eq_dec a b); congruence. Qed.

Lemma own_property_None (o : object V) k : own_property o k = None <-> ~ In k (keys o).
Proof.
  unfold keys. induction o as [|[k' v'] o IH]; simpl; [tauto|].
  destruct (str_eqb k' k) eqn:E.
  - apply str_eqb_eq in E. split; [discriminate | tauto].
  - rewrite IH. split; [|tauto].
    intros H [Heq|Hin]; [|tauto]. subst. now rewrite str_eqb_refl in E.
Qed.

Lemma own_property_app (l1 l2 : object V) k :
  own_property (l1 ++ l2) k =
    match own_property l1 k with
    | Some v => Some v
    | None => own_property l2 k
    end.
Proof.
  induction l1 as [|[k' v'] l1 IH]; simpl; [reflexivity|].
  now destruct (str_eqb k' k).
Qed.

Lemma own_property_In (o : object V) k v :
  NoDup (keys o) -> In (k, v) o -> own_property o k = Some v.
Proof.
  unfold keys. induction o as [|[k' v'] o IH]; simpl; intros Hnd Hin; [tauto|].
  inversion_clear Hnd as [|? ? Hfresh Hnd'].
  destruct Hin as [Heq|Hin].
  - injection Heq as -> ->. now rewrite str_eqb_refl.
  - rewrite str_eqb_neq; [now apply IH|].
    intros ->. apply Hfresh. apply in_map_iff. now exists (k, v).
Qed.

(** A created property goes in somewhere, the others stay as they are. *)
Lemma insert_index_splits (o : object V) n k v :
  exists l1 l2, o = l1 ++ l2 /\ insert_index o n k v = l1 ++ (k, v) :: l2.
Proof.
  induction o as [|[k' v'] o (l1 & l2 & E & IH)]; simpl.
  - now exists [], [].
  - destruct (array_index k') as [n'|]; [destruct (n' <? n)|].
    + exists ((k', v') :: l1), l2. simpl. now rewrite IH, <- E.
    + now exists [], ((k', v') :: o).
    + now exists [], ((k', v') :: o).
Qed.

Lemma create_splits (o : object V) k v :
  exists l1 l2, o = l1 ++ l2 /\ create o k v = l1 ++ (k, v) :: l2.
Proof.
  unfold create. destruct (array_index k) as [n|].
  - apply insert_index_splits.
  - exists o, []. now rewrite app_nil_r.
Qed.

Lemma keys_create (o : object V) k v k' :
  In k' (keys (create o k v)) <-> k' = k \/ In k' (keys o).
Proof.
  destruct (create_splits o k v) as (l1 & l2 & -> & ->).
  unfold keys. rewrite !map_app, !in_app_iff. simpl. intuition.
Qed.

Lemma NoDup_create (o : object V) k v :
  ~ In k (keys o) -> NoDup (keys o) -> NoDup (keys (create o k v)).
Proof.
  destruct (create_splits o k v) as (l1 & l2 & -> & ->).
  unfold keys. rewrite !map_app. simpl. intros Hk Hnd.
  now apply NoDup_Add with (a := k) (l := map fst l1 ++ map fst l2);
    [apply Add_app|].
Qed.

Lemma own_property_create_same (o : object V) k v :
  own_property o k = None -> own_property (create o k v) k = Some v.
Proof.
  destruct (create_splits o k v) as (l1 & l2 & -> & ->).
  rewrite !own_property_app. destruct (own_property l1 k); [discriminate|].
  intros _. simpl. now rewrite str_eqb_refl.
Qed.

Lemma own_property_create_other (o : object V) k v k' :
  k <> k' -> own_property (create o k v) k' = own_property o k'.
Proof.
  intros Hk. destruct (create_splits o k v) as (l1 & l2 & -> & ->).
  rewrite !own_property_app. simpl. now rewrite str_eqb_neq.
Qed.

Lemma keys_overwrite (o : object V) k v : keys (overwrite o k v) = keys o.
Proof.
  unfold keys. induction o as [|[k' v'] o IH]; simpl; [reflexivity|].
  destruct (str_eqb k' k); simpl; [reflexivity | now rewrite IH].
Qed.

Lemma own_property_overwrite_same (o : object V) k v :
  own_property o k <> None -> own_property (overwrite o k v) k = Some v.
Proof.
  induction o as [|[k' v'] o IH]; simpl; [congruence|].
  destruct (str_eqb k' k) eqn:E; simpl; rewrite E; [reflexivity | exact IH].
Qed.

Lemma own_property_overwrite_other (o : object V) k v k' :
  k <> k' -> own_property (overwrite o k v) k' = own_property o k'.
Proof.
  intros Hk. induction o as [|[k0 v0] o IH]; simpl; [reflexivity|].
  destruct (str_eqb k0 k) eqn:E; simpl.
  - apply str_eqb_eq in E. subst k0. now rewrite !str_eqb_neq.
  - now rewrite IH.
Qed.

Lemma get_own (o : object V) k v : own_property o k = Some v -> get o k = own v.
Proof. unfold get. now intros ->. Qed.

(** A key that [Object.prototype] does not hold is read off the object
    alone. *)
Lemma get_plain (o : object V) k :
  ~ In k Object_prototype ->
  get o k = match own_property o k with Some v => own v | None => undefined end.
Proof.
  intros Hk. unfold get. destruct (own_property o k); [reflexivity|].
  destruct (existsb (str_eqb k) Object_prototype) eqn:E; [|reflexivity].
  apply existsb_exists in E. destruct E as (x & Hx & E).
  apply str_eqb_eq in E. now subst.
Qed.

Lemma get_inherited (o : object V) k :
  own_property o k = None -> In k Object_prototype -> get o k = inherited k.
Proof.
  intros Hown Hk. unfold get. rewrite Hown.
  replace (existsb (str_eqb k) Object_prototype) with true; [reflexivity|].
  symmetry. apply existsb_exists. exists k. split; [exact Hk | apply str_eqb_refl].
Qed.

End ObjectFacts.

(** Assignment of a string to a property. *)
Section AssignmentFacts.

Lemma own_property_set_same (o : object jsstring) k v :
  k <> proto -> own_property (set o k v) k = Some v.
Proof.
  intros Hk. unfold set. destruct (own_property o k) eqn:E.
  - apply own_property_overwrite_same. congruence.
  - rewrite str_eqb_neq by exact Hk. now apply own_property_create_same.
Qed.

Lemma own_property_set_other (o : object jsstring) k v k' :
  k <> k' -> own_property (set o k v) k' = own_property o k'.
Proof.
  intros Hk. unfold set. destruct (own_property o k) eqn:E.
  - now apply own_property_overwrite_other.
  - destruct (str_eqb k proto); [reflexivity|].
    now apply own_property_create_other.
Qed.

Lemma keys_set (o : object jsstring) k v k' :
  In k' (keys (set o k v)) <-> In k' (keys o) \/ (k' = k /\ k <> proto).
Proof.
  unfold set. destruct (own_property o k) eqn:E.
  - rewrite keys_overwrite. split; [tauto|]. intros [H|[-> _]]; [exact H|].
    destruct (in_dec (list_eq_dec N.eq_dec) k (keys o)) as [Hin|Hout]; [exact Hin|].
    apply own_property_None in Hout. congruence.
  - destruct (str_eqb k proto) eqn:Ep.
    + apply str_eqb_eq in Ep. tauto.
    + rewrite keys_create. split; [|tauto]. intros [->|H]; [right|now left].
      split; [reflexivity|]. intros Hp. rewrite Hp, str_eqb_refl in Ep. discriminate.
Qed.

Lemma NoDup_set (o : object jsstring) k v :
  NoDup (keys o) -> NoDup (keys (set o k v)).
Proof.
  intros Hnd. unfold set. destruct (own_property o k) eqn:E.
  - now rewrite keys_overwrite.
  - destruct (str_eqb k proto); [exact Hnd|].
    apply NoDup_create; [|exact Hnd]. now apply own_property_None.
Qed.

(** An assignment to [__proto__] leaves an object without such an own
    property as it was. *)
Lemma set_proto (o : object jsstring) v :
  own_property o proto = None -> set o proto v = o.
Proof. intros H. unfold set. now rewrite H, str_eqb_refl. Qed.

End AssignmentFacts.

(** ** The computations of [lib/crypto.ts], step by step *)
Section CryptoSteps.
Import Crypto Helpers Encoding.
Context {wc : WebCrypto}.

Lemma bind_Return {A B} (c : M A) (k : A -> M B) w a w' :
  c w = (Return a, w') -> bind c k w = k a w'.
Proof. unfold bind. now intros ->. Qed.

Lemma bind_Throw {A B} (c : M A) (k : A -> M B) w e w' :
  c w = (Throw e, w') -> bind c k w = (Throw e, w').
Proof. unfold bind. now intros ->. Qed.

Lemma encrypt_RSA_run pk data w :
  let w1 := recorded (Encrypt RSA_OAEP) w in
  encrypt_RSA pk data w =
    (match rsa_oaep_encrypt pk (next_bytes 32 w1) data with
     | Some c => Return c
     | None => Throw (DOMException OperationError (encrypt_of RSA_OAEP data))
     end, consumed 32 w1).
Proof.
  unfold encrypt_RSA, bind, log, random_bytes. cbn zeta.
  now destruct (rsa_oaep_encrypt _ _ _).
Qed.

Lemma decrypt_RSA_run sk data w :
  decrypt_RSA sk data w =
    (match rsa_oaep_decrypt sk data with
     | Some m => Return m
     | None => Throw (DOMException OperationError (decrypt_of RSA_OAEP data))
     end, recorded (Decrypt RSA_OAEP) w).
Proof. unfold decrypt_RSA, bind, log. now destruct (rsa_oaep_decrypt _ _). Qed.

Lemma decrypt_AES_run ivb key data w :
  decrypt_AES ivb key data w =
    (match aes_gcm_decrypt key ivb data with
     | Some m => Return m
     | None => Throw (DOMException OperationError (decrypt_of AES_GCM data))
     end, recorded (Decrypt AES_GCM) w).
Proof. unfold decrypt_AES, bind, log. now destruct (aes_gcm_decrypt _ _ _). Qed.

Lemma importKey_raw_256 key w :
  List.length key = 32%nat ->
  importKey_raw key w = (Return key, recorded ImportKey w).
Proof. intros H. unfold importKey_raw, bind, log. now rewrite H. Qed.

Lemma encryptMessage_run text R w :
  encryptMessage text R w =
    match wrap_each R (session_key_of w) [] (wrapping_world w) with
    | (Return keys, w') =>
        (Return
           {| encryptedContent :=
                base64_of (aes_gcm_encrypt (session_key_of w) (nonce_of w)
                             (TextEncoder_encode text));
              encryptedKeys := keys;
              iv := base64_of (nonce_of w) |}, w')
    | (Throw e, w') => (Throw e, w')
    end.
Proof.
  unfold encryptMessage, generateKey_AES, getRandomValues, encrypt_AES, exportKey_raw.
  unfold bind at 1. unfold bind at 1. unfold log at 1. unfold random_bytes at 1.
  unfold bind at 1. unfold random_bytes at 1.
  unfold bind at 1. unfold bind at 1. unfold log at 1. unfold ret at 1.
  unfold bind at 1. unfold bind at 1. unfold log at 1. unfold ret at 1.
  unfold bind at 1. fold (wrapping_world w).
  change (next_bytes 32 (recorded (GenerateKey AES_GCM) w)) with (session_key_of w).
  change (next_bytes 12 (consumed 32 (recorded (GenerateKey AES_GCM) w)))
    with (nonce_of w).
  destruct (wrap_each R (session_key_of w) [] (wrapping_world w)) as [[keys|e] w'];
    [|reflexivity].
  unfold bind, lift, ret. now rewrite !arrayBufferToBase64_returns.
Qed.

End CryptoSteps.

(** ** The toy primitives obey the laws *)
Section ToyFacts.
Import Crypto Toy.

Lemma bytes_eqb_eq a b : bytes_eqb a b = true <-> a = b.
Proof.
  revert b. induction a as [|x a IH]; intros [|y b]; simpl;
    try (split; (reflexivity || discriminate)).
  rewrite andb_true_iff, IH. split.
  - intros [Hx ->]. now rewrite (byte_dec_bl _ _ Hx).
  - intros H. injection H as -> ->. split; [now apply byte_dec_lb | reflexivity].
Qed.

Lemma app_same_length {A} (a a' b b' : list A) :
  List.length a = List.length a' -> a ++ b = a' ++ b' -> a = a' /\ b = b'.
Proof.
  revert a'. induction a as [|x a IH]; intros [|x' a'] Hlen H;
    try discriminate; [now split|].
  injection H as -> H. injection Hlen as Hlen.
  destruct (IH a' Hlen H) as [-> ->]. now split.
Qed.

Lemma toy_lawful : Lawful toy.
Proof.
  constructor.
  - intros pk seed m _ Hm. cbn.
    now replace (Nat.leb (List.length m) 190) with true
      by (symmetry; now apply Nat.leb_le).
  - intros pk seed m c. cbn.
    destruct (Nat.leb (List.length m) 190); [|discriminate].
    intros H. injection H as <-. discriminate.
  - intros pk sk seed m c Hpair. cbn in *. subst sk.
    destruct (Nat.leb (List.length m) 190); [|discriminate].
    intros H. injection H as <-. now rewrite (byte_dec_lb eq_refl).
  - intros key iv data _. cbn.
    rewrite app_assoc, <- length_app, firstn_app, Nat.sub_diag, firstn_all.
    cbn [firstn]. rewrite app_nil_r, (proj2 (bytes_eqb_eq _ _) eq_refl).
    rewrite skipn_app, Nat.sub_diag, skipn_all. reflexivity.
Qed.

Lemma toy_key_sizes : LawfulKeySizes toy.
Proof.
  constructor. intros key iv data _. cbn.
  rewrite app_assoc, <- length_app, firstn_app, Nat.sub_diag, firstn_all.
  cbn [firstn]. rewrite app_nil_r, (proj2 (bytes_eqb_eq _ _) eq_refl).
  rewrite skipn_app, Nat.sub_diag, skipn_all. reflexivity.
Qed.

End ToyFacts.

(** ** Wrapping the session key for each recipient *)
Section Wrapping.
Import Crypto Helpers Encoding.
Context {wc : WebCrypto}.

Lemma next_bytes_length n w : List.length (next_bytes n w) = n.
Proof. unfold next_bytes. now rewrite length_map, length_seq. Qed.

Lemma wrap_each_step userId pk rest key acc w :
  let w1 := recorded (Encrypt RSA_OAEP) w in
  wrap_each ((userId, pk) :: rest) key acc w =
    match rsa_oaep_encrypt pk (next_bytes 32 w1) key with
    | Some c => wrap_each rest key (set acc userId (base64_of c)) (consumed 32 w1)
    | None => (Throw (DOMException OperationError (encrypt_of RSA_OAEP key)), consumed 32 w1)
    end.
Proof.
  cbn zeta. cbn [wrap_each]. unfold bind at 1. rewrite encrypt_RSA_run.
  destruct (rsa_oaep_encrypt _ _ _) as [c|]; [|reflexivity].
  unfold bind at 1, lift at 1. now rewrite arrayBufferToBase64_returns.
Qed.

Lemma wrap_each_returns {laws : Lawful wc} R key acc w :
  (List.length key <= 190)%nat ->
  exists out w', wrap_each R key acc w = (Return out, w').
Proof.
  intros Hkey. revert acc w.
  induction R as [|[userId pk] rest IH]; intros acc w.
  - now exists acc, w.
  - rewrite wrap_each_step.
    destruct (rsa_oaep_encrypt pk _ key) as [c|] eqn:E; [apply IH|].
    now apply rsa_encrypts in E; [|apply next_bytes_length|].
Qed.

Lemma wrap_each_preserves R key acc w out w' :
  wrap_each R key acc w = (Return out, w') ->
  forall r, ~ In r (keys R) -> own_property out r = own_property acc r.
Proof.
  revert acc w. induction R as [|[userId pk] rest IH]; intros acc w H r Hr.
  - cbn in H. unfold ret in H. now injection H as <- _.
  - rewrite wrap_each_step in H.
    destruct (rsa_oaep_encrypt _ _ _) as [c|]; [|discriminate].
    cbn in Hr. rewrite (IH _ _ H r) by tauto.
    apply own_property_set_other. tauto.
Qed.

(** Every recipient but [__proto__] gets the session key wrapped under its
    public key. *)
Lemma wrap_each_wraps R key acc w out w' :
  wrap_each R key acc w = (Return out, w') ->
  NoDup (keys R) ->
  forall r pk, In (r, pk) R -> r <> proto ->
    exists seed c,
      rsa_oaep_encrypt pk seed key = Some c
      /\ own_property out r = Some (base64_of c).
Proof.
  revert acc w. induction R as [|[userId pk0] rest IH]; intros acc w H Hnd r pk Hin Hr.
  - destruct Hin.
  - rewrite wrap_each_step in H.
    destruct (rsa_oaep_encrypt pk0 _ key) as [c|] eqn:E; [|discriminate].
    cbn in Hnd. inversion_clear Hnd as [|? ? Hfresh Hnd'].
    destruct Hin as [Heq|Hin].
    + injection Heq as -> ->. exists (next_bytes 32 (recorded (Encrypt RSA_OAEP) w)), c.
      split; [exact E|].
      rewrite (wrap_each_preserves _ _ _ _ _ _ H r Hfresh).
      now apply own_property_set_same.
    + exact (IH _ _ H Hnd' r pk Hin Hr).
Qed.

(** The keys of the result: those there were, and the recipients but
    [__proto__]. *)
Lemma wrap_each_keys R key acc w out w' :
  wrap_each R key acc w = (Return out, w') ->
  forall k, In k (keys out) <-> In k (keys acc) \/ (In k (keys R) /\ k <> proto).
Proof.
  revert acc w. induction R as [|[userId pk] rest IH]; intros acc w H k.
  - cbn in H. unfold ret in H. injection H as <- _. cbn. tauto.
  - rewrite wrap_each_step in H.
    destruct (rsa_oaep_encrypt _ _ _) as [c|]; [|discriminate].
    rewrite (IH _ _ H k), keys_set. cbn [keys map fst In].
    split; [intros [[Hacc|[-> Hp]]|[Hin Hp]] | intros [Hacc|[[<-|Hin] Hp]]]; tauto.
Qed.

Lemma wrap_each_NoDup R key acc w out w' :
  wrap_each R key acc w = (Return out, w') -> NoDup (keys acc) -> NoDup (keys out).
Proof.
  revert acc w. induction R as [|[userId pk] rest IH]; intros acc w H Hnd.
  - cbn in H. unfold ret in H. now injection H as <- _.
  - rewrite wrap_each_step in H.
    destruct (rsa_oaep_encrypt _ _ _) as [c|]; [|discriminate].
    apply (IH _ _ H). now apply NoDup_set.
Qed.

(** With lawful primitives [encryptMessage] returns an envelope, whatever the
    recipients. *)
Lemma encryptMessage_returns {laws : Lawful wc} text R w :
  exists keys w',
    wrap_each R (session_key_of w) [] (wrapping_world w) = (Return keys, w')
    /\ encryptMessage text R w =
        (Return
           {| encryptedContent :=
                base64_of (aes_gcm_encrypt (session_key_of w) (nonce_of w)
                             (TextEncoder_encode text));
              encryptedKeys := keys;
              iv := base64_of (nonce_of w) |}, w').
Proof.
  destruct (wrap_each_returns R (session_key_of w) [] (wrapping_world w))
    as (keys & w' & E).
  { unfold session_key_of. rewrite next_bytes_length. lia. }
  exists keys, w'. split; [exact E|]. now rewrite encryptMessage_run, E.
Qed.

End Wrapping.

(** ** C2: one wrapped key per recipient *)

(** C2, on the code.  For every plaintext and every recipient map,
    [encryptMessage] returns an envelope whose [encryptedKeys] has exactly the
    identities of [recipientPublicKeys] other than [__proto__], one entry
    each, and the entry of such an identity is the session key wrapped under
    that identity's public key.  The identity [__proto__] is left out: the
    assignment [encryptedKeys[userId] = ...] then runs the setter that
    [Object.prototype] holds, which stores nothing.  For a map without that
    identity the two sets of identities are the same. *)
Theorem encrypted_keys_are_the_recipients_but_proto
    (wc : Crypto.WebCrypto) (laws : Crypto.Lawful wc)
    (text : jsstring) (recipientPublicKeys : object Crypto.PublicKey) (w : world)
    (Hobject : NoDup (keys recipientPublicKeys)) :
  exists env w',
    Crypto.encryptMessage text recipientPublicKeys w = (Return env, w')
    /\ NoDup (keys (Crypto.encryptedKeys env))
    /\ (forall userId,
          In userId (keys (Crypto.encryptedKeys env))
          <-> In userId (keys recipientPublicKeys) /\ userId <> lit "__proto__")
    /\ (forall userId publicKey,
          In (userId, publicKey) recipientPublicKeys -> userId <> lit "__proto__" ->
          exists seed c,
            Crypto.rsa_oaep_encrypt publicKey seed (Crypto.session_key_of w) = Some c
            /\ get (Crypto.encryptedKeys env) userId = own (Helpers.base64_of c))
    /\ (~ In (lit "__proto__") (keys recipientPublicKeys) ->
        forall userId,
          In userId (keys (Crypto.encryptedKeys env))
          <-> In userId (keys recipientPublicKeys)).
Proof.
  destruct (encryptMessage_returns text recipientPublicKeys w) as (ks & w' & E & ->).
  do 2 eexists. split; [reflexivity|]. cbn [Crypto.encryptedKeys].
  assert (Hkeys : forall userId,
            In userId (keys ks)
            <-> In userId (keys recipientPublicKeys) /\ userId <> lit "__proto__").
  { intros userId. rewrite (wrap_each_keys _ _ _ _ _ _ E userId). cbn. tauto. }
  split; [|split; [|split]].
  - apply (wrap_each_NoDup _ _ _ _ _ _ E). constructor.
  - exact Hkeys.
  - intros userId publicKey Hin Hp.
    destruct (wrap_each_wraps _ _ _ _ _ _ E Hobject userId publicKey Hin Hp)
      as (seed & c & Hwrap & Hown).
    exists seed, c. split; [exact Hwrap | now apply get_own].
  - intros Hnone userId. rewrite Hkeys. split; [tauto|].
    intros Hin. split; [exact Hin|]. now intros ->.
Qed.

(** The same at a map that has the identity [__proto__] beside alice. *)
Lemma encrypted_keys_are_the_recipients_but_proto_witness :
  let recipients := [(Toy.alice, x0a); (lit "__proto__", x0b)] in
  NoDup (keys recipients)
  /\ exists env w',
       Crypto.encryptMessage (lit "hello") recipients Toy.counting = (Return env, w')
       /\ NoDup (keys (Crypto.encryptedKeys env))
       /\ (forall userId,
             In userId (keys (Crypto.encryptedKeys env))
             <-> In userId (keys recipients) /\ userId <> lit "__proto__")
       /\ (forall userId publicKey,
             In (userId, publicKey) recipients -> userId <> lit "__proto__" ->
             exists seed c,
               Crypto.rsa_oaep_encrypt publicKey seed (Crypto.session_key_of Toy.counting)
                 = Some c
               /\ get (Crypto.encryptedKeys env) userId = own (Helpers.base64_of c))
       /\ (~ In (lit "__proto__") (keys recipients) ->
           forall userId,
             In userId (keys (Crypto.encryptedKeys env)) <-> In userId (keys recipients)).
Proof.
  intros recipients.
  assert (Hobject : NoDup (keys recipients)).
  { repeat constructor; cbn; intuition discriminate. }
  split; [exact Hobject|].
  exact (encrypted_keys_are_the_recipients_but_proto Toy.toy toy_lawful (lit "hello")
           recipients Toy.counting Hobject).
Defined.

(** The failing input of C2, run: of the two recipients alice and
    [__proto__] the envelope names alice alone. *)
Example proto_recipient_is_left_out :
  match fst (Crypto.encryptMessage (lit "hello")
               [(Toy.alice, x0a); (lit "__proto__", x0b)] Toy.counting) with
  | Return env => keys (Crypto.encryptedKeys env)
  | Throw _ => []
  end = [Toy.alice].
Proof. vm_compute. reflexivity. Qed.

(** ** Opening an envelope *)
Section Opening.
Import Crypto Helpers Encoding.
Context {wc : WebCrypto}.

Lemma decryptMessage_no_key content keys ivs sk userId e w :
  encryptedKeyStr keys userId = Throw e ->
  decryptMessage content keys ivs sk userId w = (Throw e, w).
Proof. intros H. unfold decryptMessage. now rewrite H. Qed.

(** After the key is chosen: unwrap, import, decrypt, decode. *)
Lemma decryptMessage_run content keys ivs sk userId keyStr w :
  encryptedKeyStr keys userId = Return keyStr ->
  decryptMessage content keys ivs sk userId w =
    match base64ToArrayBuffer keyStr with
    | Throw e => (Throw e, w)
    | Return wrapped =>
        let w1 := recorded (Decrypt RSA_OAEP) w in
        match rsa_oaep_decrypt sk wrapped with
        | None => (Throw (DOMException OperationError (decrypt_of RSA_OAEP wrapped)), w1)
        | Some rawSessionKey =>
            match importKey_raw rawSessionKey w1 with
            | (Throw e, w2) => (Throw e, w2)
            | (Return sessionKey, w2) =>
                match base64ToArrayBuffer ivs with
                | Throw e => (Throw e, w2)
                | Return ivBytes =>
                    match base64ToArrayBuffer content with
                    | Throw e => (Throw e, w2)
                    | Return contentBytes =>
                        (match aes_gcm_decrypt sessionKey ivBytes contentBytes with
                         | Some m => Return (TextDecoder_decode m)
                         | None =>
                             Throw (DOMException OperationError
                                      (decrypt_of AES_GCM contentBytes))
                         end, recorded (Decrypt AES_GCM) w2)
                    end
                end
            end
        end
    end.
Proof.
  intros H. unfold decryptMessage. rewrite H.
  unfold bind at 1, lift at 1. unfold bind at 1, lift at 1.
  destruct (base64ToArrayBuffer keyStr) as [wrapped|e]; [|reflexivity].
  unfold bind at 1. rewrite decrypt_RSA_run. cbn zeta.
  destruct (rsa_oaep_decrypt sk wrapped) as [raw|]; [|reflexivity].
  unfold bind at 1.
  destruct (importKey_raw raw _) as [[sessionKey|e] w2]; [|reflexivity].
  unfold bind at 1, lift at 1.
  destruct (base64ToArrayBuffer ivs) as [ivBytes|e]; [|reflexivity].
  unfold bind at 1, lift at 1.
  destruct (base64ToArrayBuffer content) as [contentBytes|e]; [|reflexivity].
  unfold bind at 1. rewrite decrypt_AES_run.
  now destruct (aes_gcm_decrypt _ _ _).
Qed.

Lemma importKey_raw_throws data w e w' :
  importKey_raw data w = (Throw e, w') -> e = DOMException DataError (importKey_of data).
Proof.
  unfold importKey_raw, bind, log. cbn zeta.
  destruct (_ || _); unfold ret, throw; intros H; [discriminate|].
  now injection H as <- _.
Qed.

Lemma base64ToArrayBuffer_throws s e :
  base64ToArrayBuffer s = Throw e -> e = DOMException InvalidCharacterError (atob_of s).
Proof.
  unfold base64ToArrayBuffer. destruct (Base64.atob s); intros H; [discriminate|].
  now injection H as <-.
Qed.

(** Every failure of [decryptMessage] other than the missing key is a
    [DOMException] raised by [atob] or by [crypto.subtle]. *)
Lemma decryptMessage_throws content keys ivs sk userId w e w' :
  decryptMessage content keys ivs sk userId w = (Throw e, w') ->
  (encryptedKeyStr keys userId = Throw e /\ w' = w)
  \/ exists name call, e = DOMException name call.
Proof.
  destruct (encryptedKeyStr keys userId) as [keyStr|e0] eqn:E.
  - rewrite (decryptMessage_run _ _ _ _ _ _ _ E). intros H. right.
    destruct (base64ToArrayBuffer keyStr) as [wrapped|e1] eqn:E1.
    2: { injection H as <- _. do 2 eexists. eapply base64ToArrayBuffer_throws, E1. }
    cbn zeta in H.
    destruct (rsa_oaep_decrypt sk wrapped) as [raw|].
    2: { injection H as <- _. now do 2 eexists. }
    destruct (importKey_raw raw _) as [[sessionKey|e2] w2] eqn:E2.
    2: { injection H as <- _. do 2 eexists. eapply importKey_raw_throws, E2. }
    destruct (base64ToArrayBuffer ivs) as [ivBytes|e3] eqn:E3.
    2: { injection H as <- _. do 2 eexists. eapply base64ToArrayBuffer_throws, E3. }
    destruct (base64ToArrayBuffer content) as [contentBytes|e4] eqn:E4.
    2: { injection H as <- _. do 2 eexists. eapply base64ToArrayBuffer_throws, E4. }
    destruct (aes_gcm_decrypt _ _ _); [discriminate|].
    injection H as <- _. now do 2 eexists.
  - rewrite (decryptMessage_no_key _ _ _ _ _ _ _ E). intros H.
    injection H as <- <-. now left.
Qed.

(** The holder of the matching private key recovers the encrypted bytes. *)
Lemma importKey_raw_sized key w :
  List.length key = 16%nat \/ List.length key = 24%nat \/ List.length key = 32%nat ->
  importKey_raw key w = (Return key, recorded ImportKey w).
Proof.
  intros H. unfold importKey_raw, bind, log. cbn zeta.
  now destruct H as [-> | [-> | ->]].
Qed.

(** The holder of the matching private key recovers the encrypted bytes, when
    the cipher opens what it sealed under this key. *)
Lemma decryptMessage_opens_sized {laws : Lawful wc}
    pk sk seed key c nonce data keys userId w :
  key_pair pk sk ->
  List.length key = 16%nat \/ List.length key = 24%nat \/ List.length key = 32%nat ->
  aes_gcm_decrypt key nonce (aes_gcm_encrypt key nonce data) = Some data ->
  rsa_oaep_encrypt pk seed key = Some c ->
  encryptedKeyStr keys userId = Return (base64_of c) ->
  decryptMessage (base64_of (aes_gcm_encrypt key nonce data)) keys (base64_of nonce)
    sk userId w
  = (Return (TextDecoder_decode data),
     recorded (Decrypt AES_GCM) (recorded ImportKey (recorded (Decrypt RSA_OAEP) w))).
Proof.
  intros Hpair Hlen Hopen Hwrap Hsel.
  rewrite (decryptMessage_run _ _ _ _ _ _ _ Hsel).
  rewrite !base64ToArrayBuffer_encode. cbn zeta.
  rewrite (rsa_decrypts pk sk seed key c Hpair Hwrap).
  rewrite (importKey_raw_sized _ _ Hlen).
  now rewrite Hopen.
Qed.

Lemma decryptMessage_opens {laws : Lawful wc} pk sk seed key c nonce data keys userId w :
  key_pair pk sk -> List.length key = 32%nat ->
  rsa_oaep_encrypt pk seed key = Some c ->
  encryptedKeyStr keys userId = Return (base64_of c) ->
  decryptMessage (base64_of (aes_gcm_encrypt key nonce data)) keys (base64_of nonce)
    sk userId w
  = (Return (TextDecoder_decode data),
     recorded (Decrypt AES_GCM) (recorded ImportKey (recorded (Decrypt RSA_OAEP) w))).
Proof.
  intros Hpair Hlen Hwrap Hsel.
  apply (decryptMessage_opens_sized pk sk seed key c); auto.
  now apply aes_decrypts.
Qed.

Lemma encryptedKeyStr_present {laws : Lawful wc} m userId pk seed key c :
  rsa_oaep_encrypt pk seed key = Some c ->
  own_property m userId = Some (Helpers.base64_of c) ->
  encryptedKeyStr (KeyMap m) userId = Return (Helpers.base64_of c).
Proof.
  intros Hwrap Hget. unfold encryptedKeyStr. rewrite (get_own _ _ _ Hget).
  pose proof (encode_nonempty c (rsa_nonempty pk seed key c Hwrap)) as Hb.
  destruct (Helpers.base64_of c); [now destruct Hb | reflexivity].
Qed.

(** The key that is chosen when the holder has no own entry. *)
Lemma encryptedKeyStr_absent m userId :
  own_property m userId = None ->
  encryptedKeyStr (KeyMap m) userId =
    if existsb (str_eqb userId) Object_prototype
    then Return (inherited_text userId)
    else Throw (no_key_error userId).
Proof.
  intros H. unfold encryptedKeyStr, get. rewrite H.
  now destruct (existsb (str_eqb userId) Object_prototype).
Qed.

End Opening.

(** ** C1: round trip *)

(** What a recipient gets back is the plaintext as [TextEncoder] and
    [TextDecoder] carry it. *)
Lemma encrypt_then_decrypt
    (wc : Crypto.WebCrypto) (laws : Crypto.Lawful wc)
    (text : jsstring) (recipientPublicKeys : object Crypto.PublicKey)
    (r : jsstring) (pk : Crypto.PublicKey) (sk : Crypto.PrivateKey) (w w2 : world) :
  NoDup (keys recipientPublicKeys) -> In (r, pk) recipientPublicKeys ->
  r <> lit "__proto__" -> Crypto.key_pair pk sk ->
  exists env w',
    Crypto.encryptMessage text recipientPublicKeys w = (Return env, w')
    /\ fst (Crypto.decryptMessage (Crypto.encryptedContent env)
              (Crypto.KeyMap (Crypto.encryptedKeys env)) (Crypto.iv env) sk r w2)
       = Return (Encoding.TextDecoder_decode (Encoding.TextEncoder_encode text)).
Proof.
  intros Hobject Hr Hidentity Hpair.
  destruct (encryptMessage_returns text recipientPublicKeys w) as (ks & w' & E & ->).
  do 2 eexists. split; [reflexivity|].
  cbn [Crypto.encryptedContent Crypto.encryptedKeys Crypto.iv].
  destruct (wrap_each_wraps _ _ _ _ _ _ E Hobject r pk Hr Hidentity)
    as (seed & c & Hwrap & Hget).
  assert (Hlen : List.length (Crypto.session_key_of w) = 32%nat)
    by apply next_bytes_length.
  erewrite decryptMessage_opens; try eassumption.
  - reflexivity.
  - eapply encryptedKeyStr_present; eassumption.
Qed.

(** C1, as the code has it.  For every well-formed plaintext that does not
    begin with U+FEFF, every recipient object with valid keys and every
    recipient [r] of it that holds the matching private key and whose identity
    is not the string [__proto__], [encryptMessage] returns an envelope, and
    [decryptMessage] on its three fields with the private key and the
    identity of [r] returns exactly the plaintext. *)
Theorem round_trip
    (wc : Crypto.WebCrypto) (laws : Crypto.Lawful wc)
    (text : jsstring) (recipientPublicKeys : object Crypto.PublicKey)
    (r : jsstring) (pk : Crypto.PublicKey) (sk : Crypto.PrivateKey) (w w2 : world)
    (Hwf : Encoding.isWellFormed text = true)
    (Hbom : hd_error text <> Some 0xFEFF)
    (Hobject : NoDup (keys recipientPublicKeys))
    (Hr : In (r, pk) recipientPublicKeys)
    (Hidentity : r <> lit "__proto__")
    (Hpair : Crypto.key_pair pk sk) :
  exists env w',
    Crypto.encryptMessage text recipientPublicKeys w = (Return env, w')
    /\ fst (Crypto.decryptMessage (Crypto.encryptedContent env)
              (Crypto.KeyMap (Crypto.encryptedKeys env)) (Crypto.iv env) sk r w2)
       = Return text.
Proof.
  destruct (encrypt_then_decrypt wc laws text recipientPublicKeys r pk sk w w2
              Hobject Hr Hidentity Hpair) as (env & w' & E & D).
  exists env, w'. split; [exact E|]. now rewrite D, decode_encode.
Qed.

Lemma round_trip_witness :
  Encoding.isWellFormed (lit "hello") = true
  /\ hd_error (lit "hello") <> Some 0xFEFF
  /\ NoDup (keys Toy.recipients)
  /\ In (Toy.alice, x0a) Toy.recipients
  /\ Toy.alice <> lit "__proto__"
  /\ Crypto.key_pair (WebCrypto := Toy.toy) x0a x0a
  /\ exists env w',
       Crypto.encryptMessage (lit "hello") Toy.recipients Toy.counting = (Return env, w')
       /\ fst (Crypto.decryptMessage (Crypto.encryptedContent env)
                 (Crypto.KeyMap (Crypto.encryptedKeys env)) (Crypto.iv env)
                 x0a Toy.alice Toy.counting)
          = Return (lit "hello").
Proof.
  assert (H1 : Encoding.isWellFormed (lit "hello") = true) by reflexivity.
  assert (H2 : hd_error (lit "hello") <> Some 0xFEFF) by discriminate.
  assert (H3 : NoDup (keys Toy.recipients))
    by (repeat constructor; cbn; intuition discriminate).
  assert (H4 : In (Toy.alice, x0a) Toy.recipients) by (now left).
  assert (H5 : Toy.alice <> lit "__proto__") by discriminate.
  assert (H6 : Crypto.key_pair (WebCrypto := Toy.toy) x0a x0a) by reflexivity.
  split; [exact H1|]. split; [exact H2|]. split; [exact H3|].
  split; [exact H4|]. split; [exact H5|]. split; [exact H6|].
  exact (round_trip Toy.toy toy_lawful (lit "hello") Toy.recipients Toy.alice
           x0a x0a Toy.counting Toy.counting H1 H2 H3 H4 H5 H6).
Defined.

(** C1 as stated fails: a plaintext that is one lone surrogate, encrypted for
    alice and bob and decrypted by alice, comes back as U+FFFD. *)
Lemma lone_surrogate_is_not_recovered :
  exists env w',
    Crypto.encryptMessage [0xD800] Toy.recipients Toy.counting = (Return env, w')
    /\ fst (Crypto.decryptMessage (Crypto.encryptedContent env)
              (Crypto.KeyMap (Crypto.encryptedKeys env)) (Crypto.iv env)
              x0a Toy.alice Toy.counting)
       = Return [0xFFFD]
    /\ Return [0xFFFD] <> Return [0xD800].
Proof.
  destruct (encrypt_then_decrypt Toy.toy toy_lawful [0xD800] Toy.recipients
              Toy.alice x0a x0a Toy.counting Toy.counting) as (env & w' & E & D).
  - repeat constructor; cbn; intuition discriminate.
  - now left.
  - discriminate.
  - reflexivity.
  - exists env, w'. split; [exact E|]. split; [exact D | discriminate].
Qed.

(** The recipient whose identity is [__proto__]: the envelope has no entry
    for it (see C2), the read [encryptedKeys[userId]] yields the prototype
    object, and [atob] rejects its text. *)
Example proto_recipient_cannot_read :
  match fst (Crypto.encryptMessage (lit "hello")
               [(Toy.alice, x0a); (lit "__proto__", x0b)] Toy.counting) with
  | Return env =>
      fst (Crypto.decryptMessage (Crypto.encryptedContent env)
             (Crypto.KeyMap (Crypto.encryptedKeys env)) (Crypto.iv env)
             x0b (lit "__proto__") Toy.counting)
  | Throw e => Throw e
  end
  = Throw (DOMException InvalidCharacterError (atob_of (lit "[object Object]"))).
Proof. vm_compute. reflexivity. Qed.

(** ** C3: the recipient map never makes the call fail *)

(** C3, as the code has it.  For every recipient map of valid keys, empty or
    not, [encryptMessage] returns an envelope; for the empty map the envelope
    has no wrapped key. *)
Theorem encryptMessage_never_fails
    (wc : Crypto.WebCrypto) (laws : Crypto.Lawful wc)
    (text : jsstring) (recipientPublicKeys : object Crypto.PublicKey) (w : world) :
  exists env w',
    Crypto.encryptMessage text recipientPublicKeys w = (Return env, w')
    /\ (recipientPublicKeys = [] -> Crypto.encryptedKeys env = []).
Proof.
  destruct (encryptMessage_returns text recipientPublicKeys w) as (ks & w' & E & ->).
  do 2 eexists. split; [reflexivity|]. intros ->.
  cbn in E. unfold ret in E. now injection E as <- _.
Qed.

Lemma encryptMessage_never_fails_witness :
  Crypto.Lawful Toy.toy
  /\ exists env w',
       Crypto.encryptMessage (lit "hello") Toy.recipients Toy.counting = (Return env, w')
       /\ (Toy.recipients = [] -> Crypto.encryptedKeys env = []).
Proof.
  split; [exact toy_lawful|].
  exact (encryptMessage_never_fails Toy.toy toy_lawful (lit "hello")
           Toy.recipients Toy.counting).
Defined.

(** C3 as stated fails: for the empty recipient map the call does not fail, it
    returns an envelope with an empty [encryptedKeys]. *)
Lemma empty_recipients_return_an_envelope :
  (exists env,
     fst (Crypto.encryptMessage (lit "hello") ([] : object byte) Toy.counting)
       = Return env
     /\ Crypto.encryptedKeys env = [])
  /\ forall e,
       fst (Crypto.encryptMessage (lit "hello") ([] : object byte) Toy.counting)
         <> Throw e.
Proof.
  rewrite encryptMessage_run. cbn [Crypto.wrap_each]. unfold ret. cbn [fst].
  split; [|discriminate]. eexists. split; reflexivity.
Qed.

(** ** C4: no key for the holder *)
Section MissingKey.
Import Crypto Helpers.
Context {wc : WebCrypto}.

(** [atob] rejects the text of every value that [Object.prototype] holds. *)
Lemma inherited_text_is_not_base64 name :
  In name Object_prototype ->
  base64ToArrayBuffer (inherited_text name)
  = Throw (DOMException InvalidCharacterError (atob_of (inherited_text name))).
Proof.
  intros H. cbn in H.
  repeat (destruct H as [<-|H]; [vm_compute; reflexivity|]). destruct H.
Qed.

Lemma decryptMessage_inherited content m ivs sk userId w :
  own_property m userId = None -> In userId Object_prototype ->
  decryptMessage content (KeyMap m) ivs sk userId w
  = (Throw (DOMException InvalidCharacterError (atob_of (inherited_text userId))), w).
Proof.
  intros Hown Hin.
  assert (Hsel : encryptedKeyStr (KeyMap m) userId = Return (inherited_text userId)).
  { unfold encryptedKeyStr. now rewrite (get_inherited _ _ Hown Hin). }
  rewrite (decryptMessage_run _ _ _ _ _ _ _ Hsel).
  now rewrite (inherited_text_is_not_base64 _ Hin).
Qed.

Lemma decryptMessage_undefined content m ivs sk userId w :
  own_property m userId = None -> ~ In userId Object_prototype ->
  decryptMessage content (KeyMap m) ivs sk userId w
  = (Throw (no_key_error userId), w).
Proof.
  intros Hown Hout. apply decryptMessage_no_key.
  unfold encryptedKeyStr. now rewrite (get_plain _ _ Hout), Hown.
Qed.

(** The error of the missing key comes from the guard and from nowhere
    else. *)
Lemma no_key_error_origin content keys ivs sk userId w e w' :
  decryptMessage content keys ivs sk userId w = (Throw e, w') ->
  (e = no_key_error userId /\ encryptedKeyStr keys userId = Throw e /\ w' = w)
  \/ exists name call, e = DOMException name call.
Proof.
  intros H.
  destruct (decryptMessage_throws _ _ _ _ _ _ _ _ H) as [[Hsel ->]|Hdom];
    [left | now right].
  repeat split; try assumption.
  unfold encryptedKeyStr in Hsel. destruct keys as [s|m]; [discriminate|].
  destruct (get m userId) as [|s|name]; [|destruct (truthy_string s)|];
    try discriminate; now injection Hsel as <-.
Qed.

End MissingKey.

(** C4, on the code.  An envelope whose [encryptedKeys] is a mapping and a
    holder identity that is not a key of it.  When the identity names no
    property of [Object.prototype], [decryptMessage] throws the error
    "No encrypted key found for user ..." and leaves the world as it was: no
    call to [crypto.subtle] is made and no plaintext is produced.  When it
    names one ("toString", "constructor", "__proto__", ...), the read
    [encryptedKeys[userId]] yields the inherited value, the guard lets it
    through and [atob] rejects its text: the call ends in the
    InvalidCharacterError, again before any call to [crypto.subtle].  The
    error of the missing key is told apart from every other failure of
    [decryptMessage]: those are [DOMException]s. *)
Theorem missing_key_or_inherited_property
    (wc : Crypto.WebCrypto)
    (encryptedContent iv userId : jsstring) (encryptedKeys : object jsstring)
    (privateKey : Crypto.PrivateKey) (w : world)
    (Habsent : ~ In userId (keys encryptedKeys)) :
  (~ In userId Object_prototype ->
   Crypto.decryptMessage encryptedContent (Crypto.KeyMap encryptedKeys) iv privateKey
     userId w
   = (Throw (Error (lit "No encrypted key found for user " ++ userId)), w))
  /\ (In userId Object_prototype ->
      Crypto.decryptMessage encryptedContent (Crypto.KeyMap encryptedKeys) iv privateKey
        userId w
      = (Throw (DOMException InvalidCharacterError (atob_of (inherited_text userId))), w))
  /\ forall content' keys' iv' sk' userId' w1 e w2,
       Crypto.decryptMessage content' keys' iv' sk' userId' w1 = (Throw e, w2) ->
       (e = Error (lit "No encrypted key found for user " ++ userId')
        /\ Crypto.encryptedKeyStr keys' userId' = Throw e /\ w2 = w1)
       \/ exists name call, e = DOMException name call.
Proof.
  apply own_property_None in Habsent. split; [|split].
  - intros Hout. now apply decryptMessage_undefined.
  - intros Hin. now apply decryptMessage_inherited.
  - intros content' keys' iv' sk' userId' w1 e w2 H.
    exact (no_key_error_origin _ _ _ _ _ _ _ _ H).
Qed.

(** The failing input of C4: the holder named "toString", who has no entry. *)
Lemma missing_key_or_inherited_property_witness :
  let encryptedKeys := [(Toy.alice, lit "QUJD"); (Toy.bob, lit "REVG")] in
  ~ In (lit "toString") (keys encryptedKeys)
  /\ Crypto.decryptMessage (lit "AAAA") (Crypto.KeyMap encryptedKeys) (lit "AAAA")
       x0c (lit "toString") Toy.counting
     = (Throw (DOMException InvalidCharacterError
                 (atob_of (lit "function toString() { [native code] }"))),
        Toy.counting).
Proof.
  intros encryptedKeys.
  assert (H : ~ In (lit "toString") (keys encryptedKeys))
    by (cbn; intuition discriminate).
  split; [exact H|].
  apply (proj1 (proj2 (missing_key_or_inherited_property Toy.toy (lit "AAAA")
                         (lit "AAAA") (lit "toString") encryptedKeys x0c Toy.counting
                         H))).
  cbn. tauto.
Defined.

(** A holder with an ordinary identity and no entry gets the error of the
    missing key. *)
Example carol_has_no_key :
  Crypto.decryptMessage (lit "AAAA")
    (Crypto.KeyMap [(Toy.alice, lit "QUJD"); (Toy.bob, lit "REVG")]) (lit "AAAA")
    x0c Toy.carol Toy.counting
  = (Throw (Error (lit "No encrypted key found for user carol")), Toy.counting).
Proof. reflexivity. Qed.

(** ** C5: the legacy envelope *)

(** What every holder identity gets from a legacy envelope wrapped for the
    holder's key pair: the text that the encrypted bytes decode to. *)
Lemma legacy_envelope_opens
    (wc : Crypto.WebCrypto) (laws : Crypto.Lawful wc) (sizes : Crypto.LawfulKeySizes wc)
    (pk : Crypto.PublicKey) (sk : Crypto.PrivateKey)
    (seed key wrapped nonce data : list byte) (userId : jsstring) (w : world) :
  Crypto.key_pair pk sk ->
  List.length key = 16%nat \/ List.length key = 24%nat \/ List.length key = 32%nat ->
  Crypto.rsa_oaep_encrypt pk seed key = Some wrapped ->
  fst (Crypto.decryptMessage
         (Helpers.base64_of (Crypto.aes_gcm_encrypt key nonce data))
         (Crypto.Legacy (Helpers.base64_of wrapped)) (Helpers.base64_of nonce)
         sk userId w)
  = Return (Encoding.TextDecoder_decode data).
Proof.
  intros Hpair Hkey Hwrap.
  erewrite decryptMessage_opens_sized; try eassumption; try reflexivity.
  now apply Crypto.aes_decrypts_any.
Qed.

(** C5, as the code has it.  A legacy envelope (its [encryptedKeys] a single
    string) of a well-formed plaintext that does not begin with U+FEFF, the
    string being the session key wrapped for the holder's key pair:
    [decryptMessage] takes the string as the wrapped key and returns the
    plaintext, whatever [userId] is.  In the legacy branch [userId] is not
    read at all: two calls that differ in it alone complete alike, on every
    input. *)
Theorem legacy_envelope_ignores_user
    (wc : Crypto.WebCrypto) (laws : Crypto.Lawful wc) (sizes : Crypto.LawfulKeySizes wc)
    (pk : Crypto.PublicKey) (sk : Crypto.PrivateKey)
    (seed key wrapped nonce : list byte) (text : jsstring) (w : world)
    (Hwf : Encoding.isWellFormed text = true)
    (Hbom : hd_error text <> Some 0xFEFF)
    (Hpair : Crypto.key_pair pk sk)
    (Hkey : List.length key = 16%nat \/ List.length key = 24%nat
            \/ List.length key = 32%nat)
    (Hwrap : Crypto.rsa_oaep_encrypt pk seed key = Some wrapped) :
  let content :=
    Helpers.base64_of (Crypto.aes_gcm_encrypt key nonce (Encoding.TextEncoder_encode text)) in
  let keyStr := Helpers.base64_of wrapped in
  let iv := Helpers.base64_of nonce in
  (forall userId,
     fst (Crypto.decryptMessage content (Crypto.Legacy keyStr) iv sk userId w)
     = Return text)
  /\ (forall content' s iv' sk' userId userId' w',
        Crypto.decryptMessage content' (Crypto.Legacy s) iv' sk' userId w'
        = Crypto.decryptMessage content' (Crypto.Legacy s) iv' sk' userId' w').
Proof.
  intros content keyStr iv. split.
  - intros userId. unfold content, keyStr, iv.
    rewrite (legacy_envelope_opens wc laws sizes pk sk seed key wrapped nonce _ userId w
               Hpair Hkey Hwrap).
    now rewrite decode_encode.
  - reflexivity.
Qed.

Lemma legacy_envelope_ignores_user_witness :
  let key := Crypto.session_key_of Toy.counting in
  let nonce := Crypto.nonce_of Toy.counting in
  Encoding.isWellFormed (lit "hello") = true
  /\ hd_error (lit "hello") <> Some 0xFEFF
  /\ Crypto.key_pair (WebCrypto := Toy.toy) x0a x0a
  /\ (List.length key = 16%nat \/ List.length key = 24%nat \/ List.length key = 32%nat)
  /\ Crypto.rsa_oaep_encrypt (WebCrypto := Toy.toy) x0a [] key = Some (x0a :: key)
  /\ forall userId,
       fst (Crypto.decryptMessage
              (Helpers.base64_of
                 (Crypto.aes_gcm_encrypt key nonce
                    (Encoding.TextEncoder_encode (lit "hello"))))
              (Crypto.Legacy (Helpers.base64_of (x0a :: key)))
              (Helpers.base64_of nonce) x0a userId Toy.counting)
       = Return (lit "hello").
Proof.
  intros key nonce.
  assert (H1 : Encoding.isWellFormed (lit "hello") = true) by reflexivity.
  assert (H2 : hd_error (lit "hello") <> Some 0xFEFF) by discriminate.
  assert (H3 : Crypto.key_pair (WebCrypto := Toy.toy) x0a x0a) by reflexivity.
  assert (H4 : List.length key = 16%nat \/ List.length key = 24%nat
               \/ List.length key = 32%nat) by (right; right; reflexivity).
  assert (H5 : Crypto.rsa_oaep_encrypt (WebCrypto := Toy.toy) x0a [] key
               = Some (x0a :: key)) by reflexivity.
  split; [exact H1|]. split; [exact H2|]. split; [exact H3|].
  split; [exact H4|]. split; [exact H5|].
  exact (proj1
    (legacy_envelope_ignores_user Toy.toy toy_lawful toy_key_sizes x0a x0a [] key
       (x0a :: key) nonce (lit "hello") Toy.counting H1 H2 H3 H4 H5)).
Defined.

(** C5 as stated fails: the legacy envelope of a plaintext that is one lone
    surrogate, wrapped for the holder, gives every holder identity U+FFFD
    and not the plaintext. *)
Lemma legacy_lone_surrogate_is_not_recovered :
  let key := Crypto.session_key_of Toy.counting in
  let nonce := Crypto.nonce_of Toy.counting in
  Crypto.key_pair (WebCrypto := Toy.toy) x0a x0a
  /\ Crypto.rsa_oaep_encrypt (WebCrypto := Toy.toy) x0a [] key = Some (x0a :: key)
  /\ forall userId,
       fst (Crypto.decryptMessage
              (Helpers.base64_of
                 (Crypto.aes_gcm_encrypt key nonce (Encoding.TextEncoder_encode [0xD800])))
              (Crypto.Legacy (Helpers.base64_of (x0a :: key)))
              (Helpers.base64_of nonce) x0a userId Toy.counting)
       = Return [0xFFFD]
       /\ Return [0xFFFD] <> Return [0xD800].
Proof.
  intros key nonce. split; [reflexivity|]. split; [reflexivity|].
  intros userId. split; [|discriminate].
  rewrite (legacy_envelope_opens Toy.toy toy_lawful toy_key_sizes x0a x0a [] key
             (x0a :: key) nonce _ userId Toy.counting);
    [reflexivity | reflexivity | right; right; reflexivity | reflexivity].
Qed.

(** ** C6: a fresh nonce gives a fresh envelope *)
Section Freshness.
Import Crypto.
Context {wc : WebCrypto} {laws : Lawful wc}.

(** The [iv] field tells the nonce, whatever the cipher does. *)
Lemma iv_determines_nonce text R w1 w2 env1 env2 w1' w2' :
  encryptMessage text R w1 = (Return env1, w1') ->
  encryptMessage text R w2 = (Return env2, w2') ->
  iv env1 = iv env2 -> nonce_of w1 = nonce_of w2.
Proof.
  destruct (encryptMessage_returns text R w1) as (k1 & u1 & _ & ->).
  destruct (encryptMessage_returns text R w2) as (k2 & u2 & _ & ->).
  intros E1 E2. injection E1 as <- _. injection E2 as <- _.
  cbn [iv]. apply encode_injective.
Qed.

(** The [encryptedContent] field tells the output of the cipher, and no
    more. *)
Lemma content_determines_ciphertext text R w1 w2 env1 env2 w1' w2' :
  encryptMessage text R w1 = (Return env1, w1') ->
  encryptMessage text R w2 = (Return env2, w2') ->
  encryptedContent env1 = encryptedContent env2
  <-> aes_gcm_encrypt (session_key_of w1) (nonce_of w1) (Encoding.TextEncoder_encode text)
      = aes_gcm_encrypt (session_key_of w2) (nonce_of w2) (Encoding.TextEncoder_encode text).
Proof.
  destruct (encryptMessage_returns text R w1) as (k1 & u1 & _ & ->).
  destruct (encryptMessage_returns text R w2) as (k2 & u2 & _ & ->).
  intros E1 E2. injection E1 as <- _. injection E2 as <- _.
  cbn [encryptedContent]. split; [apply encode_injective | now intros ->].
Qed.

End Freshness.

(** The implementation of AES-GCM above, on vectors of the standards:
    FIPS 197, appendix C.3, and the test cases 13 and 14 of the GCM
    specification (256-bit key). *)
Example aes_256_of_fips_197 :
  map to_uint8
    (AES.Cipher
       (map Byte.to_N
          (Toy.hex "000102030405060708090a0b0c0d0e0f101112131415161718191a1b1c1d1e1f"))
       (map Byte.to_N (Toy.hex "00112233445566778899aabbccddeeff")))
  = Toy.hex "8ea2b7ca516745bfeafc49904b496089".
Proof. vm_compute. reflexivity. Qed.

Example aes_gcm_test_case_13 :
  Crypto.aes_gcm_encrypt (WebCrypto := Toy.with_aes_gcm)
    (repeat x00 32) (repeat x00 12) []
  = Toy.hex "530f8afbc74536b9a963b4f1c4cb738b".
Proof. vm_compute. reflexivity. Qed.

Example aes_gcm_test_case_14 :
  Crypto.aes_gcm_encrypt (WebCrypto := Toy.with_aes_gcm)
    (repeat x00 32) (repeat x00 12) (repeat x00 16)
  = Toy.hex "cea7403d4d606b6e074ec5d3baf39d18d0d1c8a799996bf0265b98b5d48ab919"
  /\ Crypto.aes_gcm_decrypt (WebCrypto := Toy.with_aes_gcm)
       (repeat x00 32) (repeat x00 12)
       (Toy.hex "cea7403d4d606b6e074ec5d3baf39d18d0d1c8a799996bf0265b98b5d48ab919")
     = Some (repeat x00 16)
  /\ Crypto.aes_gcm_decrypt (WebCrypto := Toy.with_aes_gcm)
       (repeat x00 32) (repeat x00 12)
       (Toy.hex "cea7403d4d606b6e074ec5d3baf39d18d0d1c8a799996bf0265b98b5d48ab918")
     = None.
Proof. vm_compute. repeat split. Qed.

(** C6, as the code has it.  Two calls of [encryptMessage] on the same
    plaintext and the same recipient map, made in worlds whose random source
    yields different nonces, return envelopes whose [iv] fields differ.  Their
    [encryptedContent] fields are the outputs of AES-GCM under the two fresh
    pairs of key and nonce: they differ exactly when those outputs differ, and
    so whenever the key and nonce of the second call do not open the
    ciphertext of the first. *)
Theorem fresh_nonce_gives_fresh_iv
    (wc : Crypto.WebCrypto) (laws : Crypto.Lawful wc)
    (text : jsstring) (recipientPublicKeys : object Crypto.PublicKey) (w1 w2 : world)
    (Hfresh : Crypto.nonce_of w1 <> Crypto.nonce_of w2) :
  let data := Encoding.TextEncoder_encode text in
  let sealed1 := Crypto.aes_gcm_encrypt (Crypto.session_key_of w1) (Crypto.nonce_of w1) data in
  let sealed2 := Crypto.aes_gcm_encrypt (Crypto.session_key_of w2) (Crypto.nonce_of w2) data in
  exists env1 env2 w1' w2',
    Crypto.encryptMessage text recipientPublicKeys w1 = (Return env1, w1')
    /\ Crypto.encryptMessage text recipientPublicKeys w2 = (Return env2, w2')
    /\ Crypto.iv env1 <> Crypto.iv env2
    /\ (Crypto.encryptedContent env1 = Crypto.encryptedContent env2 <-> sealed1 = sealed2)
    /\ (Crypto.aes_gcm_decrypt (Crypto.session_key_of w2) (Crypto.nonce_of w2) sealed1 = None ->
        Crypto.encryptedContent env1 <> Crypto.encryptedContent env2).
Proof.
  intros data sealed1 sealed2.
  destruct (encryptMessage_returns text recipientPublicKeys w1) as (k1 & w1' & _ & E1).
  destruct (encryptMessage_returns text recipientPublicKeys w2) as (k2 & w2' & _ & E2).
  pose proof (content_determines_ciphertext _ _ _ _ _ _ _ _ E1 E2) as Hcontent.
  do 4 eexists. split; [exact E1|]. split; [exact E2|]. split; [|split].
  - intros H. apply Hfresh. exact (iv_determines_nonce _ _ _ _ _ _ _ _ E1 E2 H).
  - exact Hcontent.
  - intros Hrejected Hsame. apply Hcontent in Hsame.
    fold data in Hsame. fold sealed1 sealed2 in Hsame.
    rewrite Hsame in Hrejected. unfold sealed2 in Hrejected.
    rewrite Crypto.aes_decrypts in Hrejected by apply next_bytes_length.
    discriminate.
Qed.

Lemma fresh_nonce_gives_fresh_iv_witness :
  Crypto.nonce_of Toy.counting <> Crypto.nonce_of (consumed 100 Toy.counting)
  /\ exists env1 env2 w1' w2',
       Crypto.encryptMessage (lit "hello") Toy.recipients Toy.counting
         = (Return env1, w1')
       /\ Crypto.encryptMessage (lit "hello") Toy.recipients (consumed 100 Toy.counting)
          = (Return env2, w2')
       /\ Crypto.iv env1 <> Crypto.iv env2.
Proof.
  assert (H : Crypto.nonce_of Toy.counting <> Crypto.nonce_of (consumed 100 Toy.counting))
    by (vm_compute; discriminate).
  split; [exact H|].
  destruct (fresh_nonce_gives_fresh_iv Toy.toy toy_lawful (lit "hello") Toy.recipients
              Toy.counting (consumed 100 Toy.counting) H)
    as (env1 & env2 & w1' & w2' & E1 & E2 & Hiv & _).
  exists env1, env2, w1', w2'. split; [exact E1|]. split; [exact E2 | exact Hiv].
Defined.

(** C6 as stated fails.  The empty plaintext, sealed by AES-GCM, is its
    16-byte tag, and distinct pairs of key and nonce share tags.  Here are two
    calls of [encryptMessage] on the empty string, for alice and bob, whose
    random sources yield different session keys and different nonces: the
    [iv] fields differ and the [encryptedContent] fields are the same. *)
Lemma fresh_key_and_nonce_same_content :
  let first :=
    Toy.tape (Toy.hex "000102030405060708090a0b0c0d0e0f101112131415161718191a1b1c1d1e1f"
              ++ Toy.hex "00000000d2f2c42000000000") in
  let second :=
    Toy.tape (Toy.hex "202122232425262728292a2b2c2d2e2f303132333435363738393a3b3c3d3e3f"
              ++ Toy.hex "5d2e5d7487b7361941026170") in
  Crypto.session_key_of first <> Crypto.session_key_of second
  /\ Crypto.nonce_of first <> Crypto.nonce_of second
  /\ exists env1 env2,
       fst (Crypto.encryptMessage (wc := Toy.with_aes_gcm) [] Toy.recipients first)
         = Return env1
       /\ fst (Crypto.encryptMessage (wc := Toy.with_aes_gcm) [] Toy.recipients second)
          = Return env2
       /\ Crypto.iv env1 <> Crypto.iv env2
       /\ Crypto.encryptedContent env1 = lit "WwKFwlCMNTKIR62ph5Vz7g=="
       /\ Crypto.encryptedContent env2 = lit "WwKFwlCMNTKIR62ph5Vz7g==".
Proof.
  intros first second.
  split; [vm_compute; discriminate|]. split; [vm_compute; discriminate|].
  do 2 eexists. split; [vm_compute; reflexivity|]. split; [vm_compute; reflexivity|].
  cbn [Crypto.iv Crypto.encryptedContent].
  split; [discriminate|]. split; reflexivity.
Qed.

(** ** C8: unwrapping with another recipient's private key *)
Section Isolation.
Import Crypto Helpers.
Context {wc : WebCrypto}.

Lemma decryptMessage_rejected_key skB c keys userId content ivs w :
  encryptedKeyStr keys userId = Return (Helpers.base64_of c) ->
  rsa_oaep_decrypt skB c = None ->
  decryptMessage content keys ivs skB userId w
  = (Throw (DOMException OperationError (decrypt_of RSA_OAEP c)),
     recorded (Decrypt RSA_OAEP) w).
Proof.
  intros Hsel Hrejected. rewrite (decryptMessage_run _ _ _ _ _ _ _ Hsel).
  rewrite base64ToArrayBuffer_encode. cbn zeta. now rewrite Hrejected.
Qed.

Lemma decryptMessage_bad_content
    content keys ivs sk userId w keyStr wrapped key ivBytes contentBytes :
  encryptedKeyStr keys userId = Return keyStr ->
  base64ToArrayBuffer keyStr = Return wrapped ->
  rsa_oaep_decrypt sk wrapped = Some key ->
  List.length key = 16%nat \/ List.length key = 24%nat \/ List.length key = 32%nat ->
  base64ToArrayBuffer ivs = Return ivBytes ->
  base64ToArrayBuffer content = Return contentBytes ->
  aes_gcm_decrypt key ivBytes contentBytes = None ->
  fst (decryptMessage content keys ivs sk userId w)
  = Throw (DOMException OperationError (decrypt_of AES_GCM contentBytes)).
Proof.
  intros Hsel Hb Hrsa Hlen Hiv Hc Haes.
  rewrite (decryptMessage_run _ _ _ _ _ _ _ Hsel), Hb. cbn zeta.
  now rewrite Hrsa, (importKey_raw_sized _ _ Hlen), Hiv, Hc, Haes.
Qed.

(** A text is returned only after both primitives accepted: RSA-OAEP the
    wrapped key, AES-GCM the body under the key that came out. *)
Lemma decryptMessage_returns_checked content keys ivs sk userId w t w' :
  decryptMessage content keys ivs sk userId w = (Return t, w') ->
  exists keyStr wrapped key ivBytes contentBytes data,
    encryptedKeyStr keys userId = Return keyStr
    /\ base64ToArrayBuffer keyStr = Return wrapped
    /\ rsa_oaep_decrypt sk wrapped = Some key
    /\ base64ToArrayBuffer ivs = Return ivBytes
    /\ base64ToArrayBuffer content = Return contentBytes
    /\ aes_gcm_decrypt key ivBytes contentBytes = Some data
    /\ t = Encoding.TextDecoder_decode data.
Proof.
  destruct (encryptedKeyStr keys userId) as [keyStr|e] eqn:E.
  2: { rewrite (decryptMessage_no_key _ _ _ _ _ _ _ E). discriminate. }
  rewrite (decryptMessage_run _ _ _ _ _ _ _ E).
  destruct (base64ToArrayBuffer keyStr) as [wrapped|e1] eqn:E1; [|discriminate].
  cbn zeta. destruct (rsa_oaep_decrypt sk wrapped) as [raw|] eqn:E2; [|discriminate].
  unfold importKey_raw, bind, log. cbn zeta.
  destruct (_ || _); unfold ret, throw; [|discriminate].
  destruct (base64ToArrayBuffer ivs) as [ivBytes|e3] eqn:E3; [|discriminate].
  destruct (base64ToArrayBuffer content) as [contentBytes|e4] eqn:E4; [|discriminate].
  destruct (aes_gcm_decrypt raw ivBytes contentBytes) as [data|] eqn:E5; [|discriminate].
  intros H. injection H as <- _.
  exists keyStr, wrapped, raw, ivBytes, contentBytes, data. repeat split; assumption.
Qed.

End Isolation.

(** C8, as the code has it.  [decryptMessage] with a private key under which
    RSA-OAEP rejects the chosen wrapped key, as it does when the key was
    wrapped under the public key of another pair: the RSA-OAEP decryption is
    the only call made to [crypto.subtle], and [decryptMessage] throws what
    that call rejected with, the platform's OperationError; no key is
    imported, no content is decrypted and no plaintext is returned.  The code
    has no error of its own for this case: a body that fails AES-GCM
    authentication ends in a [DOMException] of the same name.  On every
    input, a text is returned only when RSA-OAEP accepted the wrapped key and
    AES-GCM authenticated the body under the key that came out of it. *)
Theorem unwrap_with_other_key_fails
    (wc : Crypto.WebCrypto)
    (skB : Crypto.PrivateKey) (c : list byte) (keys : Crypto.keys_field)
    (userId content iv : jsstring) (w : world)
    (Hsel : Crypto.encryptedKeyStr keys userId = Return (Helpers.base64_of c))
    (Hrejected : Crypto.rsa_oaep_decrypt skB c = None) :
  Crypto.decryptMessage content keys iv skB userId w
  = (Throw (DOMException OperationError (decrypt_of RSA_OAEP c)),
     recorded (Decrypt RSA_OAEP) w)
  /\ (forall content' keys' iv' sk' userId' w' keyStr wrapped key' ivBytes contentBytes,
       Crypto.encryptedKeyStr keys' userId' = Return keyStr ->
       Helpers.base64ToArrayBuffer keyStr = Return wrapped ->
       Crypto.rsa_oaep_decrypt sk' wrapped = Some key' ->
       List.length key' = 16%nat \/ List.length key' = 24%nat \/ List.length key' = 32%nat ->
       Helpers.base64ToArrayBuffer iv' = Return ivBytes ->
       Helpers.base64ToArrayBuffer content' = Return contentBytes ->
       Crypto.aes_gcm_decrypt key' ivBytes contentBytes = None ->
       fst (Crypto.decryptMessage content' keys' iv' sk' userId' w')
       = Throw (DOMException OperationError (decrypt_of AES_GCM contentBytes)))
  /\ (forall content' keys' iv' sk' userId' w' text w'',
        Crypto.decryptMessage content' keys' iv' sk' userId' w' = (Return text, w'') ->
        exists keyStr wrapped key' ivBytes contentBytes data,
          Crypto.encryptedKeyStr keys' userId' = Return keyStr
          /\ Helpers.base64ToArrayBuffer keyStr = Return wrapped
          /\ Crypto.rsa_oaep_decrypt sk' wrapped = Some key'
          /\ Helpers.base64ToArrayBuffer iv' = Return ivBytes
          /\ Helpers.base64ToArrayBuffer content' = Return contentBytes
          /\ Crypto.aes_gcm_decrypt key' ivBytes contentBytes = Some data
          /\ text = Encoding.TextDecoder_decode data).
Proof.
  split; [|split].
  - now apply decryptMessage_rejected_key.
  - intros. eapply decryptMessage_bad_content; eauto.
  - intros content' keys' iv' sk' userId' w' text w'' H.
    exact (decryptMessage_returns_checked _ _ _ _ _ _ _ _ H).
Qed.

(** Bob's private key on the session key wrapped for alice. *)
Lemma unwrap_with_other_key_fails_witness :
  ~ Crypto.key_pair (WebCrypto := Toy.toy) x0a x0b
  /\ Crypto.rsa_oaep_encrypt (WebCrypto := Toy.toy) x0a [] [x01; x02] = Some [x0a; x01; x02]
  /\ Crypto.encryptedKeyStr (Crypto.KeyMap [(Toy.alice, lit "CgEC")]) Toy.alice
     = Return (Helpers.base64_of [x0a; x01; x02])
  /\ Crypto.rsa_oaep_decrypt (WebCrypto := Toy.toy) x0b [x0a; x01; x02] = None
  /\ Crypto.decryptMessage (lit "AAAA") (Crypto.KeyMap [(Toy.alice, lit "CgEC")])
       (lit "AAAA") x0b Toy.alice Toy.counting
     = (Throw (DOMException OperationError (decrypt_of RSA_OAEP [x0a; x01; x02])),
        recorded (Decrypt RSA_OAEP) Toy.counting).
Proof.
  assert (H1 : ~ Crypto.key_pair (WebCrypto := Toy.toy) x0a x0b) by discriminate.
  assert (H2 : Crypto.rsa_oaep_encrypt (WebCrypto := Toy.toy) x0a [] [x01; x02]
               = Some [x0a; x01; x02]) by reflexivity.
  assert (H3 : Crypto.encryptedKeyStr (Crypto.KeyMap [(Toy.alice, lit "CgEC")]) Toy.alice
               = Return (Helpers.base64_of [x0a; x01; x02])) by reflexivity.
  assert (H4 : Crypto.rsa_oaep_decrypt (WebCrypto := Toy.toy) x0b [x0a; x01; x02] = None)
    by reflexivity.
  split; [exact H1|]. split; [exact H2|]. split; [exact H3|]. split; [exact H4|].
  exact (proj1 (unwrap_with_other_key_fails Toy.toy x0b [x0a; x01; x02]
                  (Crypto.KeyMap [(Toy.alice, lit "CgEC")])
                  Toy.alice (lit "AAAA") (lit "AAAA") Toy.counting H3 H4)).
Defined.

(** C8 as stated fails: there is no UnwrapError.  The envelope of "hello" for
    alice and bob, sealed by AES-GCM: alice's key opens it; bob's private key
    on alice's wrapped key, and alice's own key on the body with one bit of
    its tag changed, both end in a [DOMException] named OperationError. *)
Lemma key_mismatch_is_not_told_apart :
  exists env call1 call2,
    fst (Crypto.encryptMessage (wc := Toy.with_aes_gcm) (lit "hello") Toy.recipients
           Toy.counting) = Return env
    /\ fst (Crypto.decryptMessage (wc := Toy.with_aes_gcm) (Crypto.encryptedContent env)
              (Crypto.KeyMap (Crypto.encryptedKeys env)) (Crypto.iv env)
              x0a Toy.alice Toy.counting)
       = Return (lit "hello")
    /\ fst (Crypto.decryptMessage (wc := Toy.with_aes_gcm) (Crypto.encryptedContent env)
              (Crypto.KeyMap (Crypto.encryptedKeys env)) (Crypto.iv env)
              x0b Toy.alice Toy.counting)
       = Throw (DOMException OperationError call1)
    /\ fst (Crypto.decryptMessage (wc := Toy.with_aes_gcm)
              (Toy.tampered (Crypto.encryptedContent env))
              (Crypto.KeyMap (Crypto.encryptedKeys env)) (Crypto.iv env)
              x0a Toy.alice Toy.counting)
       = Throw (DOMException OperationError call2).
Proof.
  do 3 eexists. split; [vm_compute; reflexivity|].
  split; [vm_compute; reflexivity|].
  split; vm_compute; reflexivity.
Qed.

(** ** C7: a batch is decrypted message by message *)
Section BatchFacts.
Import Crypto Chat.
Context {wc : WebCrypto}.
Variable JSON_parse : jsstring -> option json.
Variable decryptMessage_untyped : json -> PrivateKey -> jsstring -> completion jsstring.

Let attempt := decryptedText JSON_parse decryptMessage_untyped.
Let stored := decryptStored JSON_parse decryptMessage_untyped.

(** What [decryptMessage] completes with does not depend on the world. *)
Lemma decryptMessage_same_completion content keys ivs sk userId w w' :
  fst (decryptMessage content keys ivs sk userId w)
  = fst (decryptMessage content keys ivs sk userId w').
Proof.
  destruct (encryptedKeyStr keys userId) as [keyStr|e] eqn:E.
  - rewrite !(decryptMessage_run _ _ _ _ _ _ _ E).
    destruct (Helpers.base64ToArrayBuffer keyStr); [|reflexivity]. cbn zeta.
    destruct (rsa_oaep_decrypt sk a) as [raw|]; [|reflexivity].
    unfold importKey_raw, bind, log. cbn zeta.
    destruct (_ || _); unfold ret, throw; [|reflexivity].
    destruct (Helpers.base64ToArrayBuffer ivs); [|reflexivity].
    destruct (Helpers.base64ToArrayBuffer content); reflexivity.
  - now rewrite !(decryptMessage_no_key _ _ _ _ _ _ _ E).
Qed.

Lemma attempt_run sk user msg w :
  attempt sk user msg w =
    match JSON_parse (content msg) with
    | None => (Throw SyntaxError, w)
    | Some v =>
        match arguments v with
        | Some (c, k, i) => decryptMessage c k i sk (user_id user) w
        | None => (decryptMessage_untyped v sk (user_id user), w)
        end
    end.
Proof.
  unfold attempt, decryptedText, bind, lift.
  destruct (JSON_parse (content msg)) as [v|]; [|reflexivity].
  now destruct (arguments v) as [[[c k] i]|].
Qed.

Lemma attempt_same_completion sk user msg w w' :
  fst (attempt sk user msg w) = fst (attempt sk user msg w').
Proof.
  rewrite !attempt_run.
  destruct (JSON_parse (content msg)) as [v|]; [|reflexivity].
  destruct (arguments v) as [[[c k] i]|]; [|reflexivity].
  apply decryptMessage_same_completion.
Qed.

(** The callback never rejects: it yields the message with the decrypted text
    or with the placeholder. *)
Lemma stored_returns sk user msg w :
  exists w',
    stored sk user msg w =
      (Return (with_decrypted msg
                 match fst (attempt sk user msg w) with
                 | Return t => t
                 | Throw _ => decryption_failed
                 end (mine msg user)), w').
Proof.
  unfold stored, decryptStored, try_catch, bind. fold attempt.
  destruct (attempt sk user msg w) as [[t|e] w1]; eexists; reflexivity.
Qed.

Lemma Promise_all_step {A} (p : M A) rest w a w1 l w2 :
  p w = (Return a, w1) -> Promise_all rest w1 = (Return l, w2) ->
  Promise_all (p :: rest) w = (Return (a :: l), w2).
Proof.
  intros Hp Hrest. cbn [Promise_all].
  rewrite (bind_Return _ _ _ _ _ Hp), (bind_Return _ _ _ _ _ Hrest). reflexivity.
Qed.

Lemma decryptedMessages_returns sk user data w w0 :
  exists w',
    decryptedMessages JSON_parse decryptMessage_untyped sk user data w =
      (Return (map (fun msg =>
                      with_decrypted msg
                        match fst (attempt sk user msg w0) with
                        | Return t => t
                        | Throw _ => decryption_failed
                        end (mine msg user)) data), w').
Proof.
  unfold decryptedMessages. revert w.
  induction data as [|msg data IH]; intros w.
  - now exists w.
  - destruct (stored_returns sk user msg w) as (w1 & Hmsg).
    destruct (IH w1) as (w2 & Hrest).
    exists w2. cbn [map]. rewrite (attempt_same_completion sk user msg w0 w).
    exact (Promise_all_step _ _ _ _ _ _ _ Hmsg Hrest).
Qed.

(** The stored form of an envelope has the three arguments of
    [decryptMessage], with the types it declares. *)
Lemma as_string_record_strings (m : object jsstring) :
  as_string_record (map (fun kv => (fst kv, JString (snd kv))) m) = Some m.
Proof.
  induction m as [|[k v] m IH]; [reflexivity|].
  cbn [map fst snd as_string_record]. now rewrite IH.
Qed.

Lemma arguments_stored_form env :
  arguments (stored_form env)
  = Some (encryptedContent env, KeyMap (encryptedKeys env), iv env).
Proof.
  unfold arguments, stored_form, keys_argument.
  change (get _ (lit "encryptedContent")) with (own (JString (encryptedContent env))).
  change (get _ (lit "iv")) with (own (JString (iv env))).
  change (get _ (lit "encryptedKeys"))
    with (own (JObject (map (fun kv => (fst kv, JString (snd kv))) (encryptedKeys env)))).
  cbn [as_string truthy]. now rewrite as_string_record_strings.
Qed.

(** A stored envelope that was made for the user decrypts to its text. *)
Lemma attempt_stored_envelope {laws : Lawful wc}
    sk uid msg text R pk env w0 w0' wi :
  Encoding.isWellFormed text = true -> hd_error text <> Some 0xFEFF ->
  NoDup (keys R) -> In (uid, pk) R -> uid <> lit "__proto__" -> key_pair pk sk ->
  encryptMessage text R w0 = (Return env, w0') ->
  JSON_parse (content msg) = Some (stored_form env) ->
  fst (attempt sk (Some uid) msg wi) = Return text.
Proof.
  intros Hwf Hbom Hobject Hin Hidentity Hpair Henv Hparse.
  rewrite attempt_run, Hparse, arguments_stored_form. cbn [user_id].
  destruct (encryptMessage_returns text R w0) as (ks & w1 & E & Henv').
  rewrite Henv in Henv'. injection Henv' as -> _.
  cbn [encryptedContent encryptedKeys iv].
  destruct (wrap_each_wraps _ _ _ _ _ _ E Hobject uid pk Hin Hidentity)
    as (seed & c & Hwrap & Hget).
  erewrite decryptMessage_opens; try eassumption.
  - cbn [fst]. now rewrite decode_encode.
  - apply next_bytes_length.
  - eapply encryptedKeyStr_present; eassumption.
Qed.

End BatchFacts.

(** C7.  Whatever the batch of stored messages, [Promise.all] resolves: the
    result has one message per stored message, in order.  The message at a
    position keeps the stored fields and carries, as [decryptedContent], the
    text when parsing and decrypting that stored message succeed and the
    placeholder when they fail: the placeholder when the content is not JSON,
    the plaintext when the content is the envelope that [encryptMessage] made
    of a well-formed plaintext for recipients among whom the user is.  It is
    the same whatever the other messages of the batch are. *)
Theorem batch_decrypts_each_message_alone
    (wc : Crypto.WebCrypto) (laws : Crypto.Lawful wc)
    (JSON_parse : jsstring -> option Chat.json)
    (decryptMessage_untyped :
       Chat.json -> Crypto.PrivateKey -> jsstring -> completion jsstring)
    (privateKey : Crypto.PrivateKey) (user : option jsstring)
    (data : list Chat.Message) (w : world) :
  let attempt := Chat.decryptedText JSON_parse decryptMessage_untyped privateKey user in
  exists out w',
    Chat.decryptedMessages JSON_parse decryptMessage_untyped privateKey user data w
    = (Return out, w')
    /\ List.length out = List.length data
    /\ forall i msg,
         nth_error data i = Some msg ->
         exists m,
           nth_error out i = Some m
           /\ (Chat.id m, Chat.conversation_id m, Chat.sender_id m, Chat.content m,
               Chat.content_type m, Chat.status m, Chat.reply_to_id m,
               Chat.expires_at m, Chat.created_at m)
              = (Chat.id msg, Chat.conversation_id msg, Chat.sender_id msg,
                 Chat.content msg, Chat.content_type msg, Chat.status msg,
                 Chat.reply_to_id msg, Chat.expires_at msg, Chat.created_at msg)
           /\ Chat.is_mine m
              = Some match user with
                     | Some uid => str_eqb (Chat.sender_id msg) uid
                     | None => false
                     end
           /\ (forall wi t, fst (attempt msg wi) = Return t ->
                 Chat.decryptedContent m = Some t)
           /\ (forall wi e, fst (attempt msg wi) = Throw e ->
                 Chat.decryptedContent m = Some ([0x26A0; 0xFE0F] ++ lit " Decryption Failed"))
           /\ (JSON_parse (Chat.content msg) = None ->
                 Chat.decryptedContent m = Some ([0x26A0; 0xFE0F] ++ lit " Decryption Failed"))
           /\ (forall text recipients uid pk env w0 w0',
                 user = Some uid ->
                 Encoding.isWellFormed text = true -> hd_error text <> Some 0xFEFF ->
                 NoDup (keys recipients) -> In (uid, pk) recipients ->
                 uid <> lit "__proto__" -> Crypto.key_pair pk privateKey ->
                 Crypto.encryptMessage text recipients w0 = (Return env, w0') ->
                 JSON_parse (Chat.content msg) = Some (Chat.stored_form env) ->
                 Chat.decryptedContent m = Some text)
           /\ (forall others w1 out1 w1' j,
                 nth_error others j = Some msg ->
                 Chat.decryptedMessages JSON_parse decryptMessage_untyped
                   privateKey user others w1 = (Return out1, w1') ->
                 nth_error out1 j = Some m).
Proof.
  intros attempt.
  destruct (decryptedMessages_returns JSON_parse decryptMessage_untyped
              privateKey user data w w) as (w' & E).
  do 2 eexists. split; [exact E|]. split; [apply length_map|].
  intros i msg Hi. eexists. split; [rewrite nth_error_map, Hi; reflexivity|].
  subst attempt. cbv beta. cbn [Chat.with_decrypted Chat.id Chat.conversation_id
    Chat.sender_id Chat.content Chat.content_type Chat.status Chat.reply_to_id
    Chat.expires_at Chat.created_at Chat.is_mine Chat.decryptedContent].
  assert (Hreturn : forall wi t,
            fst (Chat.decryptedText JSON_parse decryptMessage_untyped privateKey user
                   msg wi) = Return t ->
            Some match fst (Chat.decryptedText JSON_parse decryptMessage_untyped
                              privateKey user msg w) with
                 | Return t0 => t0
                 | Throw _ => Chat.decryption_failed
                 end = Some t).
  { intros wi t Ht.
    now rewrite (attempt_same_completion JSON_parse decryptMessage_untyped
                   privateKey user msg w wi), Ht. }
  assert (Hthrow : forall wi e,
            fst (Chat.decryptedText JSON_parse decryptMessage_untyped privateKey user
                   msg wi) = Throw e ->
            Some match fst (Chat.decryptedText JSON_parse decryptMessage_untyped
                              privateKey user msg w) with
                 | Return t0 => t0
                 | Throw _ => Chat.decryption_failed
                 end = Some Chat.decryption_failed).
  { intros wi e He.
    now rewrite (attempt_same_completion JSON_parse decryptMessage_untyped
                   privateKey user msg w wi), He. }
  split; [reflexivity|]. split; [reflexivity|].
  split; [exact Hreturn|]. split; [exact Hthrow|]. split; [|split].
  - intros Hparse. apply (Hthrow w SyntaxError).
    now rewrite attempt_run, Hparse.
  - intros text recipients uid pk env w0 w0' -> Hwf Hbom Hobject Hin Hidentity Hpair
      Henv Hparse.
    apply (Hreturn w).
    exact (attempt_stored_envelope JSON_parse decryptMessage_untyped privateKey uid msg
             text recipients pk env w0 w0' w Hwf Hbom Hobject Hin Hidentity Hpair
             Henv Hparse).
  - intros others w1 out1 w1' j Hj E1.
    destruct (decryptedMessages_returns JSON_parse decryptMessage_untyped
                privateKey user others w1 w) as (w1'' & E1').
    rewrite E1 in E1'. injection E1' as -> _.
    now rewrite nth_error_map, Hj.
Qed.

(** A batch with a message that is not an envelope between two that are, read
    by alice. *)
Lemma batch_decrypts_each_message_alone_witness :
  let data := [Toy.message Toy.bob (lit "<hello>");
               Toy.message Toy.bob (lit "hi, not encrypted");
               Toy.message Toy.alice (lit "<hello>")] in
  Crypto.Lawful Toy.toy
  /\ exists out w',
       Chat.decryptedMessages Toy.JSON_parse (fun _ _ _ => Throw TypeError)
         x0a (Some Toy.alice) data Toy.counting = (Return out, w')
       /\ List.length out = List.length data.
Proof.
  intros data. split; [exact toy_lawful|].
  destruct (batch_decrypts_each_message_alone Toy.toy toy_lawful Toy.JSON_parse
              (fun _ _ _ => Throw TypeError) x0a (Some Toy.alice) data Toy.counting)
    as (out & w' & E & Hlen & _).
  exists out, w'. split; [exact E | exact Hlen].
Defined.

Example batch_with_a_plain_message :
  match fst (Chat.decryptedMessages Toy.JSON_parse (fun _ _ _ => Throw TypeError)
               x0a (Some Toy.alice)
               [Toy.message Toy.bob (lit "<hello>");
                Toy.message Toy.bob (lit "hi, not encrypted");
                Toy.message Toy.alice (lit "<hello>")]
               Toy.counting) with
  | Return out => map (fun m => (Chat.decryptedContent m, Chat.is_mine m)) out
  | Throw _ => []
  end
  = [(Some (lit "hello"), Some false);
     (Some Chat.decryption_failed, Some false);
     (Some (lit "hello"), Some true)].
Proof. vm_compute. reflexivity. Qed.

(** * Part III: the rest of the code *)

(** ** Files: [encryptFile] and [decryptFile] *)
Section FileFacts.
Import Crypto Helpers Files.
Context {wc : WebCrypto}.

Lemma encryptFile_run file w :
  encryptFile file w =
    (Return {| encryptedBlob := aes_gcm_encrypt (session_key_of w) (nonce_of w) file;
               key := base64_of (session_key_of w);
               iv := base64_of (nonce_of w) |},
     wrapping_world w).
Proof.
  unfold encryptFile, generateKey_AES, getRandomValues, encrypt_AES, exportKey_raw.
  unfold bind, log, random_bytes, ret, lift.
  now rewrite !arrayBufferToBase64_returns.
Qed.

Lemma decryptFile_run blob keyStr ivStr w :
  decryptFile blob keyStr ivStr w =
    match base64ToArrayBuffer keyStr with
    | Throw e => (Throw e, w)
    | Return keyBytes =>
        match importKey_raw keyBytes w with
        | (Throw e, w1) => (Throw e, w1)
        | (Return sessionKey, w1) =>
            match base64ToArrayBuffer ivStr with
            | Throw e => (Throw e, w1)
            | Return ivBytes =>
                (match aes_gcm_decrypt sessionKey ivBytes blob with
                 | Some m => Return m
                 | None => Throw (DOMException OperationError (decrypt_of AES_GCM blob))
                 end, recorded (Decrypt AES_GCM) w1)
            end
        end
    end.
Proof.
  unfold decryptFile. unfold bind at 1, lift at 1.
  destruct (base64ToArrayBuffer keyStr) as [keyBytes|e]; [|reflexivity].
  unfold bind at 1.
  destruct (importKey_raw keyBytes w) as [[sessionKey|e] w1]; [|reflexivity].
  unfold bind at 1, lift at 1.
  destruct (base64ToArrayBuffer ivStr) as [ivBytes|e]; [|reflexivity].
  unfold bind at 1. rewrite decrypt_AES_run.
  now destruct (aes_gcm_decrypt _ _ _).
Qed.

Lemma importKey_raw_run data w :
  importKey_raw data w =
    (if Nat.eqb (List.length data) 16 || Nat.eqb (List.length data) 24
        || Nat.eqb (List.length data) 32
     then Return data else Throw (DOMException DataError (importKey_of data)),
     recorded ImportKey w).
Proof. unfold importKey_raw, bind, log. cbn zeta. now destruct (_ || _). Qed.

End FileFacts.

(** X1.  Whatever the bytes of a file, the empty file included,
    [encryptFile] resolves, and [decryptFile] on the encrypted blob with the
    key and the iv it returned gives the bytes back. *)
Theorem file_round_trip
    (wc : Crypto.WebCrypto) (laws : Crypto.Lawful wc)
    (file : list byte) (w w2 : world) :
  exists ef w',
    Files.encryptFile file w = (Return ef, w')
    /\ fst (Files.decryptFile (Files.encryptedBlob ef) (Files.key ef) (Files.iv ef) w2)
       = Return file.
Proof.
  rewrite encryptFile_run. do 2 eexists. split; [reflexivity|].
  cbn [Files.encryptedBlob Files.key Files.iv].
  rewrite decryptFile_run, !base64ToArrayBuffer_encode.
  rewrite importKey_raw_256 by apply next_bytes_length.
  now rewrite Crypto.aes_decrypts by apply next_bytes_length.
Qed.

Lemma file_round_trip_witness :
  Crypto.Lawful Toy.toy
  /\ exists ef w',
       Files.encryptFile [] Toy.counting = (Return ef, w')
       /\ fst (Files.decryptFile (Files.encryptedBlob ef) (Files.key ef) (Files.iv ef)
                 Toy.counting)
          = Return [].
Proof.
  split; [exact toy_lawful|].
  exact (file_round_trip Toy.toy toy_lawful [] Toy.counting Toy.counting).
Defined.

(** X2.  The key string is looked at first.  When it is not the base64 text of
    16, 24 or 32 bytes, [decryptFile] fails whatever the blob and the iv are,
    and never calls the decryption: with the InvalidCharacterError and no call
    to [crypto.subtle] when [atob] rejects it, with the DataError of the one
    [importKey] call otherwise. *)
Theorem decryptFile_bad_key
    (wc : Crypto.WebCrypto) (blob : list byte) (keyStr ivStr : jsstring) (w : world)
    (Hkey : forall keyBytes,
        Helpers.base64ToArrayBuffer keyStr = Return keyBytes ->
        List.length keyBytes <> 16%nat /\ List.length keyBytes <> 24%nat
        /\ List.length keyBytes <> 32%nat) :
  match Helpers.base64ToArrayBuffer keyStr with
  | Throw _ =>
      Files.decryptFile blob keyStr ivStr w
      = (Throw (DOMException InvalidCharacterError (atob_of keyStr)), w)
  | Return keyBytes =>
      Files.decryptFile blob keyStr ivStr w
      = (Throw (DOMException DataError (importKey_of keyBytes)), recorded ImportKey w)
  end.
Proof.
  rewrite decryptFile_run.
  destruct (Helpers.base64ToArrayBuffer keyStr) as [keyBytes|e] eqn:E.
  - destruct (Hkey keyBytes eq_refl) as (H16 & H24 & H32).
    rewrite importKey_raw_run.
    apply Nat.eqb_neq in H16, H24, H32. now rewrite H16, H24, H32.
  - now rewrite (base64ToArrayBuffer_throws _ _ E).
Qed.

Lemma decryptFile_bad_key_witness :
  (forall keyBytes,
      Helpers.base64ToArrayBuffer (lit "AAAA") = Return keyBytes ->
      List.length keyBytes <> 16%nat /\ List.length keyBytes <> 24%nat
      /\ List.length keyBytes <> 32%nat)
  /\ Files.decryptFile (wc := Toy.toy) [x01; x02] (lit "AAAA") (lit "AAAA") Toy.counting
     = (Throw (DOMException DataError (importKey_of [x00; x00; x00])),
        recorded ImportKey Toy.counting).
Proof.
  assert (H : forall keyBytes,
             Helpers.base64ToArrayBuffer (lit "AAAA") = Return keyBytes ->
             List.length keyBytes <> 16%nat /\ List.length keyBytes <> 24%nat
             /\ List.length keyBytes <> 32%nat).
  { intros keyBytes E. vm_compute in E. injection E as <-. cbn. lia. }
  split; [exact H|].
  exact (decryptFile_bad_key Toy.toy [x01; x02] (lit "AAAA") (lit "AAAA") Toy.counting H).
Defined.

(** ** The missing key, exactly *)

(** X3.  [decryptMessage] throws the error "No encrypted key found for user
    ..." exactly when [encryptedKeys] is a mapping in which the read of the
    holder's entry yields [undefined] or the empty string; a legacy envelope
    never ends in this error. *)
Theorem missing_key_error_exactly
    (wc : Crypto.WebCrypto)
    (content iv userId : jsstring) (keys : Crypto.keys_field)
    (sk : Crypto.PrivateKey) (w : world) :
  (exists w',
     Crypto.decryptMessage content keys iv sk userId w
     = (Throw (Error (lit "No encrypted key found for user " ++ userId)), w'))
  <-> exists m,
        keys = Crypto.KeyMap m /\ (get m userId = undefined \/ get m userId = own []).
Proof.
  split.
  - intros (w' & H).
    destruct (decryptMessage_throws _ _ _ _ _ _ _ _ H)
      as [[Hsel _]|(name & call & Hname)]; [|discriminate].
    unfold Crypto.encryptedKeyStr in Hsel. destruct keys as [s|m]; [discriminate|].
    exists m. split; [reflexivity|].
    destruct (get m userId) as [|[|c s]|name]; auto; discriminate.
  - intros (m & -> & Hget). exists w. apply decryptMessage_no_key.
    unfold Crypto.encryptedKeyStr. now destruct Hget as [-> | ->].
Qed.

(** ** The size and the alphabet of the base64 fields *)
Section Base64Size.
Import Base64 Helpers.

Lemma encode_length s :
  N.of_nat (List.length (encode s)) = 4 * ((N.of_nat (List.length s) + 2) / 3).
Proof.
  induction s as [|a|a b|a b c l IH] using list_ind3; try reflexivity.
  cbn [encode List.length]. rewrite !Nat2N.inj_succ, IH.
  set (n := N.of_nat (List.length l)). lia.
Qed.

Lemma char_of_alphabet i : i < 64 -> In (char_of i) alphabet.
Proof.
  intros Hi. unfold char_of. apply nth_In.
  change (List.length alphabet) with 64%nat. lia.
Qed.

Lemma encode_alphabet s :
  Forall (fun c => c <= 255) s ->
  Forall (fun c => In c alphabet \/ c = pad) (encode s).
Proof.
  intros Hs. destruct (encoded_total s Hs) as (idx & p & He).
  destruct (encoded_spec _ _ _ He) as (E & F & _). rewrite E.
  apply Forall_app. split.
  - apply Forall_forall. intros c Hc. apply in_map_iff in Hc.
    destruct Hc as (i & <- & Hi). left. apply char_of_alphabet.
    rewrite Forall_forall in F. now apply F.
  - apply Forall_forall. intros c Hc. apply repeat_spec in Hc. now right.
Qed.

End Base64Size.

(** X4.  [arrayBufferToBase64] turns a buffer of n bytes into a string of
    4 * ceil(n / 3) characters, each a letter, a digit, '+', '/' or '='. *)
Theorem base64_size_and_alphabet (b : list byte) :
  exists s,
    Helpers.arrayBufferToBase64 b = Return s
    /\ N.of_nat (List.length s) = 4 * ((N.of_nat (List.length b) + 2) / 3)
    /\ Forall (fun c => In c Base64.alphabet \/ c = 61) s.
Proof.
  exists (Helpers.base64_of b). split; [apply arrayBufferToBase64_returns|].
  unfold Helpers.base64_of. split.
  - now rewrite encode_length, length_map.
  - apply encode_alphabet, bytes_binary.
Qed.

(** X5.  The random fields have a fixed size: in every envelope that
    [encryptMessage] returns the [iv] has 16 characters, and in every result of
    [encryptFile] the [key] has 44 characters and the [iv] 16. *)
Theorem random_fields_have_fixed_size
    (wc : Crypto.WebCrypto)
    (text : jsstring) (recipientPublicKeys : object Crypto.PublicKey)
    (file : list byte) (w : world) :
  (forall env w',
     Crypto.encryptMessage text recipientPublicKeys w = (Return env, w') ->
     List.length (Crypto.iv env) = 16%nat)
  /\ exists ef w',
       Files.encryptFile file w = (Return ef, w')
       /\ List.length (Files.key ef) = 44%nat
       /\ List.length (Files.iv ef) = 16%nat.
Proof.
  assert (Hsize : forall n w0,
            N.of_nat (List.length (Helpers.base64_of (next_bytes n w0)))
            = 4 * ((N.of_nat n + 2) / 3)).
  { intros n w0. unfold Helpers.base64_of.
    now rewrite encode_length, length_map, next_bytes_length. }
  split.
  - intros env w'. rewrite encryptMessage_run.
    destruct (Crypto.wrap_each _ _ _ _) as [[ks|e] w1]; [|discriminate].
    intros H. injection H as <- _. cbn [Crypto.iv].
    pose proof (Hsize 12%nat (consumed 32 w)) as H. unfold Crypto.nonce_of.
    change (4 * ((N.of_nat 12 + 2) / 3)) with 16 in H. lia.
  - rewrite encryptFile_run. do 2 eexists. split; [reflexivity|].
    cbn [Files.key Files.iv]. unfold Crypto.session_key_of, Crypto.nonce_of.
    pose proof (Hsize 32%nat w) as H1. pose proof (Hsize 12%nat (consumed 32 w)) as H2.
    change (4 * ((N.of_nat 32 + 2) / 3)) with 44 in H1.
    change (4 * ((N.of_nat 12 + 2) / 3)) with 16 in H2. lia.
Qed.

(** ** The recovery key *)
Section RecoveryFacts.
Import Identity Account.

Let alphabetic (s : jsstring) : Prop := Forall (fun c => In c chars) s.

Lemma char_at_chars i : i < 32 -> exists c, char_at chars i = [c] /\ In c chars.
Proof.
  intros Hi. unfold char_at.
  destruct (nth_error chars (N.to_nat i)) as [c|] eqn:E.
  - exists c. split; [reflexivity|]. eapply nth_error_In, E.
  - apply nth_error_None in E. change (List.length chars) with 32%nat in E. lia.
Qed.

Lemma segment_loop_returns n segment w :
  exists extra w',
    segment_loop n segment w = (Return (segment ++ extra), w')
    /\ List.length extra = n /\ alphabetic extra.
Proof.
  revert segment w. induction n as [|n IH]; intros segment w.
  - exists [], w. rewrite app_nil_r. repeat split. constructor.
  - cbn [segment_loop].
    destruct (getSecureRandomInt_below (N.of_nat (List.length chars)) w)
      as (i & w1 & E & Hi); [reflexivity|].
    rewrite (bind_Return _ _ _ _ _ E).
    destruct (char_at_chars i Hi) as (c & -> & Hc).
    destruct (IH (segment ++ [c]) w1) as (extra & w' & E' & Hlen & Hall).
    exists (c :: extra), w'. rewrite E', <- app_assoc. repeat split.
    + cbn. now rewrite Hlen.
    + now constructor.
Qed.

Lemma parts_loop_returns n parts w :
  exists new w',
    parts_loop n parts w = (Return (parts ++ new), w')
    /\ List.length new = n
    /\ Forall (fun s => List.length s = 4%nat /\ alphabetic s) new.
Proof.
  revert parts w. induction n as [|n IH]; intros parts w.
  - exists [], w. rewrite app_nil_r. repeat split. constructor.
  - cbn [parts_loop].
    destruct (segment_loop_returns 4 [] w) as (segment & w1 & E & Hlen & Hall).
    rewrite (bind_Return _ _ _ _ _ E). cbn [app].
    destruct (IH (parts ++ [segment]) w1) as (new & w' & E' & Hn & Hnew).
    exists (segment :: new), w'. rewrite <- app_assoc in E'.
    split; [exact E'|]. split.
    + cbn. now rewrite Hn.
    + now constructor.
Qed.

End RecoveryFacts.

(** X6.  [generateRecoveryKey()] always returns five segments of four
    characters joined by '-': 24 characters in all (20 and 4 dashes), every
    character of a segment taken from the 32 of [chars], so that none is
    '0', 'O', '1' or 'I'. *)
Theorem recovery_key_format (w : world) :
  exists k w' s1 s2 s3 s4 s5,
    Account.generateRecoveryKey w = (Return k, w')
    /\ k = s1 ++ lit "-" ++ s2 ++ lit "-" ++ s3 ++ lit "-" ++ s4 ++ lit "-" ++ s5
    /\ Forall (fun s => List.length s = 4%nat
                        /\ Forall (fun c => In c Account.chars) s
                        /\ Forall (fun c => ~ In c (lit "0O1I")) s)
         [s1; s2; s3; s4; s5]
    /\ List.length k = 24%nat.
Proof.
  unfold Account.generateRecoveryKey.
  destruct (parts_loop_returns 5 [] w) as (parts & w' & E & Hlen & Hall).
  rewrite (bind_Return _ _ _ _ _ E). cbn [app] in *.
  destruct parts as [|s1 [|s2 [|s3 [|s4 [|s5 [|s6 rest]]]]]]; try discriminate.
  exists (Account.join (lit "-") [s1; s2; s3; s4; s5]), w', s1, s2, s3, s4, s5.
  split; [reflexivity|]. split; [reflexivity|].
  assert (Hno : forall s, Forall (fun c => In c Account.chars) s ->
                          Forall (fun c => ~ In c (lit "0O1I")) s).
  { intros s Hs. eapply Forall_impl; [|exact Hs]. intros c Hc Hbad.
    assert (forallb (fun c => negb (existsb (N.eqb c) (lit "0O1I"))) Account.chars = true)
      as Hchk by reflexivity.
    rewrite forallb_forall in Hchk. specialize (Hchk c Hc).
    apply negb_true_iff in Hchk. rewrite <- not_true_iff_false in Hchk.
    apply Hchk, existsb_exists. exists c. split; [exact Hbad | apply N.eqb_refl]. }
  split.
  - repeat (apply Forall_cons_iff in Hall; destruct Hall as [[? ?] Hall]).
    repeat constructor; auto.
  - repeat (apply Forall_cons_iff in Hall; destruct Hall as [[? ?] Hall]).
    cbn [Account.join]. rewrite !length_app. cbn [List.length lit map].
    change (List.length (lit "-")) with 1%nat. lia.
Qed.

(** ** Username suggestions *)
Section SuggestionFacts.
Import Identity Account.

Let good (u : jsstring) : Prop :=
  validateUsername u = {| valid := true; error := None |} /\ In u username_space.

Lemma in_username_space adjective noun number :
  In adjective adjectives -> In noun nouns -> number < 1000 ->
  In ((toUpperCase (charAt0 adjective) ++ slice1 adjective)
      ++ (toUpperCase (charAt0 noun) ++ slice1 noun) ++ Number_toString number)
     username_space.
Proof.
  intros Ha Hn Hk. unfold username_space.
  apply in_flat_map. exists adjective. split; [exact Ha|].
  apply in_flat_map. exists noun. split; [exact Hn|].
  apply in_map_iff. exists (N.to_nat number). rewrite N2Nat.id.
  split; [reflexivity|]. apply in_seq. lia.
Qed.

Lemma generateUsername_good w :
  exists u w', generateUsername w = (Return u, w') /\ good u.
Proof.
  unfold generateUsername.
  destruct (getSecureRandomInt_below (N.of_nat (List.length adjectives)) w)
    as (i & w1 & E1 & Hi); [vm_compute; reflexivity|].
  destruct (index_in_range adjectives i w1 Hi) as (adjective & Hadj & E2).
  destruct (getSecureRandomInt_below (N.of_nat (List.length nouns)) w1)
    as (j & w2 & E3 & Hj); [vm_compute; reflexivity|].
  destruct (index_in_range nouns j w2 Hj) as (noun & Hnoun & E4).
  destruct (getSecureRandomInt_below 1000 w2) as (number & w3 & E5 & Hnum);
    [reflexivity|].
  unfold bind at 1. rewrite E1. unfold bind at 1. rewrite E2.
  unfold bind at 1. rewrite E3. unfold bind at 1. rewrite E4.
  unfold bind at 1. rewrite E5. unfold ret.
  do 2 eexists. split; [reflexivity|]. split.
  - exact (chosen_username_is_valid adjective noun number Hadj Hnoun Hnum).
  - now apply in_username_space.
Qed.

Lemma has_In seen x : has seen x = true <-> In x seen.
Proof.
  unfold has. rewrite existsb_exists. split.
  - intros (y & Hy & E). apply str_eqb_eq in E. now subst.
  - intros H. exists x. split; [exact H | apply str_eqb_refl].
Qed.

(** The loop keeps the array free of repetitions, the set equal to the array,
    and stops at [count] elements. *)
Lemma suggestions_loop_spec fuel count :
  forall suggestions seen w r w',
    NoDup suggestions -> (forall x, In x seen <-> In x suggestions) ->
    Forall good suggestions ->
    (Z.of_nat (List.length suggestions) <= Z.max 0 count)%Z ->
    suggestions_loop fuel count suggestions seen w = (Return r, w') ->
    match r with
    | Some l =>
        NoDup l /\ Forall good l /\ Z.of_nat (List.length l) = Z.max 0 count
    | None => (Z.of_nat (List.length suggestions) < count)%Z
    end.
Proof.
  induction fuel as [|fuel IH]; intros suggestions seen w r w' Hnd Hseen Hgood Hlen;
    cbn [suggestions_loop];
    destruct (Z.ltb_spec (Z.of_nat (List.length suggestions)) count) as [Hlt|Hge].
  - unfold ret. intros H. injection H as <- _. exact Hlt.
  - unfold ret. intros H. injection H as <- _. repeat split; auto. lia.
  - destruct (generateUsername_good w) as (u & w1 & E & Hu).
    rewrite (bind_Return _ _ _ _ _ E).
    destruct (has seen u) eqn:Hhas; cbn [negb].
    + intros H. specialize (IH _ _ _ _ _ Hnd Hseen Hgood Hlen H).
      destruct r; [exact IH | exact Hlt].
    + intros H. assert (Hfresh : ~ In u suggestions).
      { rewrite <- Hseen, <- has_In. now rewrite Hhas. }
      assert (IH' := IH (suggestions ++ [u]) (u :: seen) w1 r w').
      destruct r as [l|]; [|exact Hlt]. apply IH'; auto.
      * apply NoDup_app; [exact Hnd | repeat constructor; intros [] | ].
        intros x Hx [<-|[]]. now apply Hfresh.
      * intros x. cbn [In]. rewrite in_app_iff, Hseen. cbn [In]. tauto.
      * apply Forall_app. split; [exact Hgood | constructor; [exact Hu | constructor]].
      * rewrite length_app. cbn [List.length]. lia.
  - unfold ret. intros H. injection H as <- _. repeat split; auto. lia.
Qed.

Lemma suggestions_loop_returns fuel count :
  forall suggestions seen w,
    exists r w', suggestions_loop fuel count suggestions seen w = (Return r, w').
Proof.
  induction fuel as [|fuel IH]; intros suggestions seen w; cbn [suggestions_loop];
    destruct (Z.of_nat (List.length suggestions) <? count)%Z;
    try (do 2 eexists; reflexivity).
  destruct (generateUsername_good w) as (u & w1 & E & _).
  rewrite (bind_Return _ _ _ _ _ E). destruct (negb (has seen u)); apply IH.
Qed.

Lemma length_flat_map_const {A B} (f : A -> list B) (l : list A) (c : nat) :
  (forall x, List.length (f x) = c) ->
  List.length (flat_map f l) = (List.length l * c)%nat.
Proof.
  intros Hf. induction l as [|x l IH]; [reflexivity|].
  cbn [flat_map List.length]. rewrite length_app, Hf, IH. lia.
Qed.

Lemma username_space_size : Z.of_nat (List.length username_space) = 1600000%Z.
Proof.
  unfold username_space.
  rewrite (length_flat_map_const _ _ (40 * 1000)%nat).
  - change (List.length adjectives) with 40%nat. lia.
  - intros adjective. rewrite (length_flat_map_const _ _ 1000%nat).
    + change (List.length nouns) with 40%nat. lia.
    + intros noun. now rewrite length_map, length_seq.
Qed.

End SuggestionFacts.

(** X7.  When [generateUsernameSuggestions(count)] returns, the array has
    exactly [count] usernames (none for a [count] of zero or less), no
    username occurs twice, and [validateUsername] accepts each of them. *)
Theorem suggestions_are_distinct_and_valid
    (fuel : nat) (count : Z) (w : world) (l : list jsstring)
    (Hreturns : fst (Account.generateUsernameSuggestions fuel count w) = Return (Some l)) :
  Z.of_nat (List.length l) = Z.max 0 count
  /\ NoDup l
  /\ Forall (fun u => Identity.validateUsername u
                      = {| Identity.valid := true; Identity.error := None |}) l.
Proof.
  unfold Account.generateUsernameSuggestions in Hreturns.
  destruct (Account.suggestions_loop fuel count [] [] w) as [r w'] eqn:E.
  cbn [fst] in Hreturns. subst r.
  apply suggestions_loop_spec in E;
    [| constructor | intros x; reflexivity | constructor | cbn; lia].
  destruct E as (Hnd & Hgood & Hlen).
  split; [exact Hlen|]. split; [exact Hnd|].
  eapply Forall_impl; [|exact Hgood]. intros u [Hu _]. exact Hu.
Qed.

Lemma suggestions_are_distinct_and_valid_witness :
  let l := [lit "WildPanther48"; lit "BraveWolf156"; lit "GreySentinel264";
            lit "BoldShark372"] in
  fst (Account.generateUsernameSuggestions 10 4 Toy.counting) = Return (Some l)
  /\ Z.of_nat (List.length l) = Z.max 0 4
  /\ NoDup l
  /\ Forall (fun u => Identity.validateUsername u
                      = {| Identity.valid := true; Identity.error := None |}) l.
Proof.
  intros l.
  assert (H : fst (Account.generateUsernameSuggestions 10 4 Toy.counting)
              = Return (Some l)) by (vm_compute; reflexivity).
  split; [exact H|].
  exact (suggestions_are_distinct_and_valid 10 4 Toy.counting l H).
Defined.

(** X8.  There are at most 1 600 000 usernames to draw from (40 adjectives, 40
    nouns, 1000 numbers), so for a larger [count] the loop of
    [generateUsernameSuggestions] never ends: however many iterations are
    followed and whatever the random source yields, it is still running. *)
Theorem too_many_suggestions_never_return
    (fuel : nat) (count : Z) (w : world)
    (Hcount : (1600000 < count)%Z) :
  fst (Account.generateUsernameSuggestions fuel count w) = Return None.
Proof.
  unfold Account.generateUsernameSuggestions.
  destruct (suggestions_loop_returns fuel count [] [] w) as (r & w' & E).
  rewrite E. cbn [fst]. destruct r as [l|]; [exfalso|reflexivity].
  apply suggestions_loop_spec in E;
    [| constructor | intros x; reflexivity | constructor | cbn; lia].
  destruct E as (Hnd & Hgood & Hlen).
  assert (Hincl : incl l Account.username_space).
  { intros u Hu. rewrite Forall_forall in Hgood.
    destruct (Hgood u Hu) as [_ Hin]. exact Hin. }
  pose proof (NoDup_incl_length Hnd Hincl) as Hle.
  pose proof username_space_size. lia.
Qed.

Lemma too_many_suggestions_never_return_witness :
  (1600000 < 1600001)%Z
  /\ fst (Account.generateUsernameSuggestions 3 1600001 Toy.counting) = Return None.
Proof.
  assert (H : (1600000 < 1600001)%Z) by reflexivity.
  split; [exact H|].
  exact (too_many_suggestions_never_return 3 1600001 Toy.counting H).
Defined.

(** ** Validation and the pseudo-email *)
Section PseudoEmailFacts.
Import Identity Account.

Lemma validateUsername_accepts u :
  validateUsername u = {| valid := true; error := None |}
  <-> (3 <= List.length u <= 30)%nat /\ username_pattern u = true.
Proof.
  unfold validateUsername.
  destruct (truthy_string u) eqn:Et; cbn [negb].
  - destruct (N.ltb_spec (N.of_nat (List.length u)) 3) as [H3|H3].
    + split; [discriminate | lia].
    + destruct (N.ltb_spec 30 (N.of_nat (List.length u))) as [H30|H30].
      * split; [discriminate | lia].
      * destruct (username_pattern u); cbn [negb].
        -- split; [intros _; split; [lia | reflexivity] | reflexivity].
        -- split; [discriminate | intros [_ H]; discriminate].
  - destruct u; [|discriminate]. split; [discriminate | cbn; lia].
Qed.

Lemma startsWith_app p s : startsWith (p ++ s) p = true.
Proof.
  induction p as [|c p IH]; [now destruct s|].
  cbn [app startsWith]. now rewrite N.eqb_refl, IH.
Qed.

Lemma endsWith_app s p : endsWith (s ++ p) p = true.
Proof. unfold endsWith. rewrite rev_app_distr. apply startsWith_app. Qed.

Lemma replace_suffix a : ~ In 64 a -> replace (a ++ haven) haven [] = a.
Proof.
  induction a as [|c a IH]; intros H; [reflexivity|].
  cbn [app replace]. change haven with (64 :: lit "haven.anonymous") at 2.
  cbn [startsWith]. replace (64 =? c) with false.
  - cbn [andb]. f_equal. apply IH. intros Hin. apply H. now right.
  - symmetry. apply N.eqb_neq. intros <-. apply H. now left.
Qed.

Let lower (c : N) : N := if (65 <=? c) && (c <=? 90) then c + 32 else c.

Lemma lower_letter c : is_letter c = true -> is_letter (lower c) = true.
Proof.
  unfold is_letter, lower. intros H.
  destruct (N.leb_spec 65 c), (N.leb_spec c 90); cbn [andb orb] in *;
    repeat match goal with
           | |- context [?a <=? ?b] => destruct (N.leb_spec a b)
           | H : context [?a <=? ?b] |- _ => destruct (N.leb_spec a b)
           end; cbn [andb orb] in *; try reflexivity; try discriminate; lia.
Qed.

Lemma lower_word c : word_char c = true -> word_char (lower c) = true.
Proof.
  unfold word_char. intros H.
  apply orb_true_iff in H. destruct H as [H|H].
  - apply orb_true_iff in H. destruct H as [H|H].
    + now rewrite lower_letter.
    + unfold lower, is_digit in *.
      destruct (N.leb_spec 65 c), (N.leb_spec c 90); cbn [andb]; rewrite ?H;
        try now rewrite orb_true_r.
      apply andb_true_iff in H. destruct H as [_ H]. apply N.leb_le in H. lia.
  - apply N.eqb_eq in H. subst c. reflexivity.
Qed.

Lemma lower_idempotent c : lower (lower c) = lower c.
Proof.
  unfold lower.
  destruct (N.leb_spec 65 c), (N.leb_spec c 90); cbn [andb];
    repeat match goal with
           | |- context [?a <=? ?b] => destruct (N.leb_spec a b)
           end; cbn [andb]; try reflexivity; lia.
Qed.

Lemma lower_at c : lower c = 64 -> c = 64.
Proof.
  unfold lower.
  destruct (N.leb_spec 65 c), (N.leb_spec c 90); cbn [andb]; lia.
Qed.

Lemma toLowerCase_pattern u :
  username_pattern u = true -> username_pattern (toLowerCase u) = true.
Proof.
  destruct u as [|c rest]; [discriminate|]. cbn [username_pattern toLowerCase map].
  intros H. apply andb_true_iff in H. destruct H as [Hc Hr].
  apply andb_true_iff. split; [now apply lower_letter|].
  rewrite forallb_forall in *. intros x Hx. apply in_map_iff in Hx.
  destruct Hx as (y & <- & Hy). apply lower_word. now apply Hr.
Qed.

Lemma word_has_no_at u : forallb word_char u = true -> ~ In 64 u.
Proof.
  intros H Hin. rewrite forallb_forall in H. specialize (H 64 Hin). discriminate.
Qed.

Lemma toLowerCase_idempotent u : toLowerCase (toLowerCase u) = toLowerCase u.
Proof.
  unfold toLowerCase. rewrite map_map. apply map_ext. exact lower_idempotent.
Qed.

End PseudoEmailFacts.

(** X9.  For every username that [validateUsername] accepts, the pseudo-email
    made of it is recognised by [isHavenPseudoEmail], and
    [pseudoEmailToUsername] gives back the username in lower case, which is
    again a valid username and has the same pseudo-email: the account does
    not tell "SilentWolf427" from "silentwolf427". *)
Theorem pseudo_email_round_trip (username : jsstring)
    (Hvalid : Identity.validateUsername username
              = {| Identity.valid := true; Identity.error := None |}) :
  let email := Account.usernameToPseudoEmail username in
  Account.isHavenPseudoEmail email = true
  /\ Account.pseudoEmailToUsername email = Account.toLowerCase username
  /\ Identity.validateUsername (Account.toLowerCase username)
     = {| Identity.valid := true; Identity.error := None |}
  /\ Account.usernameToPseudoEmail (Account.toLowerCase username) = email.
Proof.
  intros email. apply validateUsername_accepts in Hvalid.
  destruct Hvalid as [Hlen Hpattern].
  pose proof (toLowerCase_pattern _ Hpattern) as Hlower.
  unfold email, Account.usernameToPseudoEmail, Account.isHavenPseudoEmail,
    Account.pseudoEmailToUsername.
  rewrite endsWith_app. split; [reflexivity|]. split; [|split].
  - apply replace_suffix. apply word_has_no_at. now apply pattern_word.
  - apply validateUsername_accepts. split; [|exact Hlower].
    unfold Account.toLowerCase. now rewrite length_map.
  - now rewrite toLowerCase_idempotent.
Qed.

Lemma pseudo_email_round_trip_witness :
  Identity.validateUsername (lit "SilentWolf427")
  = {| Identity.valid := true; Identity.error := None |}
  /\ Account.pseudoEmailToUsername (Account.usernameToPseudoEmail (lit "SilentWolf427"))
     = lit "silentwolf427".
Proof.
  assert (H : Identity.validateUsername (lit "SilentWolf427")
              = {| Identity.valid := true; Identity.error := None |}) by reflexivity.
  split; [exact H|].
  exact (proj1 (proj2 (pseudo_email_round_trip (lit "SilentWolf427") H))).
Defined.

(** X10.  [validateUsername] accepts exactly the strings of 3 to 30 code units
    that begin with an ASCII letter and go on with ASCII letters, digits and
    underscores; it gives an error message exactly when it rejects.  A name
    that begins with an underscore or a digit is rejected. *)
Theorem validateUsername_accepts_exactly (username : jsstring) :
  (Identity.valid (Identity.validateUsername username) = true
   <-> (3 <= List.length username <= 30)%nat
       /\ exists c rest,
            username = c :: rest
            /\ (65 <= c <= 90 \/ 97 <= c <= 122)
            /\ Forall (fun x => 65 <= x <= 90 \/ 97 <= x <= 122 \/ 48 <= x <= 57 \/ x = 95)
                 rest)
  /\ (Identity.valid (Identity.validateUsername username) = false
      <-> Identity.error (Identity.validateUsername username) <> None).
Proof.
  assert (Hletter : forall c, Identity.is_letter c = true
                              <-> (65 <= c <= 90 \/ 97 <= c <= 122)).
  { intros c. unfold Identity.is_letter.
    rewrite orb_true_iff, !andb_true_iff, !N.leb_le. tauto. }
  assert (Hword : forall c, Identity.word_char c = true
                            <-> (65 <= c <= 90 \/ 97 <= c <= 122 \/ 48 <= c <= 57 \/ c = 95)).
  { intros c. unfold Identity.word_char, Identity.is_digit.
    rewrite !orb_true_iff, Hletter, andb_true_iff, !N.leb_le, N.eqb_eq. tauto. }
  assert (Hpattern : forall u, Identity.username_pattern u = true
            <-> exists c rest,
                  u = c :: rest /\ (65 <= c <= 90 \/ 97 <= c <= 122)
                  /\ Forall (fun x => 65 <= x <= 90 \/ 97 <= x <= 122
                                      \/ 48 <= x <= 57 \/ x = 95) rest).
  { intros [|c rest]; cbn [Identity.username_pattern].
    - split; [discriminate | intros (c & rest & H & _); discriminate].
    - rewrite andb_true_iff, Hletter, forallb_forall. split.
      + intros [Hc Hr]. exists c, rest. split; [reflexivity|]. split; [exact Hc|].
        apply Forall_forall. intros x Hx. now apply Hword, Hr.
      + intros (c' & rest' & E & Hc & Hr). injection E as <- <-. split; [exact Hc|].
        rewrite Forall_forall in Hr. intros x Hx. now apply Hword, Hr. }
  split.
  - rewrite <- Hpattern, <- validateUsername_accepts.
    unfold Identity.validateUsername.
    repeat match goal with |- context [if ?b then _ else _] => destruct b end;
      cbn; split; congruence.
  - unfold Identity.validateUsername.
    repeat match goal with |- context [if ?b then _ else _] => destruct b end;
      cbn; split; congruence.
Qed.

(** ** Passwords *)
Section PasswordFacts.
Import Password.

(** The number of requirements met, from the five tests. *)
Lemma metCount_tests password :
  metCount (checkPasswordRequirements password)
  = N.b2n (12 <=? N.of_nat (List.length password))
    + N.b2n (test a_z password) + N.b2n (test A_Z password)
    + N.b2n (test d password) + N.b2n (test special password).
Proof.
  unfold metCount, checkPasswordRequirements. cbn [filter met].
  destruct (12 <=? N.of_nat (List.length password)), (test a_z password),
    (test A_Z password), (test d password), (test special password); reflexivity.
Qed.

Lemma metCount_bounds password :
  let count := metCount (checkPasswordRequirements password) in
  count <= 5 /\ (count = 5 -> 12 <= N.of_nat (List.length password)).
Proof.
  cbv zeta. rewrite metCount_tests.
  destruct (N.leb_spec 12 (N.of_nat (List.length password))),
    (test a_z password), (test A_Z password), (test d password),
    (test special password); cbn [N.b2n]; lia.
Qed.

Lemma all_met password :
  Forall (fun req => met req = true) (checkPasswordRequirements password)
  <-> metCount (checkPasswordRequirements password) = 5.
Proof.
  rewrite metCount_tests. unfold checkPasswordRequirements.
  destruct (12 <=? N.of_nat (List.length password)), (test a_z password),
    (test A_Z password), (test d password), (test special password); cbn [N.b2n];
    (split;
     [ intros H; repeat (apply Forall_cons_iff in H; destruct H as [? H]);
       cbn [met] in *; (reflexivity || discriminate)
     | intros H; (discriminate H || (repeat constructor)) ]).
Qed.

Lemma score_formula password :
  let length := N.of_nat (List.length password) in
  let count := metCount (checkPasswordRequirements password) in
  score (calculatePasswordStrength password)
  = N.min (N.b2n (8 <=? length) + N.b2n (12 <=? length)
           + N.b2n (3 <=? count) + N.b2n (5 <=? count)
           + N.b2n ((16 <=? length) && (count =? 5))) 4.
Proof.
  cbv zeta. unfold calculatePasswordStrength. cbn [score].
  destruct (8 <=? N.of_nat (List.length password)),
    (12 <=? N.of_nat (List.length password)),
    (3 <=? metCount (checkPasswordRequirements password)),
    (5 <=? metCount (checkPasswordRequirements password)),
    ((16 <=? N.of_nat (List.length password))
     && (metCount (checkPasswordRequirements password) =? 5)); reflexivity.
Qed.

(** The extra point is lost in the cap. *)
Lemma score_without_bonus password :
  let length := N.of_nat (List.length password) in
  let count := metCount (checkPasswordRequirements password) in
  score (calculatePasswordStrength password)
  = N.b2n (8 <=? length) + N.b2n (12 <=? length)
    + N.b2n (3 <=? count) + N.b2n (5 <=? count).
Proof.
  cbv zeta. rewrite score_formula.
  destruct (metCount_bounds password) as [Hbound Hlength]. cbv zeta in *.
  destruct (N.leb_spec 8 (N.of_nat (List.length password))),
    (N.leb_spec 12 (N.of_nat (List.length password))),
    (N.leb_spec 3 (metCount (checkPasswordRequirements password))),
    (N.leb_spec 5 (metCount (checkPasswordRequirements password))),
    (N.leb_spec 16 (N.of_nat (List.length password))),
    (N.eqb_spec (metCount (checkPasswordRequirements password)) 5);
    cbn [N.b2n andb]; lia.
Qed.

Lemma label_of_score password :
  strength_label (calculatePasswordStrength password)
  = fst (strengthMap (score (calculatePasswordStrength password))).
Proof. reflexivity. Qed.

Lemma validatePassword_accepts password :
  Identity.valid (validatePassword password) = true
  <-> 8 <= N.of_nat (List.length password)
      /\ 3 <= metCount (checkPasswordRequirements password).
Proof.
  unfold validatePassword.
  destruct password as [|c rest] eqn:E; [cbn; split; [discriminate | lia]|].
  rewrite <- E. replace (truthy_string password) with true by now subst.
  cbn [negb].
  destruct (N.ltb_spec (N.of_nat (List.length password)) 8);
    [cbn [Identity.valid]; split; [discriminate | lia]|].
  destruct (N.ltb_spec (metCount (checkPasswordRequirements password)) 3);
    cbn [Identity.valid]; split; (discriminate || lia || (intros _; (reflexivity || lia))).
Qed.

End PasswordFacts.

(** X11.  The score of [calculatePasswordStrength] is at most 4, and it is 4
    exactly when the five requirements are met.  The extra point for 16
    characters is never seen: the score is the number of the four other
    conditions that hold, whatever the length beyond 12.  No more than three
    feedback lines are returned. *)
Theorem password_score (password : jsstring) :
  let strength := Password.calculatePasswordStrength password in
  let length := N.of_nat (List.length password) in
  let count := Password.metCount (Password.checkPasswordRequirements password) in
  Password.score strength <= 4
  /\ (Password.score strength = 4
      <-> Forall (fun req => Password.met req = true)
            (Password.checkPasswordRequirements password))
  /\ Password.score strength
     = N.b2n (8 <=? length) + N.b2n (12 <=? length)
       + N.b2n (3 <=? count) + N.b2n (5 <=? count)
  /\ (List.length (Password.feedback strength) <= 3)%nat.
Proof.
  intros strength length count.
  pose proof (score_without_bonus password) as Hscore. cbv zeta in Hscore.
  fold strength length count in Hscore.
  destruct (metCount_bounds password) as [Hbound Hlength]. cbv zeta in *.
  fold length count in Hbound, Hlength.
  split; [|split; [|split]].
  - rewrite Hscore.
    destruct (8 <=? length), (12 <=? length), (3 <=? count), (5 <=? count);
      cbn [N.b2n]; lia.
  - rewrite all_met. fold count. rewrite Hscore.
    destruct (N.leb_spec 8 length), (N.leb_spec 12 length), (N.leb_spec 3 count),
      (N.leb_spec 5 count); cbn [N.b2n]; lia.
  - exact Hscore.
  - unfold strength, Password.calculatePasswordStrength. cbn [Password.feedback].
    apply firstn_le_length.
Qed.

(** X12.  [validatePassword] accepts exactly the passwords of at least 8
    characters that meet at least three of the five requirements, and gives
    an error message exactly when it rejects.  An accepted password has a
    score of 2 or more: none is rated "weak" or "fair". *)
Theorem valid_password (password : jsstring) :
  let count := Password.metCount (Password.checkPasswordRequirements password) in
  let strength := Password.calculatePasswordStrength password in
  (Identity.valid (Password.validatePassword password) = true
   <-> 8 <= N.of_nat (List.length password) /\ 3 <= count)
  /\ (Identity.valid (Password.validatePassword password) = false
      <-> Identity.error (Password.validatePassword password) <> None)
  /\ (Identity.valid (Password.validatePassword password) = true ->
      2 <= Password.score strength
      /\ Password.strength_label strength <> Password.weak
      /\ Password.strength_label strength <> Password.fair).
Proof.
  intros count strength.
  split; [apply validatePassword_accepts|]. split.
  - unfold Password.validatePassword.
    repeat match goal with |- context [if ?b then _ else _] => destruct b end;
      cbn; split; congruence.
  - intros H. apply validatePassword_accepts in H. fold count in H.
    destruct H as [H8 H3].
    assert (Hscore : 2 <= Password.score strength).
    { unfold strength. rewrite score_without_bonus. fold count.
      destruct (N.leb_spec 8 (N.of_nat (List.length password))),
        (N.leb_spec 12 (N.of_nat (List.length password))), (N.leb_spec 3 count),
        (N.leb_spec 5 count); cbn [N.b2n]; lia. }
    split; [exact Hscore|]. unfold strength in *. rewrite label_of_score.
    unfold Password.strengthMap.
    destruct (N.eqb_spec (Password.score (Password.calculatePasswordStrength password)) 0);
      [lia|].
    destruct (N.eqb_spec (Password.score (Password.calculatePasswordStrength password)) 1);
      [lia|].
    split;
      repeat match goal with |- context [if ?b then _ else _] => destruct b end;
      discriminate.
Qed.

(** Twelve lower-case letters: rated "good", and not accepted. *)
Example good_and_not_accepted :
  let password := lit "correcthorse" in
  Password.strength_label (Password.calculatePasswordStrength password) = Password.good
  /\ Password.validatePassword password
     = {| Identity.valid := false;
          Identity.error := Some (lit "Password must meet at least 3 requirements") |}
  /\ Password.feedback (Password.calculatePasswordStrength password)
     = [lit "Add one uppercase letter"; lit "Add one number";
        lit "Add one special character"].
Proof. vm_compute. repeat split. Qed.


(** ** New messages *)
Section RealtimeFacts.
Import Crypto Chat.
Context {wc : WebCrypto}.
Variable JSON_parse : jsstring -> option json.
Variable decryptMessage_untyped : json -> PrivateKey -> jsstring -> completion jsstring.

(** With a user, the handler decrypts as the batch does. *)
Lemma realtime_attempt sk uid msg w :
  Realtime.decryptedText JSON_parse decryptMessage_untyped sk (Some uid) msg w
  = Chat.decryptedText JSON_parse decryptMessage_untyped sk (Some uid) msg w.
Proof.
  unfold Realtime.decryptedText, Chat.decryptedText, bind, lift.
  now destruct (JSON_parse (content msg)) as [v|].
Qed.

Lemma onInsert_returns sk user prev msg w :
  exists w',
    Realtime.onInsert JSON_parse decryptMessage_untyped sk user prev msg w
    = (Return (prev ++
         [with_decrypted msg
            match fst (Realtime.decryptedText JSON_parse decryptMessage_untyped
                         sk user msg w) with
            | Return t => t
            | Throw _ => decryption_failed
            end (mine msg user)]), w').
Proof.
  unfold Realtime.onInsert, try_catch, bind.
  destruct (Realtime.decryptedText _ _ sk user msg w) as [[t|e] w1];
    eexists; reflexivity.
Qed.

Lemma realtime_without_user sk msg w :
  exists e, fst (Realtime.decryptedText JSON_parse decryptMessage_untyped sk None msg w)
            = Throw e.
Proof.
  unfold Realtime.decryptedText, bind, lift.
  destruct (JSON_parse (content msg)) as [v|]; now eexists.
Qed.

End RealtimeFacts.

(** X13.  The handler of a new message never throws and appends exactly one
    message to those shown, which it leaves as they are.  The new message
    keeps the stored fields.  For a signed-in user it is the message that
    the batch decryption of [fetchMessages] makes of the same stored message;
    without a user it carries the placeholder, whatever the content. *)
Theorem incoming_message_is_appended
    (wc : Crypto.WebCrypto)
    (JSON_parse : jsstring -> option Chat.json)
    (decryptMessage_untyped :
       Chat.json -> Crypto.PrivateKey -> jsstring -> completion jsstring)
    (privateKey : Crypto.PrivateKey) (user : option jsstring)
    (prev : list Chat.Message) (newMsg : Chat.Message) (w : world) :
  exists m w',
    Realtime.onInsert JSON_parse decryptMessage_untyped privateKey user prev newMsg w
    = (Return (prev ++ [m]), w')
    /\ (Chat.id m, Chat.conversation_id m, Chat.sender_id m, Chat.content m,
        Chat.content_type m, Chat.status m, Chat.reply_to_id m,
        Chat.expires_at m, Chat.created_at m)
       = (Chat.id newMsg, Chat.conversation_id newMsg, Chat.sender_id newMsg,
          Chat.content newMsg, Chat.content_type newMsg, Chat.status newMsg,
          Chat.reply_to_id newMsg, Chat.expires_at newMsg, Chat.created_at newMsg)
    /\ (forall uid w0,
          user = Some uid ->
          fst (Chat.decryptedMessages JSON_parse decryptMessage_untyped privateKey user
                 [newMsg] w0) = Return [m])
    /\ (user = None ->
        Chat.decryptedContent m = Some ([0x26A0; 0xFE0F] ++ lit " Decryption Failed")
        /\ Chat.is_mine m = Some false).
Proof.
  destruct (onInsert_returns JSON_parse decryptMessage_untyped privateKey user prev
              newMsg w) as (w' & E).
  do 2 eexists. split; [exact E|]. split; [reflexivity|]. split.
  - intros uid w0 ->.
    destruct (decryptedMessages_returns JSON_parse decryptMessage_untyped privateKey
                (Some uid) [newMsg] w0 w) as (w1 & E1).
    rewrite E1. cbn [fst map].
    now rewrite (realtime_attempt JSON_parse decryptMessage_untyped privateKey uid
                   newMsg w).
  - intros ->.
    destruct (realtime_without_user JSON_parse decryptMessage_untyped privateKey
                newMsg w) as (e & He).
    rewrite He. split; reflexivity.
Qed.
